(** * The spin engine of the price wheel (script.js)

    A shallow embedding of the wheel logic of [script.js]: the geometry
    function [getIndexAtCentre], the trajectory planning and the per-frame
    [animate] closure of [spinWheel], and the click handlers of the
    generate, spin and reset buttons.

    The file [script.js] carries three revisions of the script.  They share
    the state variables, the handlers and the animation loop; they differ in
    the sign convention of the offset: the first and third revisions add the
    offset to the centre position ([posInWheel = centerY - y + offset]) and
    plan [finalOffset = selectedIndex * segHeight + segHeight / 2 + y - centerY],
    the second subtracts it ([relativePos = centerY - y - offset]) and plans
    [finalOffset = centerY - y - selectedIndex * segHeight - segHeight / 2].
    Both conventions are embedded, selected by a [variant].

    Numbers are JavaScript doubles in the source.  They are embedded in
    exact arithmetic as rationals ([Q]); integer-valued numbers that come
    out of [Math.floor] are embedded as [Z].  A result that is not a finite
    number in the source (a division or remainder by zero) is embedded as
    the index [NaN].

    The environment is made explicit: the value of [canvas.height] is a
    parameter, each call of [Math.random()] and of [performance.now()] is
    an argument of the handler that makes it, and a display refresh is an
    action [Frame now] that runs the callbacks handed to
    [requestAnimationFrame].  A call of [playTickSound] and the display of
    the result overlay are recorded in a trace.  Drawing on the canvas, the
    synthesis of the sounds, the copies kept in [localStorage] and, in the
    first and third revisions, the timer that copies the overlay into the
    permanent result five seconds later change none of the variables of the
    engine and are left out of it.

    Around the engine the file embeds the loop of [drawWheelWithOffset],
    the reading of the names ([parseInput], the tags of the second and
    third revisions), the copies of the lists and of the preferences kept
    in [localStorage], the choice of sound and theme, and the runner game
    of the second revision.  The synthesis of the sounds, the rendering of
    the page and the named groups of the second revision are not
    embedded. *)

From Stdlib Require Import QArith Qround ZArith Lia Lqa List String Ascii Bool Permutation.
Import ListNotations.

Open Scope Q_scope.

(** ** JavaScript arithmetic on finite numbers *)

Module Js.

(** [Math.floor]. *)
Definition Math_floor (x : Q) : Z := Qfloor x.

(** Rounding towards zero, the quotient used by the [%] operator. *)
Definition trunc (x : Q) : Z :=
  if Qle_bool 0 x then Qfloor x else Qceiling x.

(** [a % b] for a finite [a] and a non-zero finite [b]: the remainder has
    the sign of the dividend. *)
Definition rem (a b : Q) : Q := a - b * inject_Z (trunc (a / b)).

(** [Math.min] on two finite numbers. *)
Definition Math_min (a b : Q) : Q := if Qle_bool a b then a else b.

(** [Math.pow(x, 3)]. *)
Definition pow3 (x : Q) : Q := x * x * x.

(** [a < b] as a test. *)
Definition ltb (a b : Q) : bool := negb (Qle_bool b a).

End Js.

(** The value of an index variable: [null], [NaN] or a number. *)
Inductive jsindex : Type :=
| Null
| NaN
| Num (z : Z).

(** [a !== b] on index values: [NaN] differs from everything, itself
    included. *)
Definition strict_neq (a b : jsindex) : bool :=
  match a, b with
  | Num x, Num y => negb (x =? y)%Z
  | Null, Null => false
  | _, _ => true
  end.

(** [arr[i]]: [undefined] (here [None]) unless [i] is an index of [arr]. *)
Definition array_get {A : Type} (arr : list A) (i : jsindex) : option A :=
  match i with
  | Num z => if (z <? 0)%Z then None else nth_error arr (Z.to_nat z)
  | _ => None
  end.

(** [arr.splice(start, 1)]: [start] is converted to an integer ([NaN] and
    [null] to 0), a negative one counts from the end, and the result is
    clamped to the length; at most one element is removed there. *)
Definition splice1 {A : Type} (arr : list A) (start : jsindex) : list A :=
  let len := Z.of_nat (List.length arr) in
  let rel := match start with Num z => z | _ => 0%Z end in
  let actual := if (rel <? 0)%Z then Z.max (len + rel) 0 else Z.min rel len in
  (firstn (Z.to_nat actual) arr ++ skipn (S (Z.to_nat actual)) arr)%list.

(** The two sign conventions of the offset found in the revisions. *)
Inductive variant : Type :=
| OffsetAdded       (* first and third revision *)
| OffsetSubtracted. (* second revision *)

(** ** Geometry model *)

Section Wheel.

(** [canvas.height], fixed by the page. *)
Variable canvas_height : Q.
Variable rev : variant.

Definition wheelHeight : Q := canvas_height * (8 # 10).

(** [getIndexAtCentre(items, offset)].  With an empty [items] the source
    divides by [items.length = 0] and its last [% items.length] yields
    NaN; with a canvas of height 0 the [% wheelHeight] yields NaN. *)
Definition getIndexAtCentre (items : list string) (offset : Q) : jsindex :=
  let ch := canvas_height in
  let wheelHeight := ch * (8 # 10) in
  let len := Z.of_nat (List.length items) in
  if Qeq_bool wheelHeight 0 || (len =? 0)%Z then NaN else
  let segHeight := wheelHeight / inject_Z len in
  let y := (ch - wheelHeight) / 2 in
  let centerY := ch / 2 in
  match rev with
  | OffsetAdded =>
      let posInWheel := centerY - y + offset in
      let index := Js.Math_floor (Js.rem posInWheel wheelHeight / segHeight) in
      Num (Z.rem (index + len) len)
  | OffsetSubtracted =>
      let relativePos := centerY - y - offset in
      let normalizedPos :=
        Js.rem (Js.rem relativePos wheelHeight + wheelHeight) wheelHeight in
      let index := Js.Math_floor (normalizedPos / segHeight) in
      Num (Z.rem index len)
  end.

(** The offset planned by [spinWheel] for the winning index [selected] on
    a wheel of [len] items ([len > 0] is guarded by [spinWheel]). *)
Definition finalOffset (len : Z) (selected : Z) : Q :=
  let ch := canvas_height in
  let wheelHeight := ch * (8 # 10) in
  let segHeight := wheelHeight / inject_Z len in
  let y := (ch - wheelHeight) / 2 in
  let centerY := ch / 2 in
  match rev with
  | OffsetAdded =>
      inject_Z selected * segHeight + segHeight / 2 + y - centerY
  | OffsetSubtracted =>
      centerY - y - inject_Z selected * segHeight - segHeight / 2
  end.

(** The normalisation applied on the last frame:
    [((finalOffset % wheelHeight) + wheelHeight) % wheelHeight]. *)
Definition normalizeOffset (finalOffset wheelHeight : Q) : Q :=
  Js.rem (Js.rem finalOffset wheelHeight + wheelHeight) wheelHeight.

(** ** State of the page

    The variables declared at the top of the script, the callbacks handed
    to [requestAnimationFrame] that wait for the next frame, and the trace
    of notifications produced so far. *)

(** What the engine tells the outside: a call of [playTickSound], and the
    display of the result overlay with the label read from the list
    ([None] for [undefined]). *)
Inductive event : Type :=
| Tick
| Settled (label : option string).

(** The variables captured by one [animate] closure. *)
Record anim : Type := {
  an_finalOffset : Q;
  an_wheelHeight : Q;
  an_startOffset : Q;
  an_distance : Q;
  an_startTime : Q
}.

Record state : Type := {
  currentItems : list string;
  currentOffset : Q;
  isSpinning : bool;
  selectedIndex : jsindex;
  originalItems : list string;
  lastTickIndex : jsindex;
  (** callbacks registered with [requestAnimationFrame], oldest first *)
  frameCallbacks : list anim;
  (** notifications, most recent first *)
  trace : list event
}.

(** The state when the script has been loaded with nothing saved. *)
Definition initial : state :=
  {| currentItems := []; currentOffset := 0; isSpinning := false;
     selectedIndex := Null; originalItems := [];
     lastTickIndex := Num (-1); frameCallbacks := []; trace := [] |}.

Definition duration : Q := 4000.

(** ** shuffleArray *)

(** [array[i] = x] for an index inside the array. *)
Fixpoint array_set (array : list string) (i : nat) (x : string) : list string :=
  match array, i with
  | [], _ => []
  | _ :: t, O => x :: t
  | h :: t, S i' => h :: array_set t i' x
  end.

(** [[array[i], array[j]] = [array[j], array[i]]].  The index [j] comes
    from [Math.floor(Math.random() * (i + 1))], which lies in [0, i]
    because [Math.random()] lies in [0, 1); outside the array nothing is
    exchanged here. *)
Definition swap (array : list string) (i : nat) (j : Z) : list string :=
  match nth_error array i, array_get array (Num j) with
  | Some ai, Some aj => array_set (array_set array i aj) (Z.to_nat j) ai
  | _, _ => array
  end.

(** The loop of [shuffleArray], from index [i] down to 1; [random k] is
    the value returned by the [k]-th call of [Math.random()]. *)
Fixpoint shuffle_from (random : nat -> Q) (calls : nat) (i : nat)
         (array : list string) : list string :=
  match i with
  | O => array
  | S i' =>
      let j := Js.Math_floor (random calls * inject_Z (Z.of_nat (i + 1))) in
      shuffle_from random (S calls) i' (swap array i j)
  end.

Definition shuffleArray (random : nat -> Q) (array : list string) : list string :=
  shuffle_from random 0 (List.length array - 1) array.

(** ** The handlers *)

(** Click on the generate button; [input] is the list read from the
    page.  [originalItems] receives [items.slice()], a copy, and reset
    assigns [originalItems.slice()], a copy again: the array spliced by
    [animate] is never the one [originalItems] holds, so immutable lists
    stand for both. *)
Definition generate (input : list string) (random : nat -> Q) (s : state)
  : state :=
  if (List.length input =? 0)%nat then s
  else
    let items := shuffleArray random input in
    {| currentItems := items;
       currentOffset := 0;
       isSpinning := false;
       selectedIndex := Null;
       originalItems := items;
       lastTickIndex := Num (-1);
       frameCallbacks := frameCallbacks s;
       trace := trace s |}.

(** Click on the reset button. *)
Definition reset (s : state) : state :=
  if (List.length (originalItems s) =? 0)%nat then s
  else
    {| currentItems := originalItems s;
       currentOffset := 0;
       isSpinning := false;
       selectedIndex := Null;
       originalItems := originalItems s;
       lastTickIndex := lastTickIndex s;
       frameCallbacks := frameCallbacks s;
       trace := trace s |}.

(** The trajectory planned by [spinWheel] for the draw [random] of
    [Math.random()] at time [now] ([performance.now()]). *)
Definition plan (random now : Q) (s : state) : anim :=
  let len := Z.of_nat (List.length (currentItems s)) in
  let selected := Js.Math_floor (random * inject_Z len) in
  let wheelHeight := canvas_height * (8 # 10) in
  let final := finalOffset len selected in
  let rotations := 3 in
  let targetOffset := final + rotations * wheelHeight in
  let startOffset := currentOffset s in
  let distance := targetOffset - startOffset in
  {| an_finalOffset := final;
     an_wheelHeight := wheelHeight;
     an_startOffset := startOffset;
     an_distance := distance;
     an_startTime := now |}.

(** [spinWheel()], up to its [requestAnimationFrame(animate)]. *)
Definition spinWheel (random now : Q) (s : state) : state :=
  if isSpinning s || (List.length (currentItems s) =? 0)%nat then s
  else
    let len := Z.of_nat (List.length (currentItems s)) in
    {| currentItems := currentItems s;
       currentOffset := currentOffset s;
       isSpinning := true;
       selectedIndex := Num (Js.Math_floor (random * inject_Z len));
       originalItems := originalItems s;
       lastTickIndex := lastTickIndex s;
       frameCallbacks := frameCallbacks s ++ [plan random now s];
       trace := trace s |}.

(** The offset [animate] gives the wheel at time [now]. *)
Definition frameOffset (a : anim) (now : Q) : Q :=
  let elapsed := now - an_startTime a in
  let progress := Js.Math_min (elapsed / duration) 1 in
  let easeOut := 1 - Js.pow3 (1 - progress) in
  an_startOffset a + an_distance a * easeOut.

(** Whether the [animate] of a spin started at [startTime] asks for
    another frame at [now]: [progress < 1]. *)
Definition unfinished (startTime now : Q) : bool :=
  let elapsed := now - startTime in
  let progress := Js.Math_min (elapsed / duration) 1 in
  Js.ltb progress 1.

(** The first part of [animate]: move the wheel and tick if the segment
    under the centre line is not the one recorded. *)
Definition advance (a : anim) (now : Q) (s : state) : state :=
  let offset := frameOffset a now in
  let currentIndex := getIndexAtCentre (currentItems s) offset in
  let tick := strict_neq currentIndex (lastTickIndex s) && isSpinning s in
  {| currentItems := currentItems s;
     currentOffset := offset;
     isSpinning := isSpinning s;
     selectedIndex := selectedIndex s;
     originalItems := originalItems s;
     lastTickIndex := if tick then currentIndex else lastTickIndex s;
     frameCallbacks := frameCallbacks s;
     trace := if tick then Tick :: trace s else trace s |}.

(** The [else] branch of [animate], taken when [progress] has reached 1. *)
Definition settle (a : anim) (s : state) : state :=
  let offset := normalizeOffset (an_finalOffset a) (an_wheelHeight a) in
  let idx := getIndexAtCentre (currentItems s) offset in
  let selectedValue := array_get (currentItems s) idx in
  {| currentItems := splice1 (currentItems s) idx;
     currentOffset := 0;
     isSpinning := false;
     selectedIndex := idx;
     originalItems := originalItems s;
     lastTickIndex := Num (-1);
     frameCallbacks := frameCallbacks s;
     trace := Settled selectedValue :: trace s |}.

(** One call [animate(now)] of the closure [a]. *)
Definition animate (a : anim) (now : Q) (s : state) : state :=
  let s1 := advance a now s in
  if unfinished (an_startTime a) now then
    {| currentItems := currentItems s1;
       currentOffset := currentOffset s1;
       isSpinning := isSpinning s1;
       selectedIndex := selectedIndex s1;
       originalItems := originalItems s1;
       lastTickIndex := lastTickIndex s1;
       frameCallbacks := frameCallbacks s1 ++ [a];
       trace := trace s1 |}
  else settle a s1.

(** The callback list emptied at the start of a frame. *)
Definition take_callbacks (s : state) : state :=
  {| currentItems := currentItems s;
     currentOffset := currentOffset s;
     isSpinning := isSpinning s;
     selectedIndex := selectedIndex s;
     originalItems := originalItems s;
     lastTickIndex := lastTickIndex s;
     frameCallbacks := [];
     trace := trace s |}.

(** One display refresh at time [now]: the browser runs the callbacks
    registered before the frame, in order; those they register wait for
    the next frame. *)
Definition frame (now : Q) (s : state) : state :=
  fold_left (fun st a => animate a now st) (frameCallbacks s) (take_callbacks s).

(** What can happen to the page. *)
Inductive action : Type :=
| Generate (input : list string) (random : nat -> Q)
| Spin (random now : Q)
| Reset
| Frame (now : Q).

Definition step (s : state) (act : action) : state :=
  match act with
  | Generate input random => generate input random s
  | Spin random now => spinWheel random now s
  | Reset => reset s
  | Frame now => frame now s
  end.

Definition run (acts : list action) (s : state) : state :=
  fold_left step acts s.

(** ** Observations on a run *)

(** Number of calls of [playTickSound]. *)
Definition ticks (tr : list event) : nat :=
  List.length (filter (fun e => match e with Tick => true | _ => false end) tr).

(** The labels shown by the result overlay, most recent first. *)
Fixpoint results (tr : list event) : list (option string) :=
  match tr with
  | [] => []
  | Settled l :: t => l :: results t
  | Tick :: t => results t
  end.

(** Number of pairs of consecutive entries that differ. *)
Fixpoint changes (idxs : list jsindex) : nat :=
  match idxs with
  | a :: (b :: _) as t => (if strict_neq b a then 1 else 0)%nat + changes t
  | _ => O
  end.

(** The index under the centre line on the frame at [now] of the spin
    [a] over [items]. *)
Definition frameIndex (a : anim) (items : list string) (now : Q) : jsindex :=
  getIndexAtCentre items (frameOffset a now).

(** No spin in flight: the flag is down and no callback waits. *)
Definition idle (s : state) : Prop :=
  isSpinning s = false /\ frameCallbacks s = [].

(** The spin animated by [a] over [items] is the only one in flight. *)
Definition in_flight (a : anim) (items : list string) (s : state) : Prop :=
  currentItems s = items /\ isSpinning s = true /\ frameCallbacks s = [a].

(** The frames [pre] then [last] carry a spin started at [startTime] to
    its end: [progress] stays below 1 on [pre] and reaches 1 on [last]. *)
Definition completes (startTime : Q) (pre : list Q) (last : Q) : Prop :=
  forallb (unfinished startTime) pre = true /\ unfinished startTime last = false.

(** One spin with the frames that animate it. *)
Record spin : Type := {
  sp_random : Q;
  sp_start : Q;
  sp_frames : list Q;
  sp_last : Q
}.

Definition spin_actions (sp : spin) : list action :=
  Spin (sp_random sp) (sp_start sp)
    :: map Frame (sp_frames sp ++ [sp_last sp]).

(** The draw is one [Math.random()] can return and the frames carry the
    spin to its end. *)
Definition complete_spin (sp : spin) : bool :=
  Qle_bool 0 (sp_random sp) && Js.ltb (sp_random sp) 1
  && forallb (unfinished (sp_start sp)) (sp_frames sp)
  && negb (unfinished (sp_start sp) (sp_last sp)).

(** Whether a click on generate or reset comes while the flag
    [isSpinning] is up somewhere along the run of [acts] from [s]. *)
Fixpoint interrupted (acts : list action) (s : state) : bool :=
  match acts with
  | [] => false
  | act :: rest =>
      (match act with
       | Generate _ _ | Reset => isSpinning s
       | _ => false
       end) || interrupted rest (step s act)
  end.

Definition is_generate (act : action) : bool :=
  match act with Generate _ _ => true | _ => false end.

End Wheel.

(** ** Definitions used to state the properties *)

(** The mathematical remainder of [a] by [m], in [0, m) for [m > 0]. *)
Definition floor_mod (a m : Q) : Q := a - m * inject_Z (Qfloor (a / m)).

(** The segment that holds the position [pos], counted from the top of a
    wheel of height [m] cut in [len] equal segments. *)
Definition segment_of (m : Q) (len : Z) (pos : Q) : Z :=
  Qfloor (floor_mod pos m / (m / inject_Z len)).

(** The position of the centre line relative to the top of the wheel once
    the wheel is shifted by [offset]. *)
Definition centre_pos (ch : Q) (rev : variant) (offset : Q) : Q :=
  match rev with
  | OffsetAdded => wheelHeight ch / 2 + offset
  | OffsetSubtracted => wheelHeight ch / 2 - offset
  end.

(** The flag [isSpinning] tells whether a callback waits. *)
Definition flag_matches (s : state) : Prop :=
  List.length (frameCallbacks s) = if isSpinning s then 1%nat else 0%nat.

(** ** Examples *)

(** A page used in the examples: the wheel generated from three names with
    every draw of the shuffle equal to 0. *)
Definition demo : state :=
  generate ["A"; "B"; "C"]%string (fun _ => 0) initial.

(** Three spins of the example wheel, each carried to its end. *)
Definition demo_spins : list spin :=
  [ {| sp_random := 1 # 2; sp_start := 0;
       sp_frames := [1000; 2000]; sp_last := 4000 |};
    {| sp_random := 0; sp_start := 5000;
       sp_frames := [5016; 7000]; sp_last := 9100 |};
    {| sp_random := 9 # 10; sp_start := 10000;
       sp_frames := []; sp_last := 14000 |} ].


(** ** Drawing the wheel

    [drawWheelWithOffset] paints one stripe per item.  The embedding keeps
    what the loop computes for each stripe: the top [sy] of the rectangle,
    its height, the label, the index of the colour in the palette of ten
    and whether the stripe is outlined.  The revisions that add the offset
    in [getIndexAtCentre] subtract it here, and the other way round.  As
    for [normalizeOffset], a canvas of height 0 makes the source compute
    NaN; the properties are stated for a positive height.

    The positions are exact rationals, as all numbers of this file.  The
    source computes in doubles, and where a stripe starts at the seam of
    the wrap a rounded [sy] can fall on the other side of it, a whole
    wheel height away, or on [y + wheelHeight] itself.  What is proved of
    the positions of the stripes is proved in exact arithmetic. *)

Record stripe : Type := {
  st_top : Q;
  st_height : Q;
  st_label : string;
  st_colour : Z;
  st_highlight : bool
}.

(** The wrapped starting position [sy] of segment [i]. *)
Definition segmentTop (ch : Q) (rev : variant) (len i : Z) (offset : Q) : Q :=
  let wheelHeight := ch * (8 # 10) in
  let y := (ch - wheelHeight) / 2 in
  let segHeight := wheelHeight / inject_Z len in
  let rawStart :=
    match rev with
    | OffsetAdded => y + inject_Z i * segHeight - offset
    | OffsetSubtracted => y + inject_Z i * segHeight + offset
    end in
  Js.rem (Js.rem (rawStart - y) wheelHeight + wheelHeight) wheelHeight + y.

(** The body of the loop, from index [i] on. *)
Fixpoint draw_from (ch : Q) (rev : variant) (len i : Z) (rest : list string)
         (offset : Q) (highlight : jsindex) : list stripe :=
  match rest with
  | [] => []
  | label :: rest' =>
      {| st_top := segmentTop ch rev len i offset;
         st_height := ch * (8 # 10) / inject_Z len;
         st_label := label;
         st_colour := Z.rem i 10;
         st_highlight :=
           match highlight with
           | Num h => (i =? h)%Z
           | _ => false
           end |}
      :: draw_from ch rev len (i + 1) rest' offset highlight
  end.

(** [drawWheelWithOffset(items, offset, highlight)]: nothing but the
    cleared canvas for an empty list. *)
Definition drawWheelWithOffset (ch : Q) (rev : variant) (items : list string)
           (offset : Q) (highlight : jsindex) : list stripe :=
  if (List.length items =? 0)%nat then []
  else draw_from ch rev (Z.of_nat (List.length items)) 0 items offset highlight.

(** [l] is [m] with some entries left out, the others in their order. *)
Inductive subseq {A : Type} : list A -> list A -> Prop :=
| subseq_nil : subseq [] []
| subseq_keep (x : A) (l m : list A) : subseq l m -> subseq (x :: l) (x :: m)
| subseq_skip (x : A) (l m : list A) : subseq l m -> subseq l (x :: m).

(** ** Reading the names

    A JavaScript string is embedded as a [string] whose characters stand
    for its code units; the code units are those below 256.  In that range
    the characters [trim] strips (white space and line terminators) are
    tab, line feed, vertical tab, form feed, carriage return, space and
    no-break space. *)

Definition is_space (c : ascii) : bool :=
  let n := nat_of_ascii c in
  ((9 <=? n) && (n <=? 13) || (n =? 32) || (n =? 160))%nat.

(** A character matched by the class of the regular expression [/[\n,]+/]:
    a line feed or a comma. *)
Definition is_separator (c : ascii) : bool :=
  let n := nat_of_ascii c in
  ((n =? 10) || (n =? 44))%nat.

Fixpoint trimStart (s : string) : string :=
  match s with
  | EmptyString => EmptyString
  | String c r => if is_space c then trimStart r else s
  end.

Fixpoint trimEnd (s : string) : string :=
  match s with
  | EmptyString => EmptyString
  | String c r =>
      match trimEnd r with
      | EmptyString => if is_space c then EmptyString else String c EmptyString
      | r' => String c r'
      end
  end.

(** [s.trim()]. *)
Definition trim (s : string) : string := trimEnd (trimStart s).

(** [s.split(/[\n,]+/)], read from left to right; the first piece of the
    result is the one being read, and [skipping] tells that the character
    before was a separator, so that a run of separators cuts once.  A
    separator at the start or at the end leaves an empty piece there, and
    the empty string gives one empty piece. *)
Fixpoint split_from (skipping : bool) (s : string) : list string :=
  match s with
  | EmptyString => [EmptyString]
  | String c r =>
      if is_separator c then
        if skipping then split_from true r
        else EmptyString :: split_from true r
      else
        match split_from false r with
        | piece :: pieces => String c piece :: pieces
        | [] => [String c EmptyString]
        end
  end.

Definition split (s : string) : list string := split_from false s.

(** [parseInput()] of the first revision, on the text [raw] of the text
    area; also the first statement of [parseAndAddTags(text)]. *)
Definition parseInput (raw : string) : list string :=
  filter (fun s => (0 <? String.length s)%nat) (map trim (split raw)).

(** ** The tags of the second and third revisions *)

(** [addTag(tagText)] on the array [namesTags]. *)
Definition addTag (tagText : string) (namesTags : list string) : list string :=
  let trimmedText := trim tagText in
  if (trimmedText =? "")%string || existsb (String.eqb trimmedText) namesTags
  then namesTags
  else (namesTags ++ [trimmedText])%list.

(** [removeTag(index)]. *)
Definition removeTag (index : Z) (namesTags : list string) : list string :=
  if (0 <=? index)%Z && (index <? Z.of_nat (List.length namesTags))%Z
  then splice1 namesTags (Num index)
  else namesTags.

(** [parseAndAddTags(text)], called when text is pasted. *)
Definition parseAndAddTags (text : string) (namesTags : list string) : list string :=
  fold_left (fun tags item => addTag item tags) (parseInput text) namesTags.

(** What the user can do to the tags: press Enter in the input, click the
    cross of a tag, paste text, click on Clear. *)
Inductive tag_action : Type :=
| EnterKey (value : string)
| RemoveTagAt (index : Z)
| Paste (text : string)
| ClearNames.

Definition tag_step (namesTags : list string) (act : tag_action) : list string :=
  match act with
  | EnterKey value =>
      let value := trim value in
      if (0 <? String.length value)%nat then addTag value namesTags else namesTags
  | RemoveTagAt index => removeTag index namesTags
  | Paste text => parseAndAddTags text namesTags
  | ClearNames => []
  end.

Definition tag_run (acts : list tag_action) (namesTags : list string) : list string :=
  fold_left tag_step acts namesTags.

(** The characters of a string. *)
Definition chars (s : string) : list ascii := list_ascii_of_string s.

(** A tag as [addTag] stores it: not empty, nothing to trim. *)
Definition clean (s : string) : Prop := s <> EmptyString /\ trim s = s.

(** ** What the page keeps in localStorage

    The entries of [localStorage] the script reads and writes, one field
    per key; [None] is a missing key ([getItem] returns [null]).  The
    three lists are kept as JSON text: the text [JSON.stringify] makes of
    an array of strings is embedded as that array, which [JSON.parse]
    gives back, and [NotJson] is a non-empty text [JSON.parse] rejects.  A text that
    parses to something else than an array of strings, which the script
    never writes under these keys, is not embedded; neither are the groups
    of names of the second revision. *)

Inductive json : Type :=
| JsonArray (names : list string)
| NotJson.

Record localStorage : Type := {
  ls_muted : option string;         (* wheelGenerator_muted *)
  ls_soundType : option string;     (* wheelGenerator_soundType *)
  ls_theme : option string;         (* wheelGenerator_theme *)
  ls_tagsList : option json;        (* wheelGenerator_tagsList *)
  ls_currentItems : option json;    (* wheelGenerator_currentItems *)
  ls_originalItems : option json    (* wheelGenerator_originalItems *)
}.

Definition empty_storage : localStorage :=
  {| ls_muted := None; ls_soundType := None; ls_theme := None;
     ls_tagsList := None; ls_currentItems := None; ls_originalItems := None |}.

(** [saveWheelState()]. *)
Definition saveWheelState (s : state) (ls : localStorage) : localStorage :=
  let ls1 :=
    if (0 <? List.length (currentItems s))%nat then
      {| ls_muted := ls_muted ls; ls_soundType := ls_soundType ls;
         ls_theme := ls_theme ls; ls_tagsList := ls_tagsList ls;
         ls_currentItems := Some (JsonArray (currentItems s));
         ls_originalItems := ls_originalItems ls |}
    else ls in
  if (0 <? List.length (originalItems s))%nat then
    {| ls_muted := ls_muted ls1; ls_soundType := ls_soundType ls1;
       ls_theme := ls_theme ls1; ls_tagsList := ls_tagsList ls1;
       ls_currentItems := ls_currentItems ls1;
       ls_originalItems := Some (JsonArray (originalItems s)) |}
  else ls1.

(** [clearWheelState()]. *)
Definition clearWheelState (ls : localStorage) : localStorage :=
  {| ls_muted := ls_muted ls; ls_soundType := ls_soundType ls;
     ls_theme := ls_theme ls; ls_tagsList := ls_tagsList ls;
     ls_currentItems := None;
     ls_originalItems := None |}.

(** What one of the two branches of [loadWheelState] assigns: the parsed
    array, the empty array when [JSON.parse] throws, and nothing for a
    missing key. *)
Definition parsed_or (saved : option json) (old : list string) : list string :=
  match saved with
  | Some (JsonArray names) => names
  | Some NotJson => []
  | None => old
  end.

(** [loadWheelState()], called when the script starts. *)
Definition loadWheelState (ls : localStorage) (s : state) : state :=
  {| currentItems := parsed_or (ls_currentItems ls) (currentItems s);
     currentOffset := currentOffset s;
     isSpinning := isSpinning s;
     selectedIndex := selectedIndex s;
     originalItems := parsed_or (ls_originalItems ls) (originalItems s);
     lastTickIndex := lastTickIndex s;
     frameCallbacks := frameCallbacks s;
     trace := trace s |}.

(** The handlers again, with what they write to the storage: generate and
    reset end with [saveWheelState()]; the last frame of a spin ends with
    [clearWheelState()] if the list has become empty, and with
    [saveWheelState()]. *)
Definition generate_stored (input : list string) (random : nat -> Q)
           (p : state * localStorage) : state * localStorage :=
  if (List.length input =? 0)%nat then p
  else
    let s' := generate input random (fst p) in
    (s', saveWheelState s' (snd p)).

Definition reset_stored (p : state * localStorage) : state * localStorage :=
  if (List.length (originalItems (fst p)) =? 0)%nat then p
  else
    let s' := reset (fst p) in
    (s', saveWheelState s' (snd p)).

Definition animate_stored (ch : Q) (rev : variant) (a : anim) (now : Q)
           (p : state * localStorage) : state * localStorage :=
  let s' := animate ch rev a now (fst p) in
  if unfinished (an_startTime a) now then (s', snd p)
  else
    let ls1 :=
      if (0 <? List.length (currentItems s'))%nat then snd p
      else clearWheelState (snd p) in
    (s', saveWheelState s' ls1).

Definition frame_stored (ch : Q) (rev : variant) (now : Q)
           (p : state * localStorage) : state * localStorage :=
  fold_left (fun q a => animate_stored ch rev a now q)
            (frameCallbacks (fst p)) (take_callbacks (fst p), snd p).

Definition step_stored (ch : Q) (rev : variant) (p : state * localStorage)
           (act : action) : state * localStorage :=
  match act with
  | Generate input random => generate_stored input random p
  | Spin random now => (spinWheel ch rev random now (fst p), snd p)
  | Reset => reset_stored p
  | Frame now => frame_stored ch rev now p
  end.

Definition run_stored (ch : Q) (rev : variant) (acts : list action)
           (p : state * localStorage) : state * localStorage :=
  fold_left (step_stored ch rev) acts p.

(** The page as the script finds it when it starts on the storage [ls]. *)
Definition page_load (ls : localStorage) : state * localStorage :=
  (loadWheelState ls initial, ls).

(** ** The tags and the storage *)

(** [saveTagsToStorage()]. *)
Definition saveTagsToStorage (namesTags : list string) (ls : localStorage)
  : localStorage :=
  {| ls_muted := ls_muted ls; ls_soundType := ls_soundType ls;
     ls_theme := ls_theme ls;
     ls_tagsList :=
       if (0 <? List.length namesTags)%nat then Some (JsonArray namesTags)
       else None;
     ls_currentItems := ls_currentItems ls;
     ls_originalItems := ls_originalItems ls |}.

(** [loadTagsFromStorage()]. *)
Definition loadTagsFromStorage (ls : localStorage) (namesTags : list string)
  : list string :=
  parsed_or (ls_tagsList ls) namesTags.

(** [addTag] and [removeTag] with their [saveTagsToStorage()], which they
    call only when they change the list. *)
Definition addTag_stored (tagText : string) (p : list string * localStorage)
  : list string * localStorage :=
  let trimmedText := trim tagText in
  if (trimmedText =? "")%string || existsb (String.eqb trimmedText) (fst p)
  then p
  else
    let tags := addTag tagText (fst p) in
    (tags, saveTagsToStorage tags (snd p)).

Definition removeTag_stored (index : Z) (p : list string * localStorage)
  : list string * localStorage :=
  if (0 <=? index)%Z && (index <? Z.of_nat (List.length (fst p)))%Z
  then
    let tags := removeTag index (fst p) in
    (tags, saveTagsToStorage tags (snd p))
  else p.

Definition tag_step_stored (p : list string * localStorage) (act : tag_action)
  : list string * localStorage :=
  match act with
  | EnterKey value =>
      let value := trim value in
      if (0 <? String.length value)%nat then addTag_stored value p else p
  | RemoveTagAt index => removeTag_stored index p
  | Paste text =>
      fold_left (fun q item => addTag_stored item q) (parseInput text) p
  | ClearNames => ([], saveTagsToStorage [] (snd p))
  end.

Definition tag_run_stored (acts : list tag_action) (p : list string * localStorage)
  : list string * localStorage :=
  fold_left tag_step_stored acts p.

(** The storage holds the two lists of the page. *)
Definition mirrored (p : state * localStorage) : Prop :=
  parsed_or (ls_currentItems (snd p)) [] = currentItems (fst p)
  /\ parsed_or (ls_originalItems (snd p)) [] = originalItems (fst p).

(** The storage holds the tags of the page. *)
Definition tags_mirrored (p : list string * localStorage) : Prop :=
  parsed_or (ls_tagsList (snd p)) [] = fst p.

(** ** Sound, mute and theme

    The variables of the preferences; [currentSpinSoundType] is [None]
    when the script has assigned it [undefined].  [cycleIndex] and the
    theme belong to the second revision (the theme to the third as
    well). *)

Record prefs : Type := {
  isMuted : bool;
  currentSoundType : string;
  currentSpinSoundType : option string;
  cycleIndex : Z;
  currentTheme : string
}.

Definition initial_prefs : prefs :=
  {| isMuted := false; currentSoundType := "classic";
     currentSpinSoundType := Some "classic"%string; cycleIndex := 0;
     currentTheme := "dark" |}.

(** The array [sounds] of [setSpinSoundType] and [onSoundChange]. *)
Definition sounds (rev : variant) : list string :=
  match rev with
  | OffsetAdded => ["classic"; "beep"; "click"; "ping"; "pop"; "blip"]%string
  | OffsetSubtracted =>
      ["classic"; "beep"; "click"; "pop"; "blip"; "thud"; "bass"; "drum"]%string
  end.

Definition themes : list string := ["dark"; "light"; "auto"]%string.

(** [setSpinSoundType()], called by [spinWheel]; [random] is the value of
    [Math.random()] should it be called. *)
Definition setSpinSoundType (rev : variant) (random : Q) (p : prefs) : prefs :=
  let len := Z.of_nat (List.length (sounds rev)) in
  if (currentSoundType p =? "random")%string then
    {| isMuted := isMuted p; currentSoundType := currentSoundType p;
       currentSpinSoundType :=
         array_get (sounds rev) (Num (Js.Math_floor (random * inject_Z len)));
       cycleIndex := cycleIndex p; currentTheme := currentTheme p |}
  else
    match rev with
    | OffsetSubtracted =>
        if (currentSoundType p =? "cycle")%string then
          {| isMuted := isMuted p; currentSoundType := currentSoundType p;
             currentSpinSoundType :=
               array_get (sounds rev) (Num (Z.rem (cycleIndex p) len));
             cycleIndex := cycleIndex p + 1; currentTheme := currentTheme p |}
        else
          {| isMuted := isMuted p; currentSoundType := currentSoundType p;
             currentSpinSoundType := Some (currentSoundType p);
             cycleIndex := cycleIndex p; currentTheme := currentTheme p |}
    | OffsetAdded =>
        {| isMuted := isMuted p; currentSoundType := currentSoundType p;
           currentSpinSoundType := Some (currentSoundType p);
           cycleIndex := cycleIndex p; currentTheme := currentTheme p |}
    end.

(** [toggleMute()]. *)
Definition toggleMute (q : prefs * localStorage) : prefs * localStorage :=
  let p := fst q in
  let ls := snd q in
  let muted := negb (isMuted p) in
  ({| isMuted := muted; currentSoundType := currentSoundType p;
      currentSpinSoundType := currentSpinSoundType p;
      cycleIndex := cycleIndex p; currentTheme := currentTheme p |},
   {| ls_muted := Some (if muted then "true" else "false")%string;
      ls_soundType := ls_soundType ls; ls_theme := ls_theme ls;
      ls_tagsList := ls_tagsList ls; ls_currentItems := ls_currentItems ls;
      ls_originalItems := ls_originalItems ls |}).

(** [loadMutePreference()]. *)
Definition loadMutePreference (q : prefs * localStorage) : prefs * localStorage :=
  let p := fst q in
  match ls_muted (snd q) with
  | Some saved =>
      if (saved =? "true")%string then
        ({| isMuted := true; currentSoundType := currentSoundType p;
            currentSpinSoundType := currentSpinSoundType p;
            cycleIndex := cycleIndex p; currentTheme := currentTheme p |}, snd q)
      else q
  | None => q
  end.

(** [onSoundChange()] with the value of the select, up to the preview it
    plays. *)
Definition onSoundChange (rev : variant) (value : string) (random : Q)
           (q : prefs * localStorage) : prefs * localStorage :=
  let p := fst q in
  let ls := snd q in
  let len := Z.of_nat (List.length (sounds rev)) in
  let spin :=
    if (value =? "random")%string then
      array_get (sounds rev) (Num (Js.Math_floor (random * inject_Z len)))
    else
      match rev with
      | OffsetSubtracted =>
          if (value =? "cycle")%string then
            array_get (sounds rev) (Num (Z.rem (cycleIndex p) len))
          else Some value
      | OffsetAdded => Some value
      end in
  ({| isMuted := isMuted p; currentSoundType := value;
      currentSpinSoundType := spin;
      cycleIndex := cycleIndex p; currentTheme := currentTheme p |},
   {| ls_muted := ls_muted ls; ls_soundType := Some value;
      ls_theme := ls_theme ls; ls_tagsList := ls_tagsList ls;
      ls_currentItems := ls_currentItems ls;
      ls_originalItems := ls_originalItems ls |}).

(** [loadSoundPreference()]: a saved value that is not the empty string
    becomes the sound type, then [setSpinSoundType()]. *)
Definition loadSoundPreference (rev : variant) (random : Q)
           (q : prefs * localStorage) : prefs * localStorage :=
  let p := fst q in
  let p1 :=
    match ls_soundType (snd q) with
    | Some savedSound =>
        if (0 <? String.length savedSound)%nat then
          {| isMuted := isMuted p; currentSoundType := savedSound;
             currentSpinSoundType := currentSpinSoundType p;
             cycleIndex := cycleIndex p; currentTheme := currentTheme p |}
        else p
    | None => p
    end in
  (setSpinSoundType rev random p1, snd q).

(** [setTheme(theme)]. *)
Definition setTheme (theme : string) (q : prefs * localStorage)
  : prefs * localStorage :=
  let p := fst q in
  let ls := snd q in
  ({| isMuted := isMuted p; currentSoundType := currentSoundType p;
      currentSpinSoundType := currentSpinSoundType p;
      cycleIndex := cycleIndex p; currentTheme := theme |},
   {| ls_muted := ls_muted ls; ls_soundType := ls_soundType ls;
      ls_theme := Some theme; ls_tagsList := ls_tagsList ls;
      ls_currentItems := ls_currentItems ls;
      ls_originalItems := ls_originalItems ls |}).

(** [array.indexOf(x)], counted from [i]: -1 when [x] is not there. *)
Fixpoint indexOf_from (i : Z) (x : string) (array : list string) : Z :=
  match array with
  | [] => -1
  | y :: rest => if (x =? y)%string then i else indexOf_from (i + 1) x rest
  end.

(** [toggleTheme()].  [themes[nextIndex]] is read with [array_get]; the
    index is one of 0, 1, 2, so the read never gives [undefined]. *)
Definition toggleTheme (q : prefs * localStorage) : prefs * localStorage :=
  let currentIndex := indexOf_from 0 (currentTheme (fst q)) themes in
  let nextIndex := Z.rem (currentIndex + 1) (Z.of_nat (List.length themes)) in
  match array_get themes (Num nextIndex) with
  | Some theme => setTheme theme q
  | None => q
  end.

(** [loadThemePreference()]. *)
Definition loadThemePreference (q : prefs * localStorage) : prefs * localStorage :=
  match ls_theme (snd q) with
  | Some savedTheme =>
      if (0 <? String.length savedTheme)%nat
         && existsb (String.eqb savedTheme) themes
      then setTheme savedTheme q
      else setTheme "dark" q
  | None => setTheme "dark" q
  end.

(** The preferences as the script sets them when it starts on the storage
    [ls]: [loadMutePreference()], [loadSoundPreference()] and, in the
    second and third revisions, [loadThemePreference()]. *)
Definition prefs_load (rev : variant) (random : Q) (ls : localStorage)
  : prefs * localStorage :=
  loadThemePreference
    (loadSoundPreference rev random (loadMutePreference (initial_prefs, ls))).

(** What the user can do to the preferences; a spin sets the sound of the
    spin. *)
Inductive pref_action : Type :=
| ToggleMute
| ToggleTheme
| SoundChange (value : string) (random : Q)
| SpinSound (random : Q).

Definition pref_step (rev : variant) (q : prefs * localStorage) (act : pref_action)
  : prefs * localStorage :=
  match act with
  | ToggleMute => toggleMute q
  | ToggleTheme => toggleTheme q
  | SoundChange value random => onSoundChange rev value random q
  | SpinSound random => (setSpinSoundType rev random (fst q), snd q)
  end.

Definition pref_run (rev : variant) (acts : list pref_action)
           (q : prefs * localStorage) : prefs * localStorage :=
  fold_left (pref_step rev) acts q.

(** The values the select offers are not empty. *)
Definition sound_values_ok (acts : list pref_action) : Prop :=
  Forall (fun act =>
            match act with
            | SoundChange value _ => value <> EmptyString
            | _ => True
            end) acts.

(** The storage holds the preferences of the page. *)
Definition prefs_mirrored (q : prefs * localStorage) : Prop :=
  isMuted (fst q)
  = match ls_muted (snd q) with
    | Some saved => (saved =? "true")%string
    | None => false
    end
  /\ currentSoundType (fst q)
     = match ls_soundType (snd q) with
       | Some saved => if (0 <? String.length saved)%nat then saved else "classic"%string
       | None => "classic"%string
       end
  /\ ls_theme (snd q) = Some (currentTheme (fst q))
  /\ In (currentTheme (fst q)) themes.

(** The sounds of successive spins, one draw of [Math.random()] each. *)
Fixpoint spin_sounds (rev : variant) (randoms : list Q) (p : prefs)
  : list (option string) :=
  match randoms with
  | [] => []
  | random :: rest =>
      let p' := setSpinSoundType rev random p in
      currentSpinSoundType p' :: spin_sounds rev rest p'
  end.

(** ** The runner game of the second revision

    The variables of [startRunnerGame], its functions [resetGame],
    [spawnObstacle] and [update] and its key handler.  The flag
    [runnerGameActive] of the page is an argument, and so are the three
    values [Math.random()] returns when an obstacle is spawned, in the
    order of the calls.  [draw] paints and changes nothing. *)

Module Runner.

Record player : Type := {
  x : Q; y : Q; vy : Q; w : Q; h : Q; jumping : bool
}.

(** An obstacle [{x, y, w, h}]. *)
Record obstacle : Type := {
  ox : Q; oy : Q; ow : Q; oh : Q
}.

Record game : Type := {
  pl : player;
  obstacles : list obstacle;
  frame : Z;
  score : Z;
  gameOver : bool;
  nextObstacleFrame : Z
}.

Definition ground : Q := 268.
Definition gravity : Q := 12 # 10.

(** [resetGame()]. *)
Definition resetGame (g : game) : game :=
  {| pl := {| x := x (pl g); y := ground - h (pl g); vy := 0;
              w := w (pl g); h := h (pl g); jumping := false |};
     obstacles := [];
     frame := 0;
     score := 0;
     gameOver := false;
     nextObstacleFrame := 60 |}.

(** The game when [startRunnerGame] has declared its variables and called
    [resetGame()]. *)
Definition start : game :=
  resetGame
    {| pl := {| x := 60; y := 220; vy := 0; w := 32; h := 48; jumping := false |};
       obstacles := [];
       frame := 0;
       score := 0;
       gameOver := false;
       nextObstacleFrame := 60 |}.

(** [spawnObstacle()] with the three draws it makes. *)
Definition spawnObstacle (draws : Q * Q * Q) (g : game) : game :=
  let '(r1, r2, r3) := draws in
  let obsHeight := 32 + r1 * 24 in
  {| pl := pl g;
     obstacles :=
       (obstacles g
        ++ [{| ox := 800; oy := ground - obsHeight; ow := 24 + r2 * 24;
               oh := obsHeight |}])%list;
     frame := frame g;
     score := score g;
     gameOver := gameOver g;
     nextObstacleFrame := frame g + 40 + Js.Math_floor (r3 * 60) |}.

(** The test of the collision loop. *)
Definition collides (p : player) (obs : obstacle) : bool :=
  Js.ltb (x p) (ox obs + ow obs)
  && Js.ltb (ox obs) (x p + w p)
  && Js.ltb (y p) (oy obs + oh obs)
  && Js.ltb (oy obs) (y p + h p).

(** [update()]. *)
Definition update (runnerGameActive : bool) (draws : Q * Q * Q) (g : game) : game :=
  if negb runnerGameActive then g
  else if gameOver g then g
  else
    let frame1 := (frame g + 1)%Z in
    let score1 := Js.Math_floor (inject_Z frame1 / 5) in
    let p := pl g in
    let vy1 := vy p + gravity in
    let y1 := y p + vy1 in
    let p1 :=
      if Js.ltb (ground - h p) y1 then
        {| x := x p; y := ground - h p; vy := 0; w := w p; h := h p;
           jumping := false |}
      else
        {| x := x p; y := y1; vy := vy1; w := w p; h := h p;
           jumping := jumping p |} in
    let moved :=
      map (fun obs => {| ox := ox obs - 6; oy := oy obs; ow := ow obs; oh := oh obs |})
          (obstacles g) in
    let kept := filter (fun obs => Js.ltb 0 (ox obs + ow obs)) moved in
    let g1 :=
      {| pl := p1; obstacles := kept; frame := frame1; score := score1;
         gameOver := false; nextObstacleFrame := nextObstacleFrame g |} in
    let g2 :=
      if (frame1 =? nextObstacleFrame g)%Z then spawnObstacle draws g1 else g1 in
    {| pl := pl g2; obstacles := obstacles g2; frame := frame g2;
       score := score g2;
       gameOver := existsb (collides (pl g2)) (obstacles g2);
       nextObstacleFrame := nextObstacleFrame g2 |}.

(** The keys the handler tells apart, by [e.code]. *)
Inductive key : Type := Space | ArrowUp | OtherKey.

(** [runnerKeyHandler(e)]. *)
Definition runnerKeyHandler (runnerGameActive : bool) (code : key) (g : game) : game :=
  if negb runnerGameActive then g
  else
    match gameOver g, code with
    | true, Space => resetGame g
    | false, (Space | ArrowUp) =>
        if negb (jumping (pl g)) then
          {| pl := {| x := x (pl g); y := y (pl g); vy := - (18);
                      w := w (pl g); h := h (pl g); jumping := true |};
             obstacles := obstacles g; frame := frame g; score := score g;
             gameOver := gameOver g; nextObstacleFrame := nextObstacleFrame g |}
        else g
    | _, _ => g
    end.

(** What happens while the game is open: a turn of the loop, with the
    draws an obstacle would take, or a key. *)
Inductive input : Type :=
| Update (draws : Q * Q * Q)
| Key (code : key).

Definition step (g : game) (i : input) : game :=
  match i with
  | Update draws => update true draws g
  | Key code => runnerKeyHandler true code g
  end.

Definition play (inputs : list input) (g : game) : game :=
  fold_left step inputs g.

(** The draws are values [Math.random()] can return. *)
Definition draws_ok (draws : Q * Q * Q) : Prop :=
  let '(r1, r2, r3) := draws in
  (0 <= r1 /\ r1 < 1) /\ (0 <= r2 /\ r2 < 1) /\ (0 <= r3 /\ r3 < 1).

(** The player stands on the ground, or is in the [k]-th frame of a
    jump. *)
Definition standing (p : player) : Prop :=
  jumping p = false /\ y p == 220 /\ vy p == 0.

Definition airborne (k : Z) (p : player) : Prop :=
  jumping p = true /\ (0 <= k <= 29)%Z
  /\ vy p == - (18) + (6 # 5) * inject_Z k
  /\ y p == 220 - 18 * inject_Z k + (3 # 5) * inject_Z k * (inject_Z k + 1).

Definition player_ok (p : player) : Prop :=
  h p = 48 /\ (standing p \/ exists k, airborne k p).

(** At turn [turn] an obstacle stands on the ground, is at least as large
    as the smallest [spawnObstacle] makes, and is no further left than an
    obstacle spawned at frame 60 that has moved six pixels a turn. *)
Definition obstacle_ok (turn : Z) (obs : obstacle) : Prop :=
  800 - 6 * (inject_Z turn - 60) <= ox obs
  /\ 24 <= ow obs /\ 32 <= oh obs /\ oy obs + oh obs == ground.

(** What holds of every obstacle on the list. *)
Definition on_screen (obs : obstacle) : Prop :=
  0 < ox obs + ow obs /\ ox obs <= 800
  /\ (24 <= ow obs /\ ow obs < 48) /\ (32 <= oh obs /\ oh obs < 56)
  /\ oy obs + oh obs == ground.

Definition inputs_ok (inputs : list input) : Prop :=
  Forall (fun i => match i with Update draws => draws_ok draws | Key _ => True end)
         inputs.

(** The game as long as nobody jumps: the turns of the loop only. *)
Fixpoint idle_turns (n : nat) (draws : nat -> Q * Q * Q) (g : game) : game :=
  match n with
  | O => g
  | S n' => update true (draws n') (idle_turns n' draws g)
  end.

(** The game after [n] turns in which nobody jumped and nothing was
    hit. *)
Definition idle_inv (n : nat) (g : game) : Prop :=
  let N := Z.of_nat n in
  frame g = N
  /\ x (pl g) = 60 /\ w (pl g) = 32 /\ h (pl g) = 48
  /\ y (pl g) == 220 /\ vy (pl g) == 0
  /\ (frame g < nextObstacleFrame g)%Z
  /\ ((N < 60)%Z -> nextObstacleFrame g = 60%Z /\ obstacles g = [])
  /\ ((60 <= N)%Z ->
      exists obs, In obs (obstacles g) /\ ox obs == 800 - 6 * (inject_Z N - 60))
  /\ Forall (obstacle_ok N) (obstacles g).

End Runner.

(** ** Rounding and remainders *)

Lemma floor_unique (x : Q) (z : Z) :
  inject_Z z <= x -> x < inject_Z (z + 1) -> Qfloor x = z.
Proof.
  intros Hlo Hhi.
  pose proof (Qfloor_le x) as Hf.
  pose proof (Qlt_floor x) as Hg.
  assert (H1 : (z < Qfloor x + 1)%Z).
  { rewrite Zlt_Qlt. eapply Qle_lt_trans; eauto. }
  assert (H2 : (Qfloor x < z + 1)%Z).
  { rewrite Zlt_Qlt. eapply Qle_lt_trans; eauto. }
  lia.
Qed.

Lemma div_mul_cancel (a m : Q) : ~ m == 0 -> m * (a / m) == a.
Proof. intros. field. assumption. Qed.

Lemma floor_mod_bounds (a m : Q) :
  0 < m -> 0 <= floor_mod a m /\ floor_mod a m < m.
Proof.
  intros Hm. unfold floor_mod.
  pose proof (Qfloor_le (a / m)) as Hf.
  pose proof (Qlt_floor (a / m)) as Hg.
  rewrite inject_Z_plus in Hg.
  assert (Ha : m * (a / m) == a) by (apply div_mul_cancel; lra).
  set (q := a / m) in *. set (f := inject_Z (Qfloor q)) in *.
  change (inject_Z 1) with 1 in Hg.
  split; nra.
Qed.

Lemma congruent_unique (x y m : Q) (k : Z) :
  0 <= x -> x < m -> 0 <= y -> y < m -> x - y == m * inject_Z k -> x == y.
Proof.
  intros Hx0 Hx1 Hy0 Hy1 Hk.
  assert (Hm : 0 < m) by lra.
  assert (H1 : (k < 1)%Z).
  { rewrite Zlt_Qlt. change (inject_Z 1) with 1. nra. }
  assert (H2 : (-1 < k)%Z).
  { rewrite Zlt_Qlt. change (inject_Z (-1)) with (-1). nra. }
  assert (k = 0%Z) by lia. subst k.
  change (inject_Z 0) with 0 in Hk. lra.
Qed.

Lemma floor_mod_unique (a x m : Q) (k : Z) :
  0 <= x -> x < m -> x == a + m * inject_Z k -> x == floor_mod a m.
Proof.
  intros Hx0 Hx1 Hk.
  assert (Hm : 0 < m) by lra.
  destruct (floor_mod_bounds a m Hm) as [Hf0 Hf1].
  apply (congruent_unique x (floor_mod a m) m (k + Qfloor (a / m))); auto.
  unfold floor_mod. rewrite inject_Z_plus. rewrite Hk. ring.
Qed.

Lemma trunc_comp (x y : Q) : x == y -> Js.trunc x = Js.trunc y.
Proof.
  intros H. unfold Js.trunc.
  rewrite (Qleb_comp 0 0 (Qeq_refl 0) x y H).
  rewrite (Qfloor_comp x y H), (Qceiling_comp x y H). reflexivity.
Qed.

#[global] Instance rem_Proper : Proper (Qeq ==> Qeq ==> Qeq) Js.rem.
Proof.
  intros a a' Ha m m' Hm. unfold Js.rem.
  rewrite (trunc_comp (a / m) (a' / m')) by (rewrite Ha, Hm; reflexivity).
  rewrite Ha, Hm. reflexivity.
Qed.

#[global] Instance floor_mod_Proper : Proper (Qeq ==> Qeq ==> Qeq) floor_mod.
Proof.
  intros a a' Ha m m' Hm. unfold floor_mod.
  rewrite (Qfloor_comp (a / m) (a' / m')) by (rewrite Ha, Hm; reflexivity).
  rewrite Ha, Hm. reflexivity.
Qed.

(** For a non-negative dividend [%] is the mathematical remainder. *)
Lemma rem_nonneg (a m : Q) : 0 < m -> 0 <= a -> Js.rem a m == floor_mod a m.
Proof.
  intros Hm Ha. unfold Js.rem, floor_mod, Js.trunc.
  assert (Hq : 0 <= a / m).
  { apply Qle_shift_div_l; lra. }
  rewrite <- Qle_bool_iff in Hq. rewrite Hq. reflexivity.
Qed.

(** For a negative dividend it lies in (-m, 0]. *)
Lemma rem_neg (a m : Q) :
  0 < m -> a < 0 ->
  (Js.rem a m == 0 /\ floor_mod a m == 0) \/
  (- m < Js.rem a m /\ Js.rem a m < 0 /\ floor_mod a m == Js.rem a m + m).
Proof.
  intros Hm Ha.
  assert (Hq : a / m < 0).
  { apply Qlt_shift_div_r; lra. }
  assert (Ht : Js.trunc (a / m) = Qceiling (a / m)).
  { unfold Js.trunc. destruct (Qle_bool 0 (a / m)) eqn:E; auto.
    apply Qle_bool_iff in E. lra. }
  assert (Hr : Js.rem a m == a - m * inject_Z (Qceiling (a / m))).
  { unfold Js.rem. rewrite Ht. reflexivity. }
  pose proof (Qle_ceiling (a / m)) as Hc0.
  pose proof (Qceiling_lt (a / m)) as Hc1.
  unfold Zminus in Hc1. rewrite inject_Z_plus in Hc1.
  change (inject_Z (- (1))) with (- (1)) in Hc1.
  assert (Hd : m * (a / m) == a) by (apply div_mul_cancel; lra).
  set (q := a / m) in *. set (c := inject_Z (Qceiling q)) in *.
  assert (Hlo : - m < Js.rem a m) by (rewrite Hr; nra).
  assert (Hhi : Js.rem a m <= 0) by (rewrite Hr; nra).
  destruct (Qlt_le_dec (Js.rem a m) 0) as [Hlt | Hge].
  - right. repeat split; auto.
    symmetry. apply (floor_mod_unique a _ m (1 - Qceiling q)); try lra.
    rewrite Hr. unfold Zminus. rewrite inject_Z_plus, inject_Z_opp.
    fold c. change (inject_Z 1) with 1. ring.
  - left. assert (H0 : Js.rem a m == 0) by lra. split; auto.
    symmetry. apply (floor_mod_unique a 0 m (- Qceiling q)); try lra.
    rewrite inject_Z_opp. fold c. rewrite Hr in H0. lra.
Qed.

Lemma normalizeOffset_floor_mod (a m : Q) :
  0 < m -> normalizeOffset a m == floor_mod a m.
Proof.
  intros Hm. unfold normalizeOffset.
  assert (Hb : - m < Js.rem a m /\ Js.rem a m < m).
  { destruct (Qlt_le_dec a 0) as [Ha | Ha].
    - destruct (rem_neg a m Hm Ha) as [[H0 _] | (H1 & H2 & _)]; lra.
    - rewrite (rem_nonneg a m Hm Ha).
      pose proof (floor_mod_bounds a m Hm). lra. }
  rewrite rem_nonneg by lra.
  destruct (floor_mod_bounds (Js.rem a m + m) m Hm) as [H0 H1].
  apply (floor_mod_unique a _ m
           (1 - Js.trunc (a / m) - Qfloor ((Js.rem a m + m) / m))); auto.
  unfold floor_mod at 1. unfold Js.rem at 1.
  unfold Zminus. rewrite !inject_Z_plus, !inject_Z_opp.
  change (inject_Z 1) with 1. ring.
Qed.

Lemma floor_sub_Z (x : Q) (k : Z) : Qfloor (x - inject_Z k) = (Qfloor x - k)%Z.
Proof.
  apply floor_unique.
  - unfold Zminus. rewrite inject_Z_plus, inject_Z_opp.
    pose proof (Qfloor_le x). lra.
  - replace (Qfloor x - k + 1)%Z with ((Qfloor x + 1) + - k)%Z by lia.
    rewrite inject_Z_plus, inject_Z_opp.
    pose proof (Qlt_floor x). lra.
Qed.

Lemma floor_range (x : Q) (len : Z) :
  0 <= x -> x < inject_Z len -> (0 <= Qfloor x < len)%Z.
Proof.
  intros H0 H1. split.
  - change 0%Z with (Qfloor 0). apply Qfloor_resp_le. exact H0.
  - rewrite Zlt_Qlt. eapply Qle_lt_trans; [apply Qfloor_le | exact H1].
Qed.

Lemma inject_Z_pos (len : Z) : (0 < len)%Z -> 0 < inject_Z len.
Proof. intros H. change 0 with (inject_Z 0). rewrite <- Zlt_Qlt. exact H. Qed.

Lemma seg_div (x m : Q) (len : Z) :
  0 < m -> (0 < len)%Z -> x / (m / inject_Z len) == x * inject_Z len / m.
Proof.
  intros Hm Hl. pose proof (inject_Z_pos len Hl). field. split; lra.
Qed.

Lemma seg_range (x m : Q) (len : Z) :
  0 < m -> (0 < len)%Z -> 0 <= x -> x < m ->
  0 <= x / (m / inject_Z len) /\ x / (m / inject_Z len) < inject_Z len.
Proof.
  intros Hm Hl H0 H1. pose proof (inject_Z_pos len Hl) as Hp.
  rewrite seg_div by assumption. split.
  - apply Qle_shift_div_l; [assumption | nra].
  - apply Qlt_shift_div_r; [assumption | nra].
Qed.

Lemma segment_of_range (m : Q) (len : Z) (pos : Q) :
  0 < m -> (0 < len)%Z -> (0 <= segment_of m len pos < len)%Z.
Proof.
  intros Hm Hl. unfold segment_of.
  destruct (floor_mod_bounds pos m Hm) as [H0 H1].
  apply floor_range; apply seg_range; assumption.
Qed.

Lemma rem_index_added (m : Q) (len : Z) (pos : Q) :
  0 < m -> (0 < len)%Z ->
  Z.rem (Qfloor (Js.rem pos m / (m / inject_Z len)) + len) len
  = segment_of m len pos.
Proof.
  intros Hm Hl.
  pose proof (segment_of_range m len pos Hm Hl) as Hr.
  pose proof (inject_Z_pos len Hl) as Hp.
  destruct (Qlt_le_dec pos 0) as [Hneg | Hpos].
  - destruct (rem_neg pos m Hm Hneg) as [[Hz Hf] | (Hlo & Hhi & Hf)].
    + assert (E : Qfloor (Js.rem pos m / (m / inject_Z len)) = 0%Z).
      { rewrite (Qfloor_comp _ 0); [reflexivity |].
        rewrite Hz. field. split; lra. }
      rewrite E.
      assert (F : segment_of m len pos = 0%Z).
      { unfold segment_of. rewrite (Qfloor_comp _ 0); [reflexivity |].
        rewrite Hf. field. split; lra. }
      rewrite F. simpl. apply Z.rem_same. lia.
    + assert (E : Qfloor (Js.rem pos m / (m / inject_Z len))
                  = (segment_of m len pos - len)%Z).
      { unfold segment_of. rewrite <- floor_sub_Z. apply Qfloor_comp.
        rewrite Hf. field. split; lra. }
      rewrite E. replace (segment_of m len pos - len + len)%Z
        with (segment_of m len pos) by lia.
      apply Z.rem_small. lia.
  - assert (E : Qfloor (Js.rem pos m / (m / inject_Z len)) = segment_of m len pos).
    { unfold segment_of. apply Qfloor_comp.
      rewrite (rem_nonneg pos m Hm Hpos). reflexivity. }
    rewrite E. rewrite Z.rem_mod_nonneg by lia.
    replace (segment_of m len pos + len)%Z
      with (segment_of m len pos + 1 * len)%Z by lia.
    rewrite Z.mod_add by lia. apply Z.mod_small. lia.
Qed.

Lemma wheelHeight_pos (ch : Q) : 0 < ch -> 0 < wheelHeight ch.
Proof. unfold wheelHeight. intros. lra. Qed.

Lemma length_pos (items : list string) :
  items <> [] -> (0 < Z.of_nat (List.length items))%Z.
Proof. destruct items; simpl; [congruence | lia]. Qed.

Lemma getIndexAtCentre_segment (ch : Q) (rev : variant) (items : list string) (offset : Q) :
  0 < ch -> items <> [] ->
  getIndexAtCentre ch rev items offset
  = Num (segment_of (wheelHeight ch) (Z.of_nat (List.length items))
                    (centre_pos ch rev offset)).
Proof.
  intros Hch Hne.
  pose proof (wheelHeight_pos ch Hch) as Hm.
  pose proof (length_pos items Hne) as Hl.
  unfold getIndexAtCentre. fold (wheelHeight ch).
  destruct (Qeq_bool (wheelHeight ch) 0) eqn:E0.
  { apply Qeq_bool_eq in E0. lra. }
  destruct (Z.eqb_spec (Z.of_nat (List.length items)) 0) as [E1 | _]; [lia |].
  cbn [orb]. destruct rev; cbn [centre_pos]; f_equal.
  - rewrite <- rem_index_added by assumption.
    f_equal. f_equal. apply Qfloor_comp.
    assert (Hp : ch / 2 - (ch - wheelHeight ch) / 2 + offset
                 == wheelHeight ch / 2 + offset) by field.
    rewrite Hp. reflexivity.
  - fold (normalizeOffset (ch / 2 - (ch - wheelHeight ch) / 2 - offset) (wheelHeight ch)).
    pose proof (segment_of_range (wheelHeight ch) (Z.of_nat (List.length items))
                  (wheelHeight ch / 2 - offset) Hm Hl) as Hr.
    assert (E : Js.Math_floor
                  (normalizeOffset (ch / 2 - (ch - wheelHeight ch) / 2 - offset)
                     (wheelHeight ch)
                   / (wheelHeight ch / inject_Z (Z.of_nat (List.length items))))
                = segment_of (wheelHeight ch) (Z.of_nat (List.length items))
                    (wheelHeight ch / 2 - offset)).
    { unfold segment_of, Js.Math_floor. apply Qfloor_comp.
      rewrite normalizeOffset_floor_mod by assumption.
      assert (Hp : ch / 2 - (ch - wheelHeight ch) / 2 - offset
                   == wheelHeight ch / 2 - offset) by field.
      rewrite Hp. reflexivity. }
    rewrite E. apply Z.rem_small. lia.
Qed.

Lemma segment_of_comp (m : Q) (len : Z) (p p' : Q) :
  p == p' -> segment_of m len p = segment_of m len p'.
Proof.
  intros H. unfold segment_of. apply Qfloor_comp. rewrite H. reflexivity.
Qed.

Lemma floor_mod_period (a m : Q) (k : Z) :
  0 < m -> floor_mod (a + inject_Z k * m) m == floor_mod a m.
Proof.
  intros Hm.
  destruct (floor_mod_bounds (a + inject_Z k * m) m Hm) as [H0 H1].
  apply (floor_mod_unique a _ m (k - Qfloor ((a + inject_Z k * m) / m))); auto.
  unfold floor_mod. unfold Zminus. rewrite inject_Z_plus, inject_Z_opp. ring.
Qed.

Lemma floor_mod_small (a m : Q) : 0 <= a -> a < m -> floor_mod a m == a.
Proof.
  intros H0 H1. symmetry. apply (floor_mod_unique a a m 0); auto.
  change (inject_Z 0) with 0. ring.
Qed.

Lemma segment_of_period (m : Q) (len : Z) (p : Q) (k : Z) :
  0 < m -> segment_of m len (p + inject_Z k * m) = segment_of m len p.
Proof.
  intros Hm. unfold segment_of. apply Qfloor_comp.
  rewrite floor_mod_period by assumption. reflexivity.
Qed.

Lemma getIndexAtCentre_comp ch rev items (o o' : Q) :
  0 < ch -> items <> [] -> o == o' ->
  getIndexAtCentre ch rev items o = getIndexAtCentre ch rev items o'.
Proof.
  intros Hch Hne Ho. rewrite !getIndexAtCentre_segment by assumption.
  f_equal. apply segment_of_comp. destruct rev; cbn [centre_pos]; rewrite Ho; reflexivity.
Qed.

Lemma getIndexAtCentre_period ch rev items (offset : Q) (k : Z) :
  0 < ch -> items <> [] ->
  getIndexAtCentre ch rev items (offset + inject_Z k * wheelHeight ch)
  = getIndexAtCentre ch rev items offset.
Proof.
  intros Hch Hne. rewrite !getIndexAtCentre_segment by assumption.
  f_equal. pose proof (wheelHeight_pos ch Hch) as Hm.
  destruct rev; cbn [centre_pos].
  - rewrite <- (segment_of_period _ _ (wheelHeight ch / 2 + offset) k Hm).
    apply segment_of_comp. ring.
  - rewrite <- (segment_of_period _ _ (wheelHeight ch / 2 - offset) (- k) Hm).
    apply segment_of_comp. rewrite inject_Z_opp. ring.
Qed.

Lemma segment_of_middle (m : Q) (len w : Z) :
  0 < m -> (0 <= w < len)%Z ->
  segment_of m len (inject_Z w * (m / inject_Z len) + m / inject_Z len / 2) = w.
Proof.
  intros Hm Hw.
  assert (Hl : (0 < len)%Z) by lia.
  pose proof (inject_Z_pos len Hl) as Hp.
  assert (Hw0 : 0 <= inject_Z w).
  { change 0 with (inject_Z 0). rewrite <- Zle_Qle. lia. }
  assert (Hw1 : inject_Z w + 1 <= inject_Z len).
  { change 1 with (inject_Z 1). rewrite <- inject_Z_plus, <- Zle_Qle. lia. }
  set (p := inject_Z w * (m / inject_Z len) + m / inject_Z len / 2).
  assert (Hpe : p == (inject_Z w + (1 # 2)) * m / inject_Z len).
  { unfold p. field. lra. }
  assert (Hp0 : 0 <= p).
  { rewrite Hpe. apply Qle_shift_div_l; [assumption | nra]. }
  assert (Hp1 : p < m).
  { rewrite Hpe. apply Qlt_shift_div_r; [assumption | nra]. }
  unfold segment_of. apply floor_unique.
  - rewrite (floor_mod_small p m Hp0 Hp1).
    assert (E : p / (m / inject_Z len) == inject_Z w + (1 # 2)).
    { unfold p. field. split; lra. }
    rewrite E. lra.
  - rewrite (floor_mod_small p m Hp0 Hp1).
    assert (E : p / (m / inject_Z len) == inject_Z w + (1 # 2)).
    { unfold p. field. split; lra. }
    rewrite E. rewrite inject_Z_plus. change (inject_Z 1) with 1. lra.
Qed.

Lemma centre_pos_finalOffset ch rev (len w : Z) :
  (0 < len)%Z -> 0 < ch ->
  centre_pos ch rev (finalOffset ch rev len w)
  == inject_Z w * (wheelHeight ch / inject_Z len) + wheelHeight ch / inject_Z len / 2.
Proof.
  intros Hl Hch. pose proof (inject_Z_pos len Hl) as Hp.
  unfold finalOffset. fold (wheelHeight ch).
  destruct rev; cbn [centre_pos]; field; lra.
Qed.

Lemma getIndexAtCentre_finalOffset ch rev items (w : Z) :
  0 < ch -> (0 <= w < Z.of_nat (List.length items))%Z ->
  getIndexAtCentre ch rev items (finalOffset ch rev (Z.of_nat (List.length items)) w) = Num w.
Proof.
  intros Hch Hw.
  assert (Hne : items <> []) by (destruct items; simpl in *; [lia | congruence]).
  assert (Hl : (0 < Z.of_nat (List.length items))%Z) by lia.
  rewrite getIndexAtCentre_segment by assumption. f_equal.
  rewrite (segment_of_comp _ _ _ _ (centre_pos_finalOffset ch rev _ w Hl Hch)).
  apply segment_of_middle; [apply wheelHeight_pos; assumption | assumption].
Qed.

Lemma normalizeOffset_range (a m : Q) :
  0 < m -> 0 <= normalizeOffset a m /\ normalizeOffset a m < m.
Proof.
  intros Hm. rewrite normalizeOffset_floor_mod by assumption.
  apply floor_mod_bounds; assumption.
Qed.

Lemma getIndexAtCentre_normalizeOffset ch rev items (offset : Q) :
  0 < ch -> items <> [] ->
  getIndexAtCentre ch rev items (normalizeOffset offset (wheelHeight ch))
  = getIndexAtCentre ch rev items offset.
Proof.
  intros Hch Hne. pose proof (wheelHeight_pos ch Hch) as Hm.
  rewrite <- (getIndexAtCentre_period ch rev items offset
                (- Qfloor (offset / wheelHeight ch)) Hch Hne).
  apply getIndexAtCentre_comp; auto.
  rewrite normalizeOffset_floor_mod by assumption.
  unfold floor_mod. rewrite inject_Z_opp. ring.
Qed.

Lemma random_index_range (r : Q) (len : Z) :
  0 <= r -> r < 1 -> (0 < len)%Z ->
  (0 <= Js.Math_floor (r * inject_Z len) < len)%Z.
Proof.
  intros H0 H1 Hl. pose proof (inject_Z_pos len Hl) as Hp.
  apply floor_range; nra.
Qed.

(** ** The animation loop *)

Lemma strict_neq_false (a b : jsindex) : strict_neq a b = false -> a = b.
Proof.
  destruct a, b; simpl; try discriminate; auto.
  intros H. apply negb_false_iff, Z.eqb_eq in H. congruence.
Qed.

Lemma run_app ch rev (xs ys : list action) (s : state) :
  run ch rev (xs ++ ys) s = run ch rev ys (run ch rev xs s).
Proof. unfold run. apply fold_left_app. Qed.

Lemma unfinished_spec (t0 now : Q) :
  unfinished t0 now = true <-> now - t0 < duration.
Proof.
  unfold unfinished, Js.ltb, Js.Math_min, duration.
  destruct (Qle_bool ((now - t0) / 4000) 1) eqn:E.
  - apply Qle_bool_iff in E. rewrite negb_true_iff.
    split; intros H.
    + destruct (Qlt_le_dec (now - t0) 4000) as [Hlt | Hge]; auto.
      assert (Hq : 1 <= (now - t0) / 4000) by (apply Qle_shift_div_l; lra).
      apply Qle_bool_iff in Hq. congruence.
    + destruct (Qle_bool 1 ((now - t0) / 4000)) eqn:F; auto.
      apply Qle_bool_iff in F.
      assert (Hd : 4000 * ((now - t0) / 4000) == now - t0) by (field; lra).
      lra.
  - split; intros H.
    + simpl in H. discriminate.
    + assert (Hq : (now - t0) / 4000 <= 1) by (apply Qle_shift_div_r; lra).
      apply Qle_bool_iff in Hq. congruence.
Qed.

(** [completes] in terms of the time elapsed since the start of the spin. *)
Lemma completes_spec (t0 : Q) (pre : list Q) (tl : Q) :
  completes t0 pre tl
  <-> Forall (fun t => t - t0 < duration) pre /\ duration <= tl - t0.
Proof.
  unfold completes. rewrite forallb_forall, Forall_forall. split.
  - intros [Hpre Hl]. split.
    + intros t Ht. apply unfinished_spec, Hpre, Ht.
    + destruct (Qlt_le_dec (tl - t0) duration) as [Hlt | Hge]; auto.
      apply unfinished_spec in Hlt. congruence.
  - intros [Hpre Hl]. split.
    + intros t Ht. apply unfinished_spec, Hpre, Ht.
    + destruct (unfinished t0 tl) eqn:E; auto.
      apply unfinished_spec in E. lra.
Qed.

Section Loop.

Variable ch : Q.
Variable rev : variant.


Lemma take_callbacks_idle (s : state) :
  frameCallbacks s = [] -> take_callbacks s = s.
Proof. destruct s; simpl; intros ->; reflexivity. Qed.

Lemma frame_idle (now : Q) (s : state) :
  frameCallbacks s = [] -> frame ch rev now s = s.
Proof.
  intros H. unfold frame. rewrite H. simpl.
  apply take_callbacks_idle, H.
Qed.

Lemma frames_idle (ts : list Q) (s : state) :
  frameCallbacks s = [] -> run ch rev (map Frame ts) s = s.
Proof.
  induction ts as [| t ts IH]; intros H; simpl; auto.
  rewrite frame_idle by assumption. auto.
Qed.

Lemma frame_single (a : anim) (now : Q) (s : state) :
  frameCallbacks s = [a] -> frame ch rev now s = animate ch rev a now (take_callbacks s).
Proof. intros H. unfold frame. rewrite H. reflexivity. Qed.

Lemma advance_lastTickIndex (a : anim) (now : Q) (s : state) :
  isSpinning s = true ->
  lastTickIndex (advance ch rev a now s) = frameIndex ch rev a (currentItems s) now.
Proof.
  intros Hs. unfold advance. cbn [lastTickIndex]. rewrite Hs.
  rewrite andb_true_r. fold (frameIndex ch rev a (currentItems s) now).
  destruct (strict_neq _ _) eqn:E; auto.
  symmetry. apply strict_neq_false, E.
Qed.

Lemma advance_ticks (a : anim) (now : Q) (s : state) :
  isSpinning s = true ->
  ticks (trace (advance ch rev a now s))
  = (ticks (trace s)
     + if strict_neq (frameIndex ch rev a (currentItems s) now) (lastTickIndex s)
       then 1 else 0)%nat.
Proof.
  intros Hs. unfold advance. cbn [trace]. rewrite Hs.
  rewrite andb_true_r. fold (frameIndex ch rev a (currentItems s) now).
  destruct (strict_neq _ _); unfold ticks; simpl; lia.
Qed.

Lemma advance_results (a : anim) (now : Q) (s : state) :
  results (trace (advance ch rev a now s)) = results (trace s).
Proof.
  unfold advance. cbn [trace].
  destruct (_ && _); reflexivity.
Qed.

(** A frame on which the spin goes on. *)
Lemma frame_unfinished (a : anim) (items : list string) (now : Q) (s : state) :
  in_flight a items s -> unfinished (an_startTime a) now = true ->
  let s' := frame ch rev now s in
  in_flight a items s'
  /\ lastTickIndex s' = frameIndex ch rev a items now
  /\ ticks (trace s')
     = (ticks (trace s)
        + if strict_neq (frameIndex ch rev a items now) (lastTickIndex s)
          then 1 else 0)%nat
  /\ results (trace s') = results (trace s)
  /\ selectedIndex s' = selectedIndex s
  /\ originalItems s' = originalItems s.
Proof.
  intros (Hi & Hs & Hc) Hu. cbn zeta.
  rewrite (frame_single a now s Hc). unfold animate. rewrite Hu.
  cbn [currentItems isSpinning frameCallbacks lastTickIndex trace
       selectedIndex originalItems].
  assert (Hs' : isSpinning (take_callbacks s) = true) by exact Hs.
  rewrite (advance_lastTickIndex a now _ Hs').
  rewrite (advance_ticks a now _ Hs'), advance_results.
  subst items. repeat split; auto.
Qed.

(** The frame on which [progress] reaches 1. *)
Lemma frame_finished (a : anim) (items : list string) (now : Q) (s : state) :
  in_flight a items s -> unfinished (an_startTime a) now = false ->
  let s' := frame ch rev now s in
  let idx :=
    getIndexAtCentre ch rev items (normalizeOffset (an_finalOffset a) (an_wheelHeight a)) in
  currentItems s' = splice1 items idx
  /\ currentOffset s' = 0
  /\ isSpinning s' = false
  /\ selectedIndex s' = idx
  /\ originalItems s' = originalItems s
  /\ lastTickIndex s' = Num (-1)
  /\ frameCallbacks s' = []
  /\ ticks (trace s')
     = (ticks (trace s)
        + if strict_neq (frameIndex ch rev a items now) (lastTickIndex s)
          then 1 else 0)%nat
  /\ results (trace s') = array_get items idx :: results (trace s).
Proof.
  intros (Hi & Hs & Hc) Hu. cbn zeta.
  rewrite (frame_single a now s Hc). unfold animate. rewrite Hu.
  assert (Hs' : isSpinning (take_callbacks s) = true) by exact Hs.
  unfold settle.
  cbn [currentItems currentOffset isSpinning frameCallbacks lastTickIndex
       trace selectedIndex originalItems results].
  change (ticks (Settled ?l :: ?t)) with (ticks t).
  rewrite (advance_ticks a now _ Hs'), advance_results.
  change (currentItems (advance ch rev a now (take_callbacks s))) with (currentItems s).
  subst items. repeat split; auto.
Qed.


Lemma last_cons_default {A : Type} (l : list A) (x d : A) :
  last (x :: l) d = last l x.
Proof.
  revert x d. induction l as [| y l IH]; intros x d; [reflexivity |].
  change (last (x :: y :: l) d) with (last (y :: l) d).
  rewrite (IH y d), (IH y x). reflexivity.
Qed.

Lemma changes_cons (a b : jsindex) (l : list jsindex) :
  changes (a :: b :: l)
  = ((if strict_neq b a then 1 else 0) + changes (b :: l))%nat.
Proof. reflexivity. Qed.

Lemma changes_last (l : list jsindex) (d y : jsindex) :
  changes (d :: l ++ [y])
  = (changes (d :: l) + if strict_neq y (last l d) then 1 else 0)%nat.
Proof.
  revert d. induction l as [| x l IH]; intros d.
  - simpl. lia.
  - change (d :: (x :: l) ++ [y]) with (d :: x :: (l ++ [y])).
    rewrite !changes_cons, IH, last_cons_default. lia.
Qed.

(** Frames on which the spin goes on: the ticks count the changes of the
    index, the recorded index included. *)
Lemma frames_unfinished (a : anim) (items : list string) (pre : list Q) :
  forallb (unfinished (an_startTime a)) pre = true ->
  forall s, in_flight a items s ->
  let s' := run ch rev (map Frame pre) s in
  in_flight a items s'
  /\ lastTickIndex s'
     = last (map (frameIndex ch rev a items) pre) (lastTickIndex s)
  /\ ticks (trace s')
     = (ticks (trace s)
        + changes (lastTickIndex s :: map (frameIndex ch rev a items) pre))%nat
  /\ results (trace s') = results (trace s)
  /\ selectedIndex s' = selectedIndex s
  /\ originalItems s' = originalItems s.
Proof.
  induction pre as [| t pre IH]; intros Hu s Hin; cbn zeta.
  - simpl. repeat split; auto. apply Hin. apply Hin. apply Hin.
  - simpl in Hu. apply andb_true_iff in Hu as [Ht Hpre].
    destruct (frame_unfinished a items t s Hin Ht)
      as (Hin1 & Hl1 & Ht1 & Hr1 & Hs1 & Ho1).
    destruct (IH Hpre _ Hin1) as (Hin2 & Hl2 & Ht2 & Hr2 & Hs2 & Ho2).
    change (run ch rev (map Frame (t :: pre)) s)
      with (run ch rev (map Frame pre) (frame ch rev t s)).
    repeat split; try apply Hin2.
    + rewrite Hl2, Hl1. cbn [map]. rewrite last_cons_default. reflexivity.
    + rewrite Ht2, Ht1, Hl1. cbn [map]. rewrite changes_cons. lia.
    + congruence.
    + congruence.
    + congruence.
Qed.

(** [spinWheel] from an idle page with a non-empty list. *)
Lemma spinWheel_starts (r t0 : Q) (s : state) :
  idle s -> currentItems s <> [] ->
  let s' := spinWheel ch rev r t0 s in
  in_flight (plan ch rev r t0 s) (currentItems s) s'
  /\ lastTickIndex s' = lastTickIndex s
  /\ trace s' = trace s
  /\ originalItems s' = originalItems s
  /\ selectedIndex s'
     = Num (Js.Math_floor (r * inject_Z (Z.of_nat (List.length (currentItems s))))).
Proof.
  intros (Hs & Hc) Hne. cbn zeta. unfold spinWheel, in_flight. rewrite Hs.
  destruct (currentItems s) as [| x l] eqn:E; [congruence |].
  cbn [List.length Nat.eqb orb currentItems isSpinning frameCallbacks
       lastTickIndex trace originalItems selectedIndex].
  rewrite Hc. repeat split; reflexivity.
Qed.

Lemma spinWheel_guard (r now : Q) (s : state) :
  isSpinning s = true \/ currentItems s = [] -> spinWheel ch rev r now s = s.
Proof.
  intros [H | H]; unfold spinWheel; rewrite H; simpl; auto.
  rewrite orb_true_r. reflexivity.
Qed.

(** The index recomputed on the last frame of a planned spin is the
    winning index. *)
Lemma planned_index (r t0 : Q) (s : state) :
  0 < ch -> currentItems s <> [] -> 0 <= r -> r < 1 ->
  let a := plan ch rev r t0 s in
  let w := Js.Math_floor (r * inject_Z (Z.of_nat (List.length (currentItems s)))) in
  (0 <= w < Z.of_nat (List.length (currentItems s)))%Z
  /\ getIndexAtCentre ch rev (currentItems s)
       (normalizeOffset (an_finalOffset a) (an_wheelHeight a)) = Num w.
Proof.
  intros Hch Hne H0 H1. cbn zeta.
  pose proof (random_index_range r _ H0 H1 (length_pos _ Hne)) as Hw.
  split; [exact Hw |].
  unfold plan. cbn [an_finalOffset an_wheelHeight].
  fold (wheelHeight ch).
  rewrite getIndexAtCentre_normalizeOffset by assumption.
  apply getIndexAtCentre_finalOffset; assumption.
Qed.

Lemma array_get_Num {A : Type} (l : list A) (w : Z) :
  (0 <= w)%Z -> array_get l (Num w) = nth_error l (Z.to_nat w).
Proof.
  intros H. unfold array_get. destruct (Z.ltb_spec w 0); [lia | reflexivity].
Qed.

Lemma splice1_Num {A : Type} (l : list A) (w : Z) :
  (0 <= w < Z.of_nat (List.length l))%Z ->
  splice1 l (Num w)
  = (firstn (Z.to_nat w) l ++ skipn (S (Z.to_nat w)) l)%list.
Proof.
  intros H. unfold splice1. destruct (Z.ltb_spec w 0); [lia |].
  rewrite Z.min_l by lia. reflexivity.
Qed.


(** A spin started on an idle page, after the frames [pre] on which it
    goes on. *)
Lemma spin_under_way (r t0 : Q) (pre : list Q) (s : state) :
  idle s -> currentItems s <> [] ->
  forallb (unfinished t0) pre = true ->
  let a := plan ch rev r t0 s in
  let items := currentItems s in
  let s' := run ch rev (Spin r t0 :: map Frame pre) s in
  in_flight a items s'
  /\ lastTickIndex s'
     = last (map (frameIndex ch rev a items) pre) (lastTickIndex s)
  /\ ticks (trace s')
     = (ticks (trace s)
        + changes (lastTickIndex s :: map (frameIndex ch rev a items) pre))%nat
  /\ results (trace s') = results (trace s)
  /\ originalItems s' = originalItems s.
Proof.
  intros Hidle Hne Hpre. cbn zeta.
  destruct (spinWheel_starts r t0 s Hidle Hne) as (Hin & Hl & Ht & Ho & Hsel).
  change (run ch rev (Spin r t0 :: map Frame pre) s)
    with (run ch rev (map Frame pre) (spinWheel ch rev r t0 s)).
  destruct (frames_unfinished (plan ch rev r t0 s) (currentItems s) pre Hpre _ Hin)
    as (Hin' & Hl' & Ht' & Hr' & Hs' & Ho').
  rewrite Hl, Ht in *. repeat split; try apply Hin'; congruence.
Qed.

(** A spin started on an idle page and carried to its end. *)
Lemma complete_spin_outcome (r t0 : Q) (pre : list Q) (tl : Q) (s : state) :
  idle s -> currentItems s <> [] -> completes t0 pre tl ->
  let a := plan ch rev r t0 s in
  let items := currentItems s in
  let idx :=
    getIndexAtCentre ch rev items
      (normalizeOffset (an_finalOffset a) (an_wheelHeight a)) in
  let s' := run ch rev (Spin r t0 :: map Frame (pre ++ [tl])) s in
  currentItems s' = splice1 items idx
  /\ currentOffset s' = 0
  /\ isSpinning s' = false
  /\ selectedIndex s' = idx
  /\ originalItems s' = originalItems s
  /\ lastTickIndex s' = Num (-1)
  /\ frameCallbacks s' = []
  /\ ticks (trace s')
     = (ticks (trace s)
        + changes (lastTickIndex s
                     :: map (frameIndex ch rev a items) (pre ++ [tl])))%nat
  /\ results (trace s') = array_get items idx :: results (trace s).
Proof.
  intros Hidle Hne (Hpre & Hlast). cbn zeta.
  destruct (spin_under_way r t0 pre s Hidle Hne Hpre)
    as (Hin & Hl & Ht & Hr & Ho).
  rewrite map_app.
  change (Spin r t0 :: (map Frame pre ++ map Frame [tl]))%list
    with ((Spin r t0 :: map Frame pre) ++ map Frame [tl])%list.
  rewrite run_app.
  change (run ch rev (map Frame [tl]) ?x) with (frame ch rev tl x).
  destruct (frame_finished (plan ch rev r t0 s) (currentItems s) tl _ Hin Hlast)
    as (H1 & H2 & H3 & H4 & H5 & H6 & H7 & H8 & H9).
  repeat split; try assumption; try congruence.
  rewrite H8, Ht, Hl, (map_app _ pre [tl]). cbn [map].
  rewrite changes_last. lia.
Qed.

End Loop.

(** ** shuffleArray rearranges the array *)

Lemma array_set_move (array : list string) (j : nat) (x y : string) :
  nth_error array j = Some y ->
  Permutation (y :: array_set array j x) (x :: array).
Proof.
  revert j. induction array as [| h t IH]; intros [| j] Hj; simpl in *;
    try discriminate.
  - injection Hj as ->. apply perm_swap.
  - rewrite perm_swap. rewrite (IH j Hj). apply perm_swap.
Qed.

Lemma array_set_exchange (array : list string) (i j : nat) (ai aj : string) :
  nth_error array i = Some ai -> nth_error array j = Some aj ->
  Permutation (array_set (array_set array i aj) j ai) array.
Proof.
  revert i j. induction array as [| h t IH]; intros [| i] [| j] Hi Hj;
    simpl in *; try discriminate.
  - injection Hi as ->. reflexivity.
  - injection Hi as ->. apply array_set_move, Hj.
  - injection Hj as ->. apply array_set_move, Hi.
  - constructor. apply IH; assumption.
Qed.

Lemma swap_Permutation (array : list string) (i : nat) (j : Z) :
  Permutation (swap array i j) array.
Proof.
  unfold swap. destruct (nth_error array i) as [ai |] eqn:Hi; [| reflexivity].
  unfold array_get. destruct (Z.ltb_spec j 0); [reflexivity |].
  destruct (nth_error array (Z.to_nat j)) as [aj |] eqn:Hj; [| reflexivity].
  apply array_set_exchange; assumption.
Qed.

Lemma shuffle_from_Permutation (random : nat -> Q) (i calls : nat)
      (array : list string) :
  Permutation (shuffle_from random calls i array) array.
Proof.
  revert calls array. induction i as [| i IH]; intros calls array; simpl.
  - reflexivity.
  - rewrite IH. apply swap_Permutation.
Qed.

(** The shuffled list holds the entries of the input, each as often. *)
Lemma shuffleArray_Permutation (random : nat -> Q) (array : list string) :
  Permutation (shuffleArray random array) array.
Proof. apply shuffle_from_Permutation. Qed.

Lemma array_set_length (array : list string) (i : nat) (x : string) :
  List.length (array_set array i x) = List.length array.
Proof.
  revert i. induction array as [| h t IH]; intros [| i]; simpl; auto.
Qed.

Lemma swap_length (array : list string) (i : nat) (j : Z) :
  List.length (swap array i j) = List.length array.
Proof.
  unfold swap. destruct (nth_error array i); auto.
  destruct (array_get array (Num j)); auto.
  rewrite !array_set_length. reflexivity.
Qed.

Lemma shuffle_from_length (random : nat -> Q) (i calls : nat) (array : list string) :
  List.length (shuffle_from random calls i array) = List.length array.
Proof.
  revert calls array. induction i as [| i IH]; intros calls array; simpl; auto.
  rewrite IH. apply swap_length.
Qed.

Lemma shuffleArray_length (random : nat -> Q) (array : list string) :
  List.length (shuffleArray random array) = List.length array.
Proof. apply shuffle_from_length. Qed.

(** ** Geometry: the claims *)

Lemma getIndexAtCentre_range (ch : Q) (rev : variant) (items : list string) (offset : Q) :
  0 < ch -> items <> [] ->
  exists i : Z,
    getIndexAtCentre ch rev items offset = Num i
    /\ (0 <= i < Z.of_nat (List.length items))%Z.
Proof.
  intros Hch Hne. eexists. split.
  - apply getIndexAtCentre_segment; assumption.
  - apply segment_of_range; [apply wheelHeight_pos, Hch | apply length_pos, Hne].
Qed.

(** C2: Wrap correctness: for every non-empty list of items and every
    offset, negative ones and ones beyond several wheel heights included,
    [getIndexAtCentre] returns a number in [0, items.length), in both
    revisions of the function. *)
Theorem wrap_correctness (ch : Q) (rev : variant) (items : list string) (offset : Q) :
  0 < ch -> items <> [] ->
  exists i : Z,
    getIndexAtCentre ch rev items offset = Num i
    /\ (0 <= i < Z.of_nat (List.length items))%Z.
Proof.
  intros Hch Hne.
  exists (segment_of (wheelHeight ch) (Z.of_nat (List.length items))
                     (centre_pos ch rev offset)).
  split.
  - apply getIndexAtCentre_segment; assumption.
  - apply segment_of_range.
    + apply wheelHeight_pos, Hch.
    + apply length_pos, Hne.
Qed.

Lemma wrap_correctness_witness :
  exists i : Z,
    getIndexAtCentre 500 OffsetAdded ["A"; "B"; "C"]%string (-(1700)) = Num i
    /\ (0 <= i < 3)%Z.
Proof.
  apply (wrap_correctness 500 OffsetAdded ["A"; "B"; "C"]%string (-(1700))).
  - reflexivity.
  - discriminate.
Defined.

(** C1: Determinism of settle: on a wheel of at least one item, for every
    winning index in [0, items.length), [getIndexAtCentre] at the final
    offset planned by [spinWheel] for that index returns the index, in both
    sign conventions. *)
Theorem settle_determinism (ch : Q) (rev : variant) (items : list string)
        (winningIndex : Z) :
  0 < ch ->
  (0 <= winningIndex < Z.of_nat (List.length items))%Z ->
  getIndexAtCentre ch rev items
    (finalOffset ch rev (Z.of_nat (List.length items)) winningIndex)
  = Num winningIndex.
Proof.
  intros Hch Hw.
  assert (Hl : (0 < Z.of_nat (List.length items))%Z) by lia.
  assert (Hne : items <> []).
  { intros ->. simpl in Hl. lia. }
  rewrite getIndexAtCentre_segment by assumption. f_equal.
  rewrite (segment_of_comp _ _ _ _
             (centre_pos_finalOffset ch rev _ winningIndex Hl Hch)).
  apply segment_of_middle; [apply wheelHeight_pos, Hch | exact Hw].
Qed.

Lemma settle_determinism_witness :
  getIndexAtCentre 500 OffsetSubtracted ["A"; "B"; "C"]%string
    (finalOffset 500 OffsetSubtracted 3 2) = Num 2.
Proof.
  apply (settle_determinism 500 OffsetSubtracted ["A"; "B"; "C"]%string 2).
  - reflexivity.
  - simpl. lia.
Defined.

(** The final offset kept by the closure of [spinWheel] is [finalOffset] at
    the index drawn, which lies in the list. *)
Lemma plan_finalOffset (ch : Q) (rev : variant) (r now : Q) (s : state) :
  an_finalOffset (plan ch rev r now s)
  = finalOffset ch rev (Z.of_nat (List.length (currentItems s)))
      (Js.Math_floor (r * inject_Z (Z.of_nat (List.length (currentItems s))))).
Proof. reflexivity. Qed.

(** C10: Periodicity: for every non-empty list, every offset and every
    integer [k], shifting the offset by [k] wheel heights does not change
    [getIndexAtCentre]. *)
Theorem index_periodicity (ch : Q) (rev : variant) (items : list string)
        (offset : Q) (k : Z) :
  0 < ch -> items <> [] ->
  getIndexAtCentre ch rev items (offset + inject_Z k * wheelHeight ch)
  = getIndexAtCentre ch rev items offset.
Proof.
  intros Hch Hne. pose proof (wheelHeight_pos ch Hch) as Hm.
  rewrite !getIndexAtCentre_segment by assumption. f_equal.
  destruct rev; cbn [centre_pos].
  - rewrite <- (segment_of_period _ _ (wheelHeight ch / 2 + offset) k Hm).
    apply segment_of_comp. ring.
  - rewrite <- (segment_of_period _ _ (wheelHeight ch / 2 - offset) (- k) Hm).
    apply segment_of_comp. rewrite inject_Z_opp. ring.
Qed.

Lemma index_periodicity_witness :
  getIndexAtCentre 500 OffsetAdded ["A"; "B"; "C"]%string
    (130 + inject_Z (-(4)) * wheelHeight 500)
  = getIndexAtCentre 500 OffsetAdded ["A"; "B"; "C"]%string 130.
Proof.
  apply (index_periodicity 500 OffsetAdded ["A"; "B"; "C"]%string 130 (-(4))).
  - reflexivity.
  - discriminate.
Defined.

(** C3: Post-settle consistency.  For every index [w] of a non-empty
    list, the planned final offset normalised by
    [((finalOffset % wheelHeight) + wheelHeight) % wheelHeight] lies in
    [0, wheelHeight) and [getIndexAtCentre] there is [w].  On the frame
    where [progress] reaches 1, [animate], run on any state holding the
    list (whatever [selectedIndex] it carries), normalises the final
    offset of its spin into [0, wheelHeight), assigns to [selectedIndex]
    the value of [getIndexAtCentre] at that normalised offset, which is
    the index drawn when the spin was planned, lowers [isSpinning] and
    asks for no further frame.  So a spin started on an idle page and
    carried to its end leaves the [selectedIndex] that [spinWheel] drew,
    stops, and shows the item of that index. *)
Theorem post_settle_consistency (ch : Q) (rev : variant) (s s1 : state)
        (r t0 : Q) (pre : list Q) (tl : Q) (w : Z) :
  0 < ch -> idle s -> currentItems s <> [] ->
  0 <= r -> r < 1 -> completes t0 pre tl ->
  (0 <= w < Z.of_nat (List.length (currentItems s)))%Z ->
  currentItems s1 = currentItems s ->
  let items := currentItems s in
  let len := Z.of_nat (List.length items) in
  let a := plan ch rev r t0 s in
  let drawn := Js.Math_floor (r * inject_Z len) in
  let normalized := normalizeOffset (an_finalOffset a) (an_wheelHeight a) in
  let settled := animate ch rev a tl s1 in
  let final := run ch rev (Spin r t0 :: map Frame (pre ++ [tl])) s in
  (0 <= normalizeOffset (finalOffset ch rev len w) (wheelHeight ch)
   /\ normalizeOffset (finalOffset ch rev len w) (wheelHeight ch) < wheelHeight ch
   /\ getIndexAtCentre ch rev items
        (normalizeOffset (finalOffset ch rev len w) (wheelHeight ch)) = Num w)
  /\ (selectedIndex (spinWheel ch rev r t0 s) = Num drawn
      /\ (0 <= drawn < len)%Z)
  /\ (0 <= normalized /\ normalized < wheelHeight ch
      /\ selectedIndex settled = getIndexAtCentre ch rev items normalized
      /\ getIndexAtCentre ch rev items normalized = Num drawn
      /\ isSpinning settled = false
      /\ frameCallbacks settled = frameCallbacks s1)
  /\ (selectedIndex final = Num drawn
      /\ isSpinning final = false
      /\ frameCallbacks final = []
      /\ results (trace final) = array_get items (Num drawn) :: results (trace s)).
Proof.
  intros Hch Hidle Hne H0 H1 Hc Hw Hs1. cbn zeta.
  pose proof (wheelHeight_pos ch Hch) as Hm.
  destruct (planned_index ch rev r t0 s Hch Hne H0 H1) as [Hdrawn Hidx].
  cbn zeta in Hdrawn, Hidx.
  split; [| split; [| split]].
  - destruct (normalizeOffset_range
                (finalOffset ch rev (Z.of_nat (List.length (currentItems s))) w)
                (wheelHeight ch) Hm) as [Hn0 Hn1].
    split; [exact Hn0 |]. split; [exact Hn1 |].
    rewrite getIndexAtCentre_normalizeOffset by assumption.
    apply getIndexAtCentre_finalOffset; assumption.
  - destruct (spinWheel_starts ch rev r t0 s Hidle Hne) as (_ & _ & _ & _ & Hsel0).
    split; [exact Hsel0 | exact Hdrawn].
  - destruct (normalizeOffset_range
                (an_finalOffset (plan ch rev r t0 s)) (wheelHeight ch) Hm)
      as [Hn0 Hn1].
    change (an_wheelHeight (plan ch rev r t0 s)) with (wheelHeight ch) in *.
    destruct Hc as [_ Hlast].
    assert (Hanim : animate ch rev (plan ch rev r t0 s) tl s1
                    = settle ch rev (plan ch rev r t0 s)
                        (advance ch rev (plan ch rev r t0 s) tl s1)).
    { unfold animate. change (an_startTime (plan ch rev r t0 s)) with t0.
      rewrite Hlast. reflexivity. }
    rewrite Hanim. unfold settle.
    cbn [selectedIndex isSpinning frameCallbacks].
    change (currentItems (advance ch rev (plan ch rev r t0 s) tl s1))
      with (currentItems s1).
    change (frameCallbacks (advance ch rev (plan ch rev r t0 s) tl s1))
      with (frameCallbacks s1).
    change (an_wheelHeight (plan ch rev r t0 s)) with (wheelHeight ch).
    rewrite Hs1.
    split; [exact Hn0 |]. split; [exact Hn1 |].
    split; [reflexivity |]. split; [exact Hidx |]. split; reflexivity.
  - destruct (complete_spin_outcome ch rev r t0 pre tl s Hidle Hne Hc)
      as (_ & _ & Hspin & Hsel & _ & _ & Hcb & _ & Hres).
    cbn zeta in Hsel, Hres. rewrite Hidx in Hsel, Hres.
    split; [exact Hsel |]. split; [exact Hspin |].
    split; [exact Hcb | exact Hres].
Qed.

Lemma post_settle_consistency_witness :
  let s := demo in
  let s1 := spinWheel 500 OffsetAdded 0 0 demo in
  let items := currentItems s in
  let len := Z.of_nat (List.length items) in
  let a := plan 500 OffsetAdded (1 # 2) 0 s in
  let drawn := Js.Math_floor ((1 # 2) * inject_Z len) in
  let normalized := normalizeOffset (an_finalOffset a) (an_wheelHeight a) in
  let settled := animate 500 OffsetAdded a 4000 s1 in
  let final :=
    run 500 OffsetAdded (Spin (1 # 2) 0 :: map Frame ([1000; 2000] ++ [4000])) s in
  (0 <= normalizeOffset (finalOffset 500 OffsetAdded len 2) (wheelHeight 500)
   /\ normalizeOffset (finalOffset 500 OffsetAdded len 2) (wheelHeight 500)
      < wheelHeight 500
   /\ getIndexAtCentre 500 OffsetAdded items
        (normalizeOffset (finalOffset 500 OffsetAdded len 2) (wheelHeight 500))
      = Num 2)
  /\ (selectedIndex (spinWheel 500 OffsetAdded (1 # 2) 0 s) = Num drawn
      /\ (0 <= drawn < len)%Z)
  /\ (0 <= normalized /\ normalized < wheelHeight 500
      /\ selectedIndex settled = getIndexAtCentre 500 OffsetAdded items normalized
      /\ getIndexAtCentre 500 OffsetAdded items normalized = Num drawn
      /\ isSpinning settled = false
      /\ frameCallbacks settled = frameCallbacks s1)
  /\ (selectedIndex final = Num drawn
      /\ isSpinning final = false
      /\ frameCallbacks final = []
      /\ results (trace final) = array_get items (Num drawn) :: results (trace s)).
Proof.
  apply (post_settle_consistency 500 OffsetAdded demo
           (spinWheel 500 OffsetAdded 0 0 demo) (1 # 2) 0 [1000; 2000] 4000 2).
  - reflexivity.
  - split; reflexivity.
  - discriminate.
  - unfold Qle; simpl; lia.
  - reflexivity.
  - split; reflexivity.
  - simpl; lia.
  - reflexivity.
Defined.

(** ** Ticks *)

Lemma frameIndex_Num (ch : Q) (rev : variant) (a : anim) (items : list string) (now : Q) :
  0 < ch -> items <> [] ->
  exists i : Z, frameIndex ch rev a items now = Num i /\ (0 <= i)%Z.
Proof.
  intros Hch Hne. unfold frameIndex.
  destruct (getIndexAtCentre_range ch rev items (frameOffset a now) Hch Hne) as (i & Hi & Hr).
  exists i. split; [exact Hi | lia].
Qed.

Lemma changes_from_sentinel (ch : Q) (rev : variant) (a : anim) (items : list string)
      (ts : list Q) :
  0 < ch -> items <> [] -> ts <> [] ->
  changes (Num (-1) :: map (frameIndex ch rev a items) ts)
  = S (changes (map (frameIndex ch rev a items) ts)).
Proof.
  intros Hch Hne Hts. destruct ts as [| t ts]; [congruence |].
  cbn [map]. rewrite changes_cons.
  destruct (frameIndex_Num ch rev a items t Hch Hne) as (i & Hi & H0).
  rewrite Hi. cbn [strict_neq].
  destruct (Z.eqb_spec i (-1)); [lia | reflexivity].
Qed.

(** The ticks of a spin started on an idle page, after the frames [pre] on
    which it goes on and one more frame [t], the last one or not. *)
Lemma spin_ticks (ch : Q) (rev : variant) (r t0 : Q) (pre : list Q) (t : Q) (s : state) :
  idle s -> currentItems s <> [] ->
  forallb (unfinished t0) pre = true ->
  let idx := frameIndex ch rev (plan ch rev r t0 s) (currentItems s) in
  ticks (trace (run ch rev (Spin r t0 :: map Frame (pre ++ [t])) s))
  = (ticks (trace s) + changes (lastTickIndex s :: map idx (pre ++ [t])))%nat.
Proof.
  intros Hidle Hne Hpre. cbn zeta.
  destruct (unfinished t0 t) eqn:Ht.
  - assert (Hall : forallb (unfinished t0) (pre ++ [t]) = true).
    { rewrite forallb_app, Hpre. simpl. rewrite Ht. reflexivity. }
    apply (spin_under_way ch rev r t0 (pre ++ [t]) s Hidle Hne Hall).
  - apply (complete_spin_outcome ch rev r t0 pre t s Hidle Hne (conj Hpre Ht)).
Qed.

(** C4, as the code has it: over the frames of one spin started on an
    idle page with the recorded index at its initial -1, the number of
    calls of [playTickSound] is one more than the number of pairs of
    consecutive frames on which [getIndexAtCentre] differs: the first frame
    always ticks, and every later frame ticks exactly when its index
    differs from the index of the frame before; no tick fires on a frame
    whose index is that of the previous frame. *)
Theorem tick_count (ch : Q) (rev : variant) (s : state) (r t0 : Q)
        (pre : list Q) (t : Q) :
  0 < ch -> idle s -> currentItems s <> [] ->
  lastTickIndex s = Num (-1) ->
  forallb (unfinished t0) pre = true ->
  let idx := frameIndex ch rev (plan ch rev r t0 s) (currentItems s) in
  let ticks_after frames :=
    ticks (trace (run ch rev (Spin r t0 :: map Frame frames) s)) in
  ticks_after (pre ++ [t])
  = (ticks (trace s) + 1 + changes (map idx (pre ++ [t])))%nat
  /\ ticks_after (pre ++ [t])
     = (ticks_after pre
        + if strict_neq (idx t) (last (map idx pre) (Num (-1))) then 1 else 0)%nat.
Proof.
  intros Hch Hidle Hne Hl Hpre. cbn beta zeta.
  rewrite (spin_ticks ch rev r t0 pre t s Hidle Hne Hpre).
  destruct (spin_under_way ch rev r t0 pre s Hidle Hne Hpre)
    as (_ & _ & Ht & _).
  rewrite Ht, Hl. split.
  - rewrite changes_from_sentinel; auto; [lia |].
    destruct pre; discriminate.
  - rewrite map_app. cbn [map]. rewrite changes_last. lia.
Qed.

Lemma tick_count_witness :
  let idx :=
    frameIndex 500 OffsetAdded (plan 500 OffsetAdded (1 # 2) 0 demo)
               (currentItems demo) in
  let ticks_after frames :=
    ticks (trace (run 500 OffsetAdded (Spin (1 # 2) 0 :: map Frame frames) demo)) in
  ticks_after ([1000; 2000] ++ [4000])%Q
  = (ticks (trace demo) + 1 + changes (map idx ([1000; 2000] ++ [4000])%Q))%nat
  /\ ticks_after ([1000; 2000] ++ [4000])%Q
     = (ticks_after [1000; 2000]%Q
        + if strict_neq (idx 4000%Q) (last (map idx [1000; 2000]%Q) (Num (-1)))
          then 1 else 0)%nat.
Proof.
  apply (tick_count 500 OffsetAdded demo (1 # 2) 0 [1000; 2000] 4000).
  - reflexivity.
  - split; reflexivity.
  - discriminate.
  - reflexivity.
  - reflexivity.
Defined.

(** C4 as stated fails: on the wheel of three names spun with the draw 1/2
    and animated by frames at 1000, 2000 and 4000 ms, [playTickSound] is
    called more often than the index changes between consecutive frames. *)
Lemma tick_count_counterexample :
  let a := plan 500 OffsetAdded (1 # 2) 0 demo in
  let frames := [1000; 2000; 4000] in
  ticks (trace (run 500 OffsetAdded (Spin (1 # 2) 0 :: map Frame frames) demo))
  <> changes (map (frameIndex 500 OffsetAdded a (currentItems demo)) frames).
Proof. vm_compute. discriminate. Qed.

(** ** The guard of spinWheel *)

(** C5: Spin guard: [spinWheel] called while [isSpinning] is up or while
    the list is empty returns without changing the state; so the second of
    two calls made back to back on an idle page changes nothing, and the
    frames that carry the spin to its end, and any frames after, show one
    result in all. *)
Theorem spin_guard_noop (ch : Q) (rev : variant) (g : state) (rg tg : Q)
        (s : state) (r1 t1 r2 t2 : Q) (pre : list Q) (tl : Q) (post : list Q) :
  isSpinning g = true \/ currentItems g = [] ->
  idle s -> currentItems s <> [] -> completes t1 pre tl ->
  spinWheel ch rev rg tg g = g
  /\ spinWheel ch rev r2 t2 (spinWheel ch rev r1 t1 s) = spinWheel ch rev r1 t1 s
  /\ List.length
       (results
          (trace (run ch rev
                    (Spin r1 t1 :: Spin r2 t2 :: map Frame (pre ++ [tl] ++ post))
                    s)))
     = S (List.length (results (trace s))).
Proof.
  intros Hg Hidle Hne Hc.
  destruct (spinWheel_starts ch rev r1 t1 s Hidle Hne) as ((_ & Hs & _) & _).
  assert (H2 : spinWheel ch rev r2 t2 (spinWheel ch rev r1 t1 s)
               = spinWheel ch rev r1 t1 s).
  { apply spinWheel_guard. left. exact Hs. }
  split; [apply spinWheel_guard, Hg | split; [exact H2 |]].
  change (run ch rev (Spin r1 t1 :: Spin r2 t2 :: ?fs) s)
    with (run ch rev fs (spinWheel ch rev r2 t2 (spinWheel ch rev r1 t1 s))).
  rewrite H2.
  rewrite app_assoc, map_app, run_app.
  change (run ch rev (map Frame (pre ++ [tl])) (spinWheel ch rev r1 t1 s))
    with (run ch rev (Spin r1 t1 :: map Frame (pre ++ [tl])) s).
  destruct (complete_spin_outcome ch rev r1 t1 pre tl s Hidle Hne Hc)
    as (_ & _ & _ & _ & _ & _ & Hcb & _ & Hres).
  rewrite frames_idle by exact Hcb.
  rewrite Hres. reflexivity.
Qed.

Lemma spin_guard_noop_witness :
  spinWheel 500 OffsetAdded (1 # 3) 10 initial = initial
  /\ spinWheel 500 OffsetAdded (1 # 3) 10 (spinWheel 500 OffsetAdded (1 # 2) 0 demo)
     = spinWheel 500 OffsetAdded (1 # 2) 0 demo
  /\ List.length
       (results
          (trace (run 500 OffsetAdded
                    (Spin (1 # 2) 0 :: Spin (1 # 3) 10
                       :: map Frame ([1000; 2000] ++ [4000] ++ [4016; 4032]))
                    demo)))
     = S (List.length (results (trace demo))).
Proof.
  apply (spin_guard_noop 500 OffsetAdded initial (1 # 3) 10
           demo (1 # 2) 0 (1 # 3) 10 [1000; 2000] 4000 [4016; 4032]).
  - right. reflexivity.
  - split; reflexivity.
  - discriminate.
  - split; reflexivity.
Defined.

(** ** The result of a spin *)

Lemma nth_error_split_remove {A : Type} (l : list A) (n : nat) :
  (n < List.length l)%nat ->
  exists x : A,
    nth_error l n = Some x
    /\ Permutation (x :: (firstn n l ++ skipn (S n) l)) l.
Proof.
  revert n. induction l as [| h t IH]; intros n Hn; simpl in Hn; [lia |].
  destruct n as [| n].
  - exists h. split; reflexivity.
  - destruct (IH n ltac:(lia)) as (x & Hx & Hp).
    exists x. split; [exact Hx |].
    change (firstn (S n) (h :: t)) with (h :: firstn n t).
    change (skipn (S (S n)) (h :: t)) with (skipn (S n) t).
    rewrite <- app_comm_cons.
    rewrite perm_swap. constructor. exact Hp.
Qed.

Lemma length_remove {A : Type} (l : list A) (n : nat) :
  (n < List.length l)%nat ->
  S (List.length (firstn n l ++ skipn (S n) l)) = List.length l.
Proof.
  intros Hn. rewrite length_app, length_firstn, length_skipn. lia.
Qed.

(** Whatever the state, a call of [animate] that does not ask for another
    frame shows one result, the entry of the list at the index it selects,
    read before that entry is spliced out; a call that asks for another
    frame shows none. *)
Lemma animate_results (ch : Q) (rev : variant) (a : anim) (now : Q) (s : state) :
  let s' := animate ch rev a now s in
  if unfinished (an_startTime a) now
  then results (trace s') = results (trace s)
       /\ currentItems s' = currentItems s
  else results (trace s')
       = array_get (currentItems s) (selectedIndex s') :: results (trace s)
       /\ currentItems s' = splice1 (currentItems s) (selectedIndex s').
Proof.
  cbn zeta. unfold animate. destruct (unfinished _ _).
  - cbn [trace currentItems]. split; [apply advance_results | reflexivity].
  - unfold settle. cbn [trace currentItems selectedIndex results].
    rewrite advance_results. split; reflexivity.
Qed.

(** What a spin carried to its end on an idle page leaves. *)
Lemma complete_spin_winner (ch : Q) (rev : variant) (r t0 : Q) (pre : list Q)
      (tl : Q) (s : state) :
  0 < ch -> idle s -> currentItems s <> [] ->
  0 <= r -> r < 1 -> completes t0 pre tl ->
  let items := currentItems s in
  let w := Js.Math_floor (r * inject_Z (Z.of_nat (List.length items))) in
  let s' := run ch rev (Spin r t0 :: map Frame (pre ++ [tl])) s in
  (0 <= w < Z.of_nat (List.length items))%Z
  /\ selectedIndex s' = Num w
  /\ currentItems s' = (firstn (Z.to_nat w) items ++ skipn (S (Z.to_nat w)) items)%list
  /\ results (trace s') = nth_error items (Z.to_nat w) :: results (trace s)
  /\ currentOffset s' = 0
  /\ idle s'
  /\ originalItems s' = originalItems s
  /\ lastTickIndex s' = Num (-1).
Proof.
  intros Hch Hidle Hne H0 H1 Hc. cbn zeta.
  destruct (complete_spin_outcome ch rev r t0 pre tl s Hidle Hne Hc)
    as (Hi & Ho & Hsp & Hsel & Hor & Hl & Hcb & _ & Hres).
  destruct (planned_index ch rev r t0 s Hch Hne H0 H1) as [Hw Hidx].
  rewrite Hidx in *.
  rewrite splice1_Num in Hi by exact Hw.
  rewrite array_get_Num in Hres by lia.
  unfold idle. repeat split; auto; lia.
Qed.

(** C6: Settle notification: a spin carried to its end shows one result,
    and the label shown is [items[selectedIndex]] read in the list as it is
    before the winner is removed from it. *)
Theorem settle_notification (ch : Q) (rev : variant) (s : state) (r t0 : Q)
        (pre : list Q) (tl : Q) :
  0 < ch -> idle s -> currentItems s <> [] ->
  0 <= r -> r < 1 -> completes t0 pre tl ->
  let items := currentItems s in
  let s' := run ch rev (Spin r t0 :: map Frame (pre ++ [tl])) s in
  exists label : string,
    array_get items (selectedIndex s') = Some label
    /\ results (trace s') = Some label :: results (trace s)
    /\ currentItems s' = splice1 items (selectedIndex s').
Proof.
  intros Hch Hidle Hne H0 H1 Hc. cbn zeta.
  destruct (complete_spin_winner ch rev r t0 pre tl s Hch Hidle Hne H0 H1 Hc)
    as (Hw & Hsel & Hi & Hres & _).
  set (w := Js.Math_floor (r * inject_Z (Z.of_nat (List.length (currentItems s))))) in *.
  destruct (nth_error_split_remove (currentItems s) (Z.to_nat w) ltac:(lia))
    as (x & Hx & _).
  exists x. rewrite Hsel, array_get_Num, splice1_Num by lia.
  rewrite Hres, Hx. auto.
Qed.

Lemma settle_notification_witness :
  let items := currentItems demo in
  let s' :=
    run 500 OffsetSubtracted (Spin (1 # 2) 0 :: map Frame ([1000; 2000] ++ [4000]))
        demo in
  exists label : string,
    array_get items (selectedIndex s') = Some label
    /\ results (trace s') = Some label :: results (trace demo)
    /\ currentItems s' = splice1 items (selectedIndex s').
Proof.
  apply (settle_notification 500 OffsetSubtracted demo (1 # 2) 0 [1000; 2000] 4000).
  - reflexivity.
  - split; reflexivity.
  - discriminate.
  - unfold Qle; simpl; lia.
  - reflexivity.
  - split; reflexivity.
Defined.

(** ** Removal and exhaustion *)

Lemma complete_spin_true (sp : spin) :
  complete_spin sp = true ->
  0 <= sp_random sp /\ sp_random sp < 1
  /\ completes (sp_start sp) (sp_frames sp) (sp_last sp).
Proof.
  unfold complete_spin, completes, Js.ltb. intros H.
  repeat (apply andb_true_iff in H; destruct H as [H ?]).
  repeat split; auto.
  - apply Qle_bool_iff; assumption.
  - apply negb_true_iff in H2.
    destruct (Qlt_le_dec (sp_random sp) 1) as [Hlt | Hge]; auto.
    apply Qle_bool_iff in Hge. congruence.
  - apply negb_true_iff; assumption.
Qed.

(** Spins played one after the other, each carried to its end. *)
Lemma spins_outcome (ch : Q) (rev : variant) (spins : list spin) :
  0 < ch -> forallb complete_spin spins = true ->
  forall s, idle s ->
  (List.length spins <= List.length (currentItems s))%nat ->
  let s' := run ch rev (List.concat (map spin_actions spins)) s in
  idle s'
  /\ (List.length (currentItems s') + List.length spins)%nat
     = List.length (currentItems s)
  /\ originalItems s' = originalItems s
  /\ (spins <> [] -> currentOffset s' = 0)
  /\ exists winners : list (option string),
       results (trace s') = (winners ++ results (trace s))%list
       /\ List.length winners = List.length spins
       /\ Permutation (winners ++ map Some (currentItems s'))
                      (map Some (currentItems s)).
Proof.
  intros Hch. induction spins as [| sp spins IH]; intros Hall s Hidle Hlen; cbn zeta.
  - simpl. repeat split; try apply Hidle; auto; [congruence |].
    exists []. repeat split; auto.
  - simpl in Hall. apply andb_true_iff in Hall as [Hsp Hall].
    destruct (complete_spin_true sp Hsp) as (H0 & H1 & Hc).
    simpl in Hlen.
    assert (Hne : currentItems s <> []).
    { destruct (currentItems s); simpl in Hlen; [lia | discriminate]. }
    cbn [map List.concat]. rewrite run_app.
    destruct (complete_spin_winner ch rev (sp_random sp) (sp_start sp)
                (sp_frames sp) (sp_last sp) s Hch Hidle Hne H0 H1 Hc)
      as (Hw & _ & Hi & Hres & Hoff1 & Hidle1 & Hor1 & _).
    fold (spin_actions sp) in Hi, Hres, Hoff1, Hidle1, Hor1.
    set (s1 := run ch rev (spin_actions sp) s) in *.
    set (w := Z.to_nat (Js.Math_floor
                 (sp_random sp * inject_Z (Z.of_nat (List.length (currentItems s)))))) in *.
    assert (Hwn : (w < List.length (currentItems s))%nat) by (unfold w; lia).
    pose proof (length_remove (currentItems s) w Hwn) as Hlr.
    rewrite <- Hi in Hlr.
    destruct (nth_error_split_remove (currentItems s) w Hwn) as (x & Hx & Hp).
    rewrite <- Hi in Hp.
    destruct (IH Hall s1 Hidle1 ltac:(lia))
      as (Hidle2 & Hlen2 & Hor2 & Hoff2 & ws & Hws & Hwl & Hwp).
    repeat split; try apply Hidle2.
    + simpl. lia.
    + congruence.
    + intros _. destruct spins as [| sp' spins'].
      * exact Hoff1.
      * apply Hoff2. discriminate.
    + exists (ws ++ [Some x])%list. repeat split.
      * rewrite Hws, Hres, Hx, <- app_assoc. reflexivity.
      * rewrite length_app. simpl. lia.
      * rewrite <- app_assoc. simpl.
        rewrite <- Permutation_middle.
        rewrite <- Hp. cbn [map]. constructor. exact Hwp.
Qed.

(** C7: Removal and exhaustion: a spin carried to its end removes the
    winning element and nothing else (the list is one shorter, the others
    keep their order) and sets the offset to 0; so as many spins as the
    wheel has items, each carried to its end, empty the list, and the
    results shown are the items of the wheel, each once. *)
Theorem removal_and_exhaustion (ch : Q) (rev : variant) (s : state)
        (sp : spin) (spins : list spin) :
  0 < ch -> idle s -> currentItems s <> [] ->
  complete_spin sp = true ->
  forallb complete_spin spins = true ->
  List.length spins = List.length (currentItems s) ->
  let items := currentItems s in
  let s1 := run ch rev (spin_actions sp) s in
  let w :=
    Z.to_nat (Js.Math_floor (sp_random sp * inject_Z (Z.of_nat (List.length items)))) in
  let sN := run ch rev (List.concat (map spin_actions spins)) s in
  (currentItems s1 = (firstn w items ++ skipn (S w) items)%list
   /\ results (trace s1) = nth_error items w :: results (trace s)
   /\ (w < List.length items)%nat
   /\ S (List.length (currentItems s1)) = List.length items
   /\ currentOffset s1 = 0)
  /\ (currentItems sN = []
      /\ currentOffset sN = 0
      /\ exists winners : list (option string),
           results (trace sN) = (winners ++ results (trace s))%list
           /\ List.length winners = List.length items
           /\ Permutation winners (map Some items)).
Proof.
  intros Hch Hidle Hne Hsp Hall Hlen. cbn zeta. split.
  - destruct (complete_spin_true sp Hsp) as (H0 & H1 & Hc).
    destruct (complete_spin_winner ch rev (sp_random sp) (sp_start sp)
                (sp_frames sp) (sp_last sp) s Hch Hidle Hne H0 H1 Hc)
      as (Hw & _ & Hi & Hres & Hoff & _).
    fold (spin_actions sp) in Hi, Hres, Hoff.
    repeat split; auto; try lia.
    rewrite Hi. apply length_remove. lia.
  - destruct (spins_outcome ch rev spins Hch Hall s Hidle ltac:(lia))
      as (_ & Hl & _ & Hoff & ws & Hws & Hwl & Hwp).
    assert (He : currentItems (run ch rev (List.concat (map spin_actions spins)) s) = []).
    { apply length_zero_iff_nil. lia. }
    repeat split; auto.
    + apply Hoff. intros ->. simpl in Hlen.
      symmetry in Hlen. apply length_zero_iff_nil in Hlen. contradiction.
    + exists ws. rewrite He in Hwp. simpl in Hwp. rewrite app_nil_r in Hwp.
      repeat split; auto. lia.
Qed.

Lemma removal_and_exhaustion_witness :
  let sp := {| sp_random := 1 # 2; sp_start := 0;
               sp_frames := [1000; 2000]; sp_last := 4000 |} in
  let items := currentItems demo in
  let s1 := run 500 OffsetAdded (spin_actions sp) demo in
  let w :=
    Z.to_nat (Js.Math_floor (sp_random sp * inject_Z (Z.of_nat (List.length items)))) in
  let sN := run 500 OffsetAdded (List.concat (map spin_actions demo_spins)) demo in
  (currentItems s1 = (firstn w items ++ skipn (S w) items)%list
   /\ results (trace s1) = nth_error items w :: results (trace demo)
   /\ (w < List.length items)%nat
   /\ S (List.length (currentItems s1)) = List.length items
   /\ currentOffset s1 = 0)
  /\ (currentItems sN = []
      /\ currentOffset sN = 0
      /\ exists winners : list (option string),
           results (trace sN) = (winners ++ results (trace demo))%list
           /\ List.length winners = List.length items
           /\ Permutation winners (map Some items)).
Proof.
  apply (removal_and_exhaustion 500 OffsetAdded demo
           {| sp_random := 1 # 2; sp_start := 0;
              sp_frames := [1000; 2000]; sp_last := 4000 |} demo_spins).
  - reflexivity.
  - split; reflexivity.
  - discriminate.
  - reflexivity.
  - reflexivity.
  - reflexivity.
Defined.

(** ** Reset *)

Lemma animate_originalItems (ch : Q) (rev : variant) (a : anim) (now : Q) (s : state) :
  originalItems (animate ch rev a now s) = originalItems s.
Proof. unfold animate. destruct (unfinished _ _); reflexivity. Qed.

Lemma frame_originalItems (ch : Q) (rev : variant) (now : Q) (s : state) :
  originalItems (frame ch rev now s) = originalItems s.
Proof.
  unfold frame.
  change (originalItems s) with (originalItems (take_callbacks s)).
  generalize (take_callbacks s) as st.
  induction (frameCallbacks s) as [| a l IH]; intros st; simpl; auto.
  rewrite IH. apply animate_originalItems.
Qed.

Lemma step_originalItems (ch : Q) (rev : variant) (act : action) (s : state) :
  is_generate act = false ->
  originalItems (step ch rev s act) = originalItems s.
Proof.
  destruct act as [input random | r now | | now]; simpl; intros H.
  - discriminate.
  - unfold spinWheel. destruct (_ || _); reflexivity.
  - unfold reset. destruct (_ =? _)%nat; reflexivity.
  - apply frame_originalItems.
Qed.

Lemma run_originalItems (ch : Q) (rev : variant) (acts : list action) (s : state) :
  forallb (fun act => negb (is_generate act)) acts = true ->
  originalItems (run ch rev acts s) = originalItems s.
Proof.
  revert s. induction acts as [| act acts IH]; intros s H; simpl in *; auto.
  apply andb_true_iff in H as [Ha Hr]. apply negb_true_iff in Ha.
  unfold run in *. simpl. rewrite IH by assumption.
  apply step_originalItems, Ha.
Qed.

(** C8: Reset: after a click on generate with a non-empty input and any
    run of spins, frames and resets, a click on reset puts back in
    [currentItems] the shuffled list captured by generate, in the same
    order, sets the offset to 0 and lowers [isSpinning]; with an empty
    [originalItems] reset changes nothing. *)
Theorem reset_restores (ch : Q) (rev : variant) (input : list string)
        (random : nat -> Q) (s : state) (acts : list action) (s0 : state) :
  input <> [] ->
  forallb (fun act => negb (is_generate act)) acts = true ->
  originalItems s0 = [] ->
  let g := generate input random s in
  let s' := reset (run ch rev acts g) in
  currentItems g = shuffleArray random input
  /\ currentItems s' = shuffleArray random input
  /\ currentOffset s' = 0
  /\ isSpinning s' = false
  /\ reset s0 = s0.
Proof.
  intros Hne Hacts H0. cbn zeta.
  assert (Hg : generate input random s
               = {| currentItems := shuffleArray random input;
                    currentOffset := 0;
                    isSpinning := false;
                    selectedIndex := Null;
                    originalItems := shuffleArray random input;
                    lastTickIndex := Num (-1);
                    frameCallbacks := frameCallbacks s;
                    trace := trace s |}).
  { unfold generate. destruct input; [congruence | reflexivity]. }
  assert (Ho : originalItems (run ch rev acts (generate input random s))
               = shuffleArray random input).
  { rewrite run_originalItems by assumption. rewrite Hg. reflexivity. }
  assert (Hl : (List.length (shuffleArray random input) =? 0)%nat = false).
  { rewrite shuffleArray_length. destruct input; [congruence | reflexivity]. }
  split; [rewrite Hg; reflexivity |].
  unfold reset at 1 2 3. rewrite Ho, Hl. cbn [currentItems currentOffset isSpinning].
  repeat split; auto.
  unfold reset. rewrite H0. reflexivity.
Qed.

Lemma reset_restores_witness :
  let g := generate ["A"; "B"; "C"]%string (fun _ => 1 # 2) initial in
  let s' :=
    reset (run 500 OffsetAdded
             (List.concat (map spin_actions demo_spins) ++ [Reset; Spin (1 # 3) 20000])
             g) in
  currentItems g = shuffleArray (fun _ => 1 # 2) ["A"; "B"; "C"]%string
  /\ currentItems s' = shuffleArray (fun _ => 1 # 2) ["A"; "B"; "C"]%string
  /\ currentOffset s' = 0
  /\ isSpinning s' = false
  /\ reset initial = initial.
Proof.
  apply (reset_restores 500 OffsetAdded ["A"; "B"; "C"]%string (fun _ => 1 # 2)
           initial
           (List.concat (map spin_actions demo_spins) ++ [Reset; Spin (1 # 3) 20000])
           initial).
  - discriminate.
  - reflexivity.
  - reflexivity.
Defined.

(** ** One spin at a time *)

Lemma step_flag_matches (ch : Q) (rev : variant) (act : action) (s : state) :
  flag_matches s ->
  (match act with Generate _ _ | Reset => isSpinning s | _ => false end) = false ->
  flag_matches (step ch rev s act).
Proof.
  unfold flag_matches. intros Hf Hi.
  destruct act as [input random | r now | | now]; simpl.
  - unfold generate. destruct (_ =? _)%nat; [exact Hf |].
    cbn [frameCallbacks isSpinning]. rewrite Hi in Hf. exact Hf.
  - unfold spinWheel. destruct (isSpinning s) eqn:E; cbn [orb].
    + rewrite E. exact Hf.
    + destruct (_ =? _)%nat; [rewrite E; exact Hf |].
      cbn [frameCallbacks isSpinning]. rewrite length_app, Hf. reflexivity.
  - unfold reset. destruct (_ =? _)%nat; [exact Hf |].
    cbn [frameCallbacks isSpinning]. rewrite Hi in Hf. exact Hf.
  - destruct (isSpinning s) eqn:E.
    + destruct (frameCallbacks s) as [| a [| b l]] eqn:Hc; try discriminate.
      rewrite (frame_single ch rev a now s Hc).
      unfold animate. destruct (unfinished _ _).
      * cbn [frameCallbacks isSpinning advance take_callbacks].
        rewrite E. reflexivity.
      * reflexivity.
    + destruct (frameCallbacks s) as [| a l] eqn:Hc; try discriminate.
      rewrite (frame_idle ch rev now s Hc). rewrite Hc, E. reflexivity.
Qed.

(** As long as generate and reset are not clicked while the flag is up, at
    most one callback waits, and none when the flag is down. *)
Lemma single_flight_uninterrupted (ch : Q) (rev : variant) (acts : list action)
      (s : state) :
  flag_matches s -> interrupted ch rev acts s = false ->
  flag_matches (run ch rev acts s)
  /\ (List.length (frameCallbacks (run ch rev acts s)) <= 1)%nat.
Proof.
  revert s. induction acts as [| act acts IH]; intros s Hf Hi.
  - split; [exact Hf |]. simpl. unfold flag_matches in Hf. rewrite Hf.
    destruct (isSpinning s); lia.
  - simpl in Hi. apply orb_false_iff in Hi as [Ha Hr].
    apply (IH (step ch rev s act)); [| exact Hr].
    apply step_flag_matches; assumption.
Qed.

(** C9, the code at the failing run: generate a wheel of two names, spin,
    click reset while the wheel spins, spin again: the second spin is
    accepted and two [animate] callbacks wait for the next frame; both then
    run to their end and each shows a result and removes an item. *)
Theorem second_spin_after_reset :
  let acts :=
    [Generate ["A"; "B"]%string (fun _ => 0); Spin (1 # 2) 0; Reset; Spin (1 # 2) 100] in
  let s := run 500 OffsetAdded acts initial in
  let s' := run 500 OffsetAdded (acts ++ [Frame 4000; Frame 4100]) initial in
  List.length (frameCallbacks s) = 2%nat
  /\ isSpinning s = true
  /\ List.length (results (trace s')) = 2%nat
  /\ currentItems s' = [].
Proof. vm_compute. repeat split. Qed.

(** ** Drawing: where the stripes are *)

Lemma multiple_small (m : Q) (k : Z) :
  0 < m -> - m < m * inject_Z k -> m * inject_Z k < m -> k = 0%Z.
Proof.
  intros Hm Hlo Hhi.
  assert (H1 : (k < 1)%Z).
  { rewrite Zlt_Qlt. change (inject_Z 1) with 1. nra. }
  assert (H2 : (-1 < k)%Z).
  { rewrite Zlt_Qlt. change (inject_Z (-1)) with (- (1)). nra. }
  lia.
Qed.

Lemma segmentTop_floor_mod (ch : Q) (rev : variant) (len i : Z) (offset : Q) :
  0 < ch -> (0 < len)%Z ->
  segmentTop ch rev len i offset
  == floor_mod (match rev with
                | OffsetAdded => inject_Z i * (wheelHeight ch / inject_Z len) - offset
                | OffsetSubtracted => inject_Z i * (wheelHeight ch / inject_Z len) + offset
                end) (wheelHeight ch)
     + (ch - wheelHeight ch) / 2.
Proof.
  intros Hch Hl. pose proof (wheelHeight_pos ch Hch) as Hm.
  pose proof (inject_Z_pos len Hl) as Hp.
  unfold segmentTop. fold (wheelHeight ch).
  match goal with
  | |- Js.rem (Js.rem ?a ?m + ?m) ?m + _ == _ =>
      fold (normalizeOffset a m)
  end.
  rewrite normalizeOffset_floor_mod by assumption.
  apply Qplus_comp; [| reflexivity].
  apply floor_mod_Proper; [| reflexivity].
  destruct rev; field; lra.
Qed.

Lemma draw_from_spec (ch : Q) (rev : variant) (len : Z) (rest : list string)
      (offset : Q) (highlight : jsindex) (i : Z) (k : nat) (st : stripe) :
  nth_error (draw_from ch rev len i rest offset highlight) k = Some st ->
  nth_error rest k = Some (st_label st)
  /\ st_top st = segmentTop ch rev len (i + Z.of_nat k) offset
  /\ st_height st = ch * (8 # 10) / inject_Z len
  /\ st_colour st = Z.rem (i + Z.of_nat k) 10.
Proof.
  revert i k. induction rest as [| label rest IH]; intros i k H.
  - destruct k; discriminate.
  - destruct k as [| k]; simpl in H.
    + injection H as <-. cbn [st_label st_top st_height st_colour nth_error].
      rewrite Z.add_0_r. auto.
    + apply IH in H. replace (i + Z.of_nat (S k))%Z with (i + 1 + Z.of_nat k)%Z by lia.
      exact H.
Qed.

Lemma draw_from_labels (ch : Q) (rev : variant) (len : Z) (rest : list string)
      (offset : Q) (highlight : jsindex) (i : Z) :
  map st_label (draw_from ch rev len i rest offset highlight) = rest.
Proof.
  revert i. induction rest as [| label rest IH]; intros i; simpl; [reflexivity |].
  rewrite IH. reflexivity.
Qed.

Lemma draw_from_nth (ch : Q) (rev : variant) (len : Z) (rest : list string)
      (offset : Q) (highlight : jsindex) (i : Z) (k : nat) :
  (k < List.length rest)%nat ->
  exists st : stripe,
    nth_error (draw_from ch rev len i rest offset highlight) k = Some st.
Proof.
  intros Hk.
  destruct (nth_error (draw_from ch rev len i rest offset highlight) k) eqn:E.
  - eauto.
  - apply nth_error_None in E.
    rewrite <- (length_map st_label), draw_from_labels in E. lia.
Qed.

Lemma drawWheelWithOffset_unfold (ch : Q) (rev : variant) (items : list string)
      (offset : Q) (highlight : jsindex) :
  drawWheelWithOffset ch rev items offset highlight
  = draw_from ch rev (Z.of_nat (List.length items)) 0 items offset highlight.
Proof.
  unfold drawWheelWithOffset. destruct items; reflexivity.
Qed.

(** X1: in exact arithmetic, every stripe painted by
    [drawWheelWithOffset] starts inside the wheel, at or below its top [y]
    and above its bottom [y + wheelHeight], whatever the offset; there is
    one stripe per item, labelled in the order of the list, each as high
    as one segment. *)
Theorem stripes_inside_wheel (ch : Q) (rev : variant) (items : list string)
        (offset : Q) (highlight : jsindex) :
  0 < ch ->
  let stripes := drawWheelWithOffset ch rev items offset highlight in
  let y := (ch - wheelHeight ch) / 2 in
  map st_label stripes = items
  /\ Forall (fun st =>
               y <= st_top st /\ st_top st < y + wheelHeight ch
               /\ st_height st == wheelHeight ch / inject_Z (Z.of_nat (List.length items)))
            stripes.
Proof.
  intros Hch. cbn zeta. rewrite drawWheelWithOffset_unfold. split.
  - apply draw_from_labels.
  - apply Forall_forall. intros st Hin.
    apply In_nth_error in Hin as (k & Hk).
    assert (Hlen : (k < List.length items)%nat).
    { apply nth_error_Some. apply draw_from_spec in Hk as (Hl & _). congruence. }
    apply draw_from_spec in Hk as (_ & Ht & Hh & _).
    rewrite Ht, Hh.
    rewrite segmentTop_floor_mod by (assumption || lia).
    match goal with
    | |- context [floor_mod ?a ?m] =>
        destruct (floor_mod_bounds a m (wheelHeight_pos ch Hch)) as [H0 H1]
    end.
    repeat split; lra.
Qed.

Lemma stripes_inside_wheel_witness :
  let stripes :=
    drawWheelWithOffset 500 OffsetAdded ["A"; "B"; "C"]%string (-(930)) Null in
  let y := (500 - wheelHeight 500) / 2 in
  map st_label stripes = ["A"; "B"; "C"]%string
  /\ Forall (fun st =>
               y <= st_top st /\ st_top st < y + wheelHeight 500
               /\ st_height st == wheelHeight 500 / inject_Z (Z.of_nat 3))
            stripes.
Proof.
  apply (stripes_inside_wheel 500 OffsetAdded ["A"; "B"; "C"]%string (-(930)) Null).
  reflexivity.
Defined.

Lemma segmentTop_shift (ch : Q) (rev : variant) (len i : Z) (offset : Q) (k : Z) :
  0 < ch -> (0 < len)%Z ->
  segmentTop ch rev len i (offset + inject_Z k * wheelHeight ch)
  == segmentTop ch rev len i offset.
Proof.
  intros Hch Hl. pose proof (wheelHeight_pos ch Hch) as Hm.
  rewrite !segmentTop_floor_mod by assumption.
  apply Qplus_comp; [| reflexivity].
  destruct rev.
  - rewrite <- (floor_mod_period
                  (inject_Z i * (wheelHeight ch / inject_Z len) - offset)
                  (wheelHeight ch) (- k) Hm).
    apply floor_mod_Proper; [| reflexivity]. rewrite inject_Z_opp. ring.
  - rewrite <- (floor_mod_period
                  (inject_Z i * (wheelHeight ch / inject_Z len) + offset)
                  (wheelHeight ch) k Hm).
    apply floor_mod_Proper; [| reflexivity]. ring.
Qed.

Lemma draw_from_shift (ch : Q) (rev : variant) (len : Z) (rest : list string)
      (offset : Q) (highlight : jsindex) (k i : Z) :
  0 < ch -> (0 < len)%Z ->
  Forall2 (fun st st' =>
             st_top st == st_top st' /\ st_height st = st_height st'
             /\ st_label st = st_label st' /\ st_colour st = st_colour st'
             /\ st_highlight st = st_highlight st')
    (draw_from ch rev len i rest (offset + inject_Z k * wheelHeight ch) highlight)
    (draw_from ch rev len i rest offset highlight).
Proof.
  intros Hch Hl. revert i.
  induction rest as [| label rest IH]; intros i; cbn [draw_from]; constructor.
  - cbn [st_top st_height st_label st_colour st_highlight].
    split; [apply segmentTop_shift; assumption |]. repeat split; reflexivity.
  - apply IH.
Qed.

(** X2: in exact arithmetic, the picture is periodic in the offset:
    shifting the offset by any number of wheel heights, forwards or
    backwards, gives the same picture, every stripe at the same place
    with its label, colour and outline. *)
Theorem picture_periodic (ch : Q) (rev : variant) (items : list string)
        (offset : Q) (highlight : jsindex) (k : Z) :
  0 < ch ->
  Forall2 (fun st st' =>
             st_top st == st_top st' /\ st_height st = st_height st'
             /\ st_label st = st_label st' /\ st_colour st = st_colour st'
             /\ st_highlight st = st_highlight st')
    (drawWheelWithOffset ch rev items (offset + inject_Z k * wheelHeight ch) highlight)
    (drawWheelWithOffset ch rev items offset highlight).
Proof.
  intros Hch. destruct items as [| label rest].
  - constructor.
  - rewrite !drawWheelWithOffset_unfold.
    apply draw_from_shift; [exact Hch |]. cbn [List.length]. lia.
Qed.

Lemma picture_periodic_witness :
  0 < 500
  /\ Forall2 (fun st st' =>
             st_top st == st_top st' /\ st_height st = st_height st'
             /\ st_label st = st_label st' /\ st_colour st = st_colour st'
             /\ st_highlight st = st_highlight st')
       (drawWheelWithOffset 500 OffsetSubtracted ["A"; "B"; "C"]%string
          (70 + inject_Z (-3) * wheelHeight 500) (Num 1))
       (drawWheelWithOffset 500 OffsetSubtracted ["A"; "B"; "C"]%string 70 (Num 1)).
Proof.
  split; [reflexivity |].
  apply (picture_periodic 500 OffsetSubtracted ["A"; "B"; "C"]%string 70 (Num 1) (-3)).
  reflexivity.
Defined.

Lemma segment_of_bounds (m : Q) (len : Z) (pos : Q) :
  0 < m -> (0 < len)%Z ->
  let d := floor_mod pos m - inject_Z (segment_of m len pos) * (m / inject_Z len) in
  0 <= d /\ d < m / inject_Z len.
Proof.
  intros Hm Hl. cbn zeta. pose proof (inject_Z_pos len Hl) as Hp.
  unfold segment_of.
  set (x := floor_mod pos m). set (sg := m / inject_Z len).
  assert (Hsg : 0 < sg).
  { unfold sg. apply Qlt_shift_div_l; lra. }
  pose proof (Qfloor_le (x / sg)) as H0.
  pose proof (Qlt_floor (x / sg)) as H1.
  rewrite inject_Z_plus in H1. change (inject_Z 1) with 1 in H1.
  assert (Hx : sg * (x / sg) == x) by (field; lra).
  set (q := x / sg) in *. set (f := inject_Z (Qfloor q)) in *.
  split; nra.
Qed.

(** X3: in exact arithmetic, on a wheel of two items or more, the segment
    [getIndexAtCentre] reports is the one [drawWheelWithOffset] paints
    across the centre line: the stripe of that index starts at or above
    [centerY] and ends below it, for every offset and in every
    revision. *)
Theorem centre_stripe_is_index (ch : Q) (rev : variant) (items : list string)
        (offset : Q) (highlight : jsindex) :
  0 < ch -> (2 <= List.length items)%nat ->
  exists (i : Z) (st : stripe),
    getIndexAtCentre ch rev items offset = Num i
    /\ nth_error (drawWheelWithOffset ch rev items offset highlight) (Z.to_nat i)
       = Some st
    /\ array_get items (Num i) = Some (st_label st)
    /\ st_top st <= ch / 2
    /\ ch / 2 < st_top st + st_height st.
Proof.
  intros Hch Hn.
  assert (Hne : items <> []) by (destruct items; simpl in Hn; [lia | discriminate]).
  pose proof (wheelHeight_pos ch Hch) as Hm.
  pose proof (length_pos items Hne) as Hl.
  set (len := Z.of_nat (List.length items)) in *.
  set (i := segment_of (wheelHeight ch) len (centre_pos ch rev offset)).
  pose proof (segment_of_range (wheelHeight ch) len (centre_pos ch rev offset) Hm Hl)
    as Hi. fold i in Hi.
  destruct (draw_from_nth ch rev len items offset highlight 0 (Z.to_nat i)
              ltac:(unfold len in Hi; lia)) as (st & Hst).
  exists i, st. rewrite drawWheelWithOffset_unfold. fold len.
  split; [apply getIndexAtCentre_segment; assumption |].
  split; [exact Hst |].
  apply draw_from_spec in Hst as (Hlab & Ht & Hh & _).
  split; [rewrite array_get_Num by lia; exact Hlab |].
  rewrite Ht, Hh. rewrite Z.add_0_l, Z2Nat.id by lia.
  rewrite segmentTop_floor_mod by assumption.
  fold (wheelHeight ch).
  pose proof (segment_of_bounds (wheelHeight ch) len (centre_pos ch rev offset) Hm Hl)
    as Hd. cbn zeta in Hd. fold i in Hd. destruct Hd as [Hd0 Hd1].
  pose proof (inject_Z_pos len Hl) as Hp.
  assert (Hseg : wheelHeight ch / inject_Z len <= wheelHeight ch / 2).
  { assert (H2 : 2 <= inject_Z len).
    { change 2 with (inject_Z 2). rewrite <- Zle_Qle. unfold len. lia. }
    apply Qle_shift_div_r; [lra |].
    assert (E : wheelHeight ch / 2 * inject_Z len
                == (1 # 2) * (wheelHeight ch * inject_Z len)) by field.
    rewrite E. nra. }
  set (sg := wheelHeight ch / inject_Z len) in *.
  set (arg := match rev with
              | OffsetAdded => inject_Z i * sg - offset
              | OffsetSubtracted => inject_Z i * sg + offset
              end).
  destruct (floor_mod_bounds arg (wheelHeight ch) Hm) as [Ht0 Ht1].
  set (d := floor_mod (centre_pos ch rev offset) (wheelHeight ch) - inject_Z i * sg) in *.
  assert (Hk : wheelHeight ch / 2 - floor_mod arg (wheelHeight ch) - d
               == wheelHeight ch
                  * inject_Z (Qfloor (arg / wheelHeight ch)
                              + Qfloor (centre_pos ch rev offset / wheelHeight ch))).
  { unfold d, floor_mod, arg. rewrite inject_Z_plus.
    destruct rev; cbn [centre_pos]; ring. }
  assert (Hhalf : wheelHeight ch / 2 + wheelHeight ch / 2 == wheelHeight ch) by field.
  assert (Hcy : ch / 2 == (ch - wheelHeight ch) / 2 + wheelHeight ch / 2) by field.
  assert (Hz : (Qfloor (arg / wheelHeight ch)
                + Qfloor (centre_pos ch rev offset / wheelHeight ch))%Z = 0%Z).
  { apply (multiple_small (wheelHeight ch)); [assumption | |];
      rewrite <- Hk; lra. }
  rewrite Hz in Hk. change (inject_Z 0) with 0 in Hk.
  rewrite Hcy. split; lra.
Qed.

Lemma centre_stripe_is_index_witness :
  exists (i : Z) (st : stripe),
    getIndexAtCentre 500 OffsetAdded ["A"; "B"; "C"]%string 1234 = Num i
    /\ nth_error (drawWheelWithOffset 500 OffsetAdded ["A"; "B"; "C"]%string 1234 Null)
                 (Z.to_nat i) = Some st
    /\ array_get ["A"; "B"; "C"]%string (Num i) = Some (st_label st)
    /\ st_top st <= 500 / 2
    /\ 500 / 2 < st_top st + st_height st.
Proof.
  apply (centre_stripe_is_index 500 OffsetAdded ["A"; "B"; "C"]%string 1234 Null).
  - reflexivity.
  - simpl. lia.
Defined.

(** ** The trajectory of a spin *)

Lemma Math_min_cases (a b : Q) :
  (a <= b /\ Js.Math_min a b = a) \/ (b < a /\ Js.Math_min a b = b).
Proof.
  unfold Js.Math_min. destruct (Qle_bool a b) eqn:E.
  - left. split; [apply Qle_bool_iff, E | reflexivity].
  - right. split; [| reflexivity].
    destruct (Qlt_le_dec b a) as [H | H]; auto.
    apply Qle_bool_iff in H. congruence.
Qed.

Lemma frameOffset_finished (a : anim) (now : Q) :
  unfinished (an_startTime a) now = false ->
  frameOffset a now == an_startOffset a + an_distance a.
Proof.
  intros Hu. unfold unfinished, Js.ltb in Hu. apply negb_false_iff in Hu.
  apply Qle_bool_iff in Hu. unfold frameOffset, Js.pow3.
  destruct (Math_min_cases ((now - an_startTime a) / duration) 1)
    as [[Hle E1] | [Hlt E1]]; rewrite E1 in *.
  - assert (E : (now - an_startTime a) / duration == 1) by lra.
    rewrite E. ring.
  - ring.
Qed.

Lemma plan_target (ch : Q) (rev : variant) (r t0 : Q) (s : state) :
  let a := plan ch rev r t0 s in
  an_startOffset a + an_distance a
  == an_finalOffset a + 3 * wheelHeight ch.
Proof. cbn zeta. unfold plan, wheelHeight. cbn [an_startOffset an_distance an_finalOffset]. ring. Qed.

Lemma segmentTop_comp (ch : Q) (rev : variant) (len i : Z) (o o' : Q) :
  o == o' -> segmentTop ch rev len i o == segmentTop ch rev len i o'.
Proof.
  intros H. unfold segmentTop. destruct rev; rewrite H; reflexivity.
Qed.

Lemma segmentTop_finalOffset (ch : Q) (rev : variant) (len w : Z) :
  0 < ch -> (0 <= w < len)%Z ->
  segmentTop ch rev len w (finalOffset ch rev len w)
  + wheelHeight ch / inject_Z len / 2 == ch / 2.
Proof.
  intros Hch Hw. assert (Hl : (0 < len)%Z) by lia.
  pose proof (wheelHeight_pos ch Hch) as Hm.
  pose proof (inject_Z_pos len Hl) as Hp.
  rewrite segmentTop_floor_mod by assumption.
  set (sg := wheelHeight ch / inject_Z len).
  assert (Hsg0 : 0 < sg) by (unfold sg; apply Qlt_shift_div_l; lra).
  assert (Hsg1 : sg <= wheelHeight ch).
  { unfold sg. apply Qle_shift_div_r; [assumption |].
    assert (H1 : 1 <= inject_Z len).
    { change 1 with (inject_Z 1). rewrite <- Zle_Qle. lia. }
    nra. }
  assert (Hhalf : wheelHeight ch / 2 + wheelHeight ch / 2 == wheelHeight ch) by field.
  assert (Hsh : sg / 2 + sg / 2 == sg) by field.
  assert (E : match rev with
              | OffsetAdded => inject_Z w * sg - finalOffset ch rev len w
              | OffsetSubtracted => inject_Z w * sg + finalOffset ch rev len w
              end == wheelHeight ch / 2 - sg / 2).
  { unfold finalOffset. fold (wheelHeight ch). fold sg. destruct rev; field. }
  rewrite E. rewrite floor_mod_small by lra. field.
Qed.

(** X4: the last picture of a spin shows the winner in the middle: on the
    frame where [progress] reaches 1, [animate] draws the wheel at an
    offset that puts the middle of the stripe of the index drawn by
    [spinWheel] exactly on the centre line. *)
Theorem winner_drawn_centred (ch : Q) (rev : variant) (s : state) (r t0 now : Q) :
  0 < ch -> currentItems s <> [] -> 0 <= r -> r < 1 ->
  unfinished t0 now = false ->
  let a := plan ch rev r t0 s in
  let items := currentItems s in
  let w := Z.to_nat (Js.Math_floor (r * inject_Z (Z.of_nat (List.length items)))) in
  exists st : stripe,
    nth_error (drawWheelWithOffset ch rev items (frameOffset a now) Null) w = Some st
    /\ nth_error items w = Some (st_label st)
    /\ st_top st + st_height st / 2 == ch / 2.
Proof.
  intros Hch Hne H0 H1 Hu. cbn zeta.
  pose proof (wheelHeight_pos ch Hch) as Hm.
  pose proof (length_pos _ Hne) as Hl.
  pose proof (random_index_range r _ H0 H1 Hl) as Hw.
  set (len := Z.of_nat (List.length (currentItems s))) in *.
  set (w := Js.Math_floor (r * inject_Z len)) in *.
  rewrite drawWheelWithOffset_unfold. fold len.
  destruct (draw_from_nth ch rev len (currentItems s)
              (frameOffset (plan ch rev r t0 s) now) Null 0 (Z.to_nat w)
              ltac:(unfold len in Hw; lia)) as (st & Hst).
  exists st. split; [exact Hst |].
  apply draw_from_spec in Hst as (Hlab & Ht & Hh & _).
  split; [exact Hlab |].
  rewrite Ht, Hh, Z.add_0_l, Z2Nat.id by lia.
  fold (wheelHeight ch).
  rewrite <- (segmentTop_finalOffset ch rev len w Hch Hw).
  apply Qplus_comp; [| reflexivity].
  rewrite <- (segmentTop_shift ch rev len w (finalOffset ch rev len w) 3 Hch Hl).
  apply segmentTop_comp.
  rewrite (frameOffset_finished (plan ch rev r t0 s) now Hu).
  rewrite (plan_target ch rev r t0 s). reflexivity.
Qed.

Lemma winner_drawn_centred_witness :
  let a := plan 500 OffsetSubtracted (1 # 2) 0 demo in
  let items := currentItems demo in
  let w := Z.to_nat (Js.Math_floor ((1 # 2) * inject_Z (Z.of_nat (List.length items)))) in
  exists st : stripe,
    nth_error (drawWheelWithOffset 500 OffsetSubtracted items (frameOffset a 4100) Null) w
    = Some st
    /\ nth_error items w = Some (st_label st)
    /\ st_top st + st_height st / 2 == 500 / 2.
Proof.
  apply (winner_drawn_centred 500 OffsetSubtracted demo (1 # 2) 0 4100).
  - reflexivity.
  - discriminate.
  - unfold Qle; simpl; lia.
  - reflexivity.
  - reflexivity.
Defined.

Lemma square_nonneg (x : Q) : 0 <= x * x.
Proof. nra. Qed.

Lemma cube_le (u v : Q) : u <= v -> u * u * u <= v * v * v.
Proof.
  intros H.
  pose proof (square_nonneg (2 * u + v)) as Hs1.
  pose proof (square_nonneg v) as Hs2.
  assert (E : v * v * v - u * u * u
              == (v - u) * ((1 # 4) * ((2 * u + v) * (2 * u + v)) + (3 # 4) * (v * v)))
    by ring.
  remember ((2 * u + v) * (2 * u + v)) as a eqn:Ea.
  remember (v * v) as b eqn:Eb. clear Ea Eb.
  assert (Hab : 0 <= (1 # 4) * a + (3 # 4) * b) by lra.
  assert (Hd : 0 <= v - u) by lra.
  pose proof (Qmult_le_0_compat _ _ Hd Hab) as Hm.
  rewrite <- E in Hm. lra.
Qed.

(** X5: the eased offset never runs backwards and never overshoots: when
    the planned distance is not negative, the offset [animate] gives the
    wheel grows with the time of the frame, stays at or below the target
    [startOffset + distance], and stays at or above [startOffset] from the
    start time on. *)
Theorem easing_monotone_bounded (a : anim) (t1 t2 : Q) :
  0 <= an_distance a -> t1 <= t2 ->
  frameOffset a t1 <= frameOffset a t2
  /\ frameOffset a t2 <= an_startOffset a + an_distance a
  /\ (an_startTime a <= t1 -> an_startOffset a <= frameOffset a t1).
Proof.
  intros Hd Ht. unfold frameOffset, Js.pow3, duration.
  assert (He1 : 4000 * ((t1 - an_startTime a) / 4000) == t1 - an_startTime a)
    by field.
  assert (He2 : 4000 * ((t2 - an_startTime a) / 4000) == t2 - an_startTime a)
    by field.
  remember ((t1 - an_startTime a) / 4000) as e1 eqn:E1.
  remember ((t2 - an_startTime a) / 4000) as e2 eqn:E2. clear E1 E2.
  assert (Hp : Js.Math_min e1 1 <= Js.Math_min e2 1 /\ Js.Math_min e2 1 <= 1
               /\ (an_startTime a <= t1 -> 0 <= Js.Math_min e1 1)).
  { destruct (Math_min_cases e1 1) as [[H1 ->] | [H1 ->]];
      destruct (Math_min_cases e2 1) as [[H2 ->] | [H2 ->]];
      (split; [| split; [| intros ?]]); lra. }
  remember (Js.Math_min e1 1) as p1 eqn:P1.
  remember (Js.Math_min e2 1) as p2 eqn:P2. clear P1 P2.
  destruct Hp as (H12 & H21 & H0).
  pose proof (cube_le (1 - p2) (1 - p1) ltac:(lra)) as Hc.
  pose proof (cube_le 0 (1 - p2) ltac:(lra)) as Hc0.
  split; [| split].
  - nra.
  - nra.
  - intros Hs. specialize (H0 Hs).
    pose proof (cube_le (1 - p1) 1 ltac:(lra)) as Hc1. nra.
Qed.

Lemma easing_monotone_bounded_witness :
  let a := plan 500 OffsetAdded (1 # 2) 0 demo in
  frameOffset a 1000 <= frameOffset a 2500
  /\ frameOffset a 2500 <= an_startOffset a + an_distance a
  /\ (an_startTime a <= 1000 -> an_startOffset a <= frameOffset a 1000).
Proof.
  apply (easing_monotone_bounded (plan 500 OffsetAdded (1 # 2) 0 demo) 1000 2500).
  - unfold Qle; simpl; lia.
  - unfold Qle; simpl; lia.
Defined.

(** X6: a spin started with the wheel at offset 0 turns the wheel forward
    by more than two and a half and less than three and a half wheel
    heights, whatever the item drawn. *)
Theorem spin_distance (ch : Q) (rev : variant) (s : state) (r t0 : Q) :
  0 < ch -> currentItems s <> [] -> 0 <= r -> r < 1 ->
  currentOffset s == 0 ->
  let a := plan ch rev r t0 s in
  (5 # 2) * wheelHeight ch < an_distance a
  /\ an_distance a < (7 # 2) * wheelHeight ch.
Proof.
  intros Hch Hne H0 H1 Ho. cbn zeta.
  pose proof (wheelHeight_pos ch Hch) as Hm.
  pose proof (length_pos _ Hne) as Hl.
  pose proof (random_index_range r _ H0 H1 Hl) as Hw.
  set (len := Z.of_nat (List.length (currentItems s))) in *.
  set (w := Js.Math_floor (r * inject_Z len)) in *.
  pose proof (inject_Z_pos len Hl) as Hp.
  unfold plan. cbn [an_distance]. fold len. fold w. fold (wheelHeight ch).
  rewrite Ho.
  assert (Hw0 : 0 <= inject_Z w).
  { change 0 with (inject_Z 0). rewrite <- Zle_Qle. lia. }
  assert (Hw1 : inject_Z w + 1 <= inject_Z len).
  { change 1 with (inject_Z 1). rewrite <- inject_Z_plus, <- Zle_Qle. lia. }
  set (sg := wheelHeight ch / inject_Z len).
  assert (Hsg0 : 0 < sg) by (unfold sg; apply Qlt_shift_div_l; lra).
  assert (Hsg : sg * inject_Z len == wheelHeight ch) by (unfold sg; field; lra).
  assert (E : finalOffset ch rev len w
              == match rev with
                 | OffsetAdded => inject_Z w * sg + (1 # 2) * sg - (1 # 2) * wheelHeight ch
                 | OffsetSubtracted => (1 # 2) * wheelHeight ch - inject_Z w * sg - (1 # 2) * sg
                 end).
  { unfold finalOffset. fold (wheelHeight ch). fold sg. destruct rev; field. }
  rewrite E. destruct rev; split; nra.
Qed.

Lemma spin_distance_witness :
  let a := plan 500 OffsetAdded (9 # 10) 0 demo in
  (5 # 2) * wheelHeight 500 < an_distance a
  /\ an_distance a < (7 # 2) * wheelHeight 500.
Proof.
  apply (spin_distance 500 OffsetAdded demo (9 # 10) 0).
  - reflexivity.
  - discriminate.
  - unfold Qle; simpl; lia.
  - reflexivity.
  - reflexivity.
Defined.

(** ** What the frames never do *)

Lemma animate_flag_down (ch : Q) (rev : variant) (a : anim) (now : Q) (s : state) :
  isSpinning s = false ->
  ticks (trace (animate ch rev a now s)) = ticks (trace s)
  /\ isSpinning (animate ch rev a now s) = false.
Proof.
  intros Hs. unfold animate, settle, advance.
  destruct (unfinished _ _);
    cbn [trace isSpinning]; rewrite Hs, andb_false_r; auto.
Qed.

Lemma frame_flag_down (ch : Q) (rev : variant) (now : Q) (s : state) :
  isSpinning s = false ->
  ticks (trace (frame ch rev now s)) = ticks (trace s)
  /\ isSpinning (frame ch rev now s) = false.
Proof.
  intros Hs. unfold frame.
  change (trace s) with (trace (take_callbacks s)).
  assert (Hs' : isSpinning (take_callbacks s) = false) by exact Hs.
  revert Hs'. generalize (take_callbacks s) as st.
  induction (frameCallbacks s) as [| a l IH]; intros st Hst; simpl; auto.
  destruct (animate_flag_down ch rev a now st Hst) as [Ht Hf].
  destruct (IH _ Hf) as [Ht' Hf']. split; congruence.
Qed.

(** X7: while the flag [isSpinning] is down no tick sounds: whatever
    callbacks still wait (a spin cut short by reset or generate leaves
    its [animate] behind), the frames that run them call [playTickSound]
    not once, and they leave the flag down. *)
Theorem silent_while_flag_down (ch : Q) (rev : variant) (s : state) (ts : list Q) :
  isSpinning s = false ->
  let s' := run ch rev (map Frame ts) s in
  ticks (trace s') = ticks (trace s) /\ isSpinning s' = false.
Proof.
  revert s. induction ts as [| t ts IH]; intros s Hs; cbn zeta.
  - auto.
  - destruct (frame_flag_down ch rev t s Hs) as [Ht Hf].
    destruct (IH _ Hf) as [Ht' Hf'].
    change (run ch rev (map Frame (t :: ts)) s)
      with (run ch rev (map Frame ts) (frame ch rev t s)).
    split; congruence.
Qed.

Lemma silent_while_flag_down_witness :
  let s := run 500 OffsetAdded [Spin (1 # 2) 0; Frame 1000; Reset] demo in
  let s' := run 500 OffsetAdded (map Frame [2000; 3000; 4000]) s in
  ticks (trace s') = ticks (trace s) /\ isSpinning s' = false.
Proof.
  apply (silent_while_flag_down 500 OffsetAdded
           (run 500 OffsetAdded [Spin (1 # 2) 0; Frame 1000; Reset] demo)
           [2000; 3000; 4000]).
  reflexivity.
Defined.

(** ** The wheel only loses names *)

Lemma subseq_refl {A : Type} (l : list A) : subseq l l.
Proof. induction l; constructor; assumption. Qed.

Lemma subseq_trans {A : Type} (l m n : list A) :
  subseq l m -> subseq m n -> subseq l n.
Proof.
  intros H1 H2. revert l H1.
  induction H2 as [| x m n H2 IH | x m n H2 IH]; intros l H1.
  - exact H1.
  - inversion H1; subst.
    + constructor. apply IH. assumption.
    + apply subseq_skip. apply IH. assumption.
  - apply subseq_skip. apply IH. exact H1.
Qed.

Lemma subseq_remove {A : Type} (l : list A) (k : nat) :
  subseq (firstn k l ++ skipn (S k) l) l.
Proof.
  revert k. induction l as [| h t IH]; intros k.
  - destruct k; simpl; constructor.
  - destruct k as [| k]; simpl.
    + apply subseq_skip. destruct t; simpl; apply subseq_refl.
    + apply subseq_keep. apply IH.
Qed.

Lemma subseq_splice1 {A : Type} (l : list A) (i : jsindex) :
  subseq (splice1 l i) l.
Proof. unfold splice1. apply subseq_remove. Qed.

Lemma animate_items (ch : Q) (rev : variant) (a : anim) (now : Q) (s : state) :
  subseq (currentItems (animate ch rev a now s)) (currentItems s).
Proof.
  unfold animate. destruct (unfinished _ _).
  - apply subseq_refl.
  - apply subseq_splice1.
Qed.

Lemma frame_items (ch : Q) (rev : variant) (now : Q) (s : state) :
  subseq (currentItems (frame ch rev now s)) (currentItems s).
Proof.
  unfold frame.
  change (currentItems s) with (currentItems (take_callbacks s)).
  generalize (take_callbacks s) as st.
  induction (frameCallbacks s) as [| a l IH]; intros st; simpl.
  - apply subseq_refl.
  - eapply subseq_trans; [apply IH | apply animate_items].
Qed.

(** X8: the wheel only ever loses names: in every run of clicks and
    frames, interleaved in any way, [currentItems] stays a sub-sequence of
    [originalItems] (names of the list captured by generate, in its order),
    provided it was one at the start, as it is on a fresh page. *)
Theorem items_from_original (ch : Q) (rev : variant) (acts : list action) (s : state) :
  subseq (currentItems s) (originalItems s) ->
  subseq (currentItems (run ch rev acts s)) (originalItems (run ch rev acts s)).
Proof.
  revert s. induction acts as [| act acts IH]; intros s H; [exact H |].
  change (run ch rev (act :: acts) s) with (run ch rev acts (step ch rev s act)).
  apply IH. destruct act as [input random | r now | | now]; simpl.
  - unfold generate. destruct (_ =? _)%nat; [exact H | apply subseq_refl].
  - unfold spinWheel. destruct (_ || _); exact H.
  - unfold reset. destruct (_ =? _)%nat; [exact H | apply subseq_refl].
  - rewrite frame_originalItems.
    eapply subseq_trans; [apply frame_items | exact H].
Qed.

Lemma items_from_original_witness :
  let acts :=
    [Generate ["A"; "B"; "C"; "D"]%string (fun _ => 1 # 3);
     Spin (1 # 2) 0; Frame 1000; Reset; Spin (3 # 4) 1500;
     Frame 4000; Frame 5500; Spin 0 6000; Frame 10000] in
  subseq (currentItems (run 500 OffsetAdded acts initial))
         (originalItems (run 500 OffsetAdded acts initial)).
Proof.
  apply (items_from_original 500 OffsetAdded
           [Generate ["A"; "B"; "C"; "D"]%string (fun _ => 1 # 3);
            Spin (1 # 2) 0; Frame 1000; Reset; Spin (3 # 4) 1500;
            Frame 4000; Frame 5500; Spin 0 6000; Frame 10000] initial).
  constructor.
Defined.

Lemma array_set_nth_eq (array : list string) (i : nat) (x : string) :
  (i < List.length array)%nat -> nth_error (array_set array i x) i = Some x.
Proof.
  revert i. induction array as [| h t IH]; intros [| i] H; simpl in *;
    try lia; [reflexivity |].
  apply IH. lia.
Qed.

Lemma array_set_nth_neq (array : list string) (i k : nat) (x : string) :
  i <> k -> nth_error (array_set array i x) k = nth_error array k.
Proof.
  revert i k. induction array as [| h t IH]; intros [| i] [| k] H; simpl;
    try reflexivity; try congruence.
  apply IH. congruence.
Qed.

Lemma shuffle_from_ext (r1 r2 : nat -> Q) (i calls : nat) (array : list string) :
  (forall k, (calls <= k)%nat -> r1 k = r2 k) ->
  shuffle_from r1 calls i array = shuffle_from r2 calls i array.
Proof.
  revert calls array. induction i as [| i IH]; intros calls array H; simpl;
    [reflexivity |].
  rewrite (H calls (le_n _)). apply IH. intros k Hk. apply H. lia.
Qed.

(** The draw that makes [Math.floor(Math.random() * n)] the index [j]. *)
Lemma draw_for_index (j n : nat) :
  (j < n)%nat ->
  let r := inject_Z (2 * Z.of_nat j + 1) / inject_Z (2 * Z.of_nat n) in
  0 <= r /\ r < 1 /\ Js.Math_floor (r * inject_Z (Z.of_nat n)) = Z.of_nat j.
Proof.
  intros Hj. cbn zeta.
  assert (Hn : 0 < inject_Z (Z.of_nat n)) by (apply inject_Z_pos; lia).
  assert (Hjn : inject_Z (Z.of_nat j) + 1 <= inject_Z (Z.of_nat n)).
  { change 1 with (inject_Z 1). rewrite <- inject_Z_plus, <- Zle_Qle. lia. }
  assert (Hj0 : 0 <= inject_Z (Z.of_nat j)).
  { change 0 with (inject_Z 0). rewrite <- Zle_Qle. lia. }
  assert (E2 : inject_Z (2 * Z.of_nat n) == 2 * inject_Z (Z.of_nat n))
    by (rewrite inject_Z_mult; reflexivity).
  assert (E1 : inject_Z (2 * Z.of_nat j + 1) == 2 * inject_Z (Z.of_nat j) + 1)
    by (rewrite inject_Z_plus, inject_Z_mult; reflexivity).
  remember (inject_Z (Z.of_nat n)) as N eqn:EN.
  remember (inject_Z (Z.of_nat j)) as J eqn:EJ.
  assert (Er : inject_Z (2 * Z.of_nat j + 1) / inject_Z (2 * Z.of_nat n)
               == (2 * J + 1) / (2 * N)).
  { rewrite E1, E2. reflexivity. }
  assert (Hprod : (2 * J + 1) / (2 * N) * N == J + (1 # 2)).
  { field. lra. }
  split; [| split].
  - rewrite Er. apply Qle_shift_div_l; lra.
  - rewrite Er. apply Qlt_shift_div_r; lra.
  - unfold Js.Math_floor.
    rewrite (Qfloor_comp _ (J + (1 # 2))) by (rewrite Er; exact Hprod).
    subst J. apply floor_unique.
    + lra.
    + rewrite inject_Z_plus. change (inject_Z 1) with 1. lra.
Qed.

(** One turn of the loop of [shuffleArray] can bring any of the first
    [i + 1] elements to position [i]; the elements behind stay. *)
Lemma swap_brings (pre suf : list string) (i j : nat) (z : string) :
  List.length pre = S i -> nth_error pre j = Some z ->
  exists l1 : list string,
    swap (pre ++ suf) i (Z.of_nat j) = (l1 ++ z :: suf)%list
    /\ Permutation (l1 ++ [z]) pre.
Proof.
  intros Hlen Hj.
  assert (Hjlt : (j < List.length pre)%nat) by (apply nth_error_Some; congruence).
  destruct (nth_error pre i) as [ai |] eqn:Hi;
    [| apply nth_error_None in Hi; lia].
  set (array := (pre ++ suf)%list).
  assert (Hai : nth_error array i = Some ai).
  { unfold array. rewrite nth_error_app1 by lia. exact Hi. }
  assert (Hz : array_get array (Num (Z.of_nat j)) = Some z).
  { unfold array_get. destruct (Z.ltb_spec (Z.of_nat j) 0); [lia |].
    rewrite Nat2Z.id. unfold array. rewrite nth_error_app1 by lia. exact Hj. }
  assert (Hlen' : List.length array = (S i + List.length suf)%nat).
  { unfold array. rewrite length_app. lia. }
  assert (Hsw : swap array i (Z.of_nat j)
                = array_set (array_set array i z) j ai).
  { unfold swap. rewrite Hai, Hz, Nat2Z.id. reflexivity. }
  assert (Hat : nth_error (swap array i (Z.of_nat j)) i = Some z).
  { rewrite Hsw. destruct (Nat.eq_dec j i) as [-> | Hne].
    - assert (ai = z) by congruence. subst ai.
      apply array_set_nth_eq. rewrite array_set_length. lia.
    - rewrite array_set_nth_neq by exact Hne.
      apply array_set_nth_eq. lia. }
  assert (Hbehind : skipn (S i) (swap array i (Z.of_nat j)) = suf).
  { apply nth_error_ext. intros k. rewrite nth_error_skipn, Hsw.
    rewrite !array_set_nth_neq by lia.
    unfold array. rewrite nth_error_app2 by lia.
    f_equal. lia. }
  destruct (nth_error_split _ _ Hat) as (l1 & l2 & Hsplit & Hl1).
  assert (Hl2 : l2 = suf).
  { rewrite <- Hbehind, Hsplit. rewrite skipn_app, Hl1.
    rewrite skipn_all2 by lia. replace (S i - i)%nat with 1%nat by lia.
    reflexivity. }
  subst l2. exists l1. split; [exact Hsplit |].
  pose proof (swap_Permutation array i (Z.of_nat j)) as Hp.
  rewrite Hsplit in Hp. unfold array in Hp.
  apply (Permutation_app_inv_r suf).
  rewrite <- app_assoc. exact Hp.
Qed.

Lemma shuffle_from_reaches (i : nat) :
  forall (calls : nat) (pre suf target : list string),
    List.length pre = S i -> Permutation target pre ->
    exists random : nat -> Q,
      (forall k, 0 <= random k /\ random k < 1)
      /\ shuffle_from random calls i (pre ++ suf) = (target ++ suf)%list.
Proof.
  induction i as [| i IH]; intros calls pre suf target Hlen Hperm.
  - exists (fun _ => 0). split; [intros k; split; lra |].
    destruct pre as [| a [| b pre]]; try discriminate.
    apply Permutation_sym, Permutation_length_1_inv in Hperm. subst target.
    reflexivity.
  - assert (Htl : List.length target = S (S i))
      by (rewrite (Permutation_length Hperm); exact Hlen).
    destruct (exists_last (l := target)) as (q & z & Htarget);
      [intros ->; discriminate |].
    subst target.
    assert (Hin : In z pre).
    { apply (Permutation_in z Hperm), in_or_app. right. left. reflexivity. }
    destruct (In_nth_error _ _ Hin) as [j Hj].
    assert (Hjlt : (j < S i + 1)%nat).
    { assert (j < List.length pre)%nat by (apply nth_error_Some; congruence). lia. }
    destruct (draw_for_index j (S i + 1) Hjlt) as (Hr0 & Hr1 & Hfloor).
    set (r := inject_Z (2 * Z.of_nat j + 1) / inject_Z (2 * Z.of_nat (S i + 1))) in *.
    destruct (swap_brings pre suf (S i) j z Hlen Hj) as (l1 & Hswap & Hl1).
    assert (Hl1len : List.length l1 = S i).
    { apply Permutation_length in Hl1. rewrite length_app in Hl1. simpl in Hl1. lia. }
    assert (Hq : Permutation q l1).
    { apply (Permutation_app_inv_r [z]).
      rewrite Hperm. symmetry. exact Hl1. }
    destruct (IH (S calls) l1 (z :: suf) q Hl1len Hq) as (random' & Hok & Hrest).
    exists (fun k => if (k =? calls)%nat then r else random' k). split.
    + intros k. destruct (k =? calls)%nat; [split; assumption | apply Hok].
    + cbn [shuffle_from]. rewrite Nat.eqb_refl, Hfloor, Hswap.
      rewrite (shuffle_from_ext _ random').
      * rewrite Hrest, <- app_assoc. reflexivity.
      * intros k Hk. destruct (Nat.eqb_spec k calls); [lia | reflexivity].
Qed.

(** X9: [shuffleArray] can produce every order and nothing else: the
    shuffled array is a rearrangement of the array given, and for every
    rearrangement there are values of [Math.random()], all in [0, 1),
    with which [shuffleArray] produces it. *)
Theorem shuffleArray_every_order (array target : list string) :
  Permutation target array ->
  (forall random, Permutation (shuffleArray random array) array)
  /\ exists random : nat -> Q,
       (forall k, 0 <= random k /\ random k < 1)
       /\ shuffleArray random array = target.
Proof.
  intros Hperm. split; [intros random; apply shuffleArray_Permutation |].
  destruct array as [| a array].
  - apply Permutation_sym, Permutation_nil in Hperm. subst target.
    exists (fun _ => 0). split; [intros k; split; lra | reflexivity].
  - destruct (shuffle_from_reaches (List.length array) 0 (a :: array) [] target
                eq_refl Hperm) as (random & Hok & Hres).
    exists random. split; [exact Hok |].
    rewrite !app_nil_r in Hres. unfold shuffleArray.
    replace (List.length (a :: array) - 1)%nat with (List.length array)
      by (cbn [List.length]; lia).
    exact Hres.
Qed.

Lemma shuffleArray_every_order_witness :
  (forall random,
      Permutation (shuffleArray random ["A"; "B"; "C"]%string)
                  ["A"; "B"; "C"]%string)
  /\ exists random : nat -> Q,
       (forall k, 0 <= random k /\ random k < 1)
       /\ shuffleArray random ["A"; "B"; "C"]%string = ["C"; "A"; "B"]%string.
Proof.
  apply (shuffleArray_every_order ["A"; "B"; "C"]%string ["C"; "A"; "B"]%string).
  apply Permutation_sym.
  apply (perm_trans (l' := ["A"; "C"; "B"]%string)).
  - apply perm_skip, perm_swap.
  - apply perm_swap.
Defined.

(** ** trim and split *)

Lemma trimStart_head (s : string) :
  match trimStart s with
  | EmptyString => True
  | String c _ => is_space c = false
  end.
Proof.
  induction s as [| c r IH]; simpl; auto.
  destruct (is_space c) eqn:E; auto.
Qed.

Lemma trimStart_fixed (s : string) :
  match s with
  | EmptyString => True
  | String c _ => is_space c = false
  end ->
  trimStart s = s.
Proof. destruct s as [| c r]; simpl; auto. intros ->. reflexivity. Qed.

Lemma trimEnd_head (c : ascii) (r : string) :
  is_space c = false -> trimEnd (String c r) = String c (trimEnd r).
Proof. intros H. simpl. rewrite H. destruct (trimEnd r); reflexivity. Qed.

Lemma trimEnd_idempotent (s : string) : trimEnd (trimEnd s) = trimEnd s.
Proof.
  induction s as [| c r IH]; simpl; auto.
  destruct (trimEnd r) as [| d t] eqn:E.
  - destruct (is_space c) eqn:Ec; simpl; auto. rewrite Ec. reflexivity.
  - change (trimEnd (String c (String d t))) with
      (match trimEnd (String d t) with
       | EmptyString => if is_space c then EmptyString else String c EmptyString
       | r' => String c r'
       end).
    rewrite IH. reflexivity.
Qed.

Lemma trim_head (s : string) :
  match trim s with
  | EmptyString => True
  | String c _ => is_space c = false
  end.
Proof.
  unfold trim. pose proof (trimStart_head s) as H.
  destruct (trimStart s) as [| c r]; simpl; auto.
  rewrite H. destruct (trimEnd r); exact H.
Qed.

Lemma trim_idempotent (s : string) : trim (trim s) = trim s.
Proof.
  unfold trim at 1. rewrite (trimStart_fixed (trim s) (trim_head s)).
  unfold trim. apply trimEnd_idempotent.
Qed.

Lemma trimStart_chars (s : string) (c : ascii) :
  In c (chars (trimStart s)) -> In c (chars s).
Proof.
  induction s as [| d r IH]; simpl; auto.
  destruct (is_space d); simpl; auto.
Qed.

Lemma trimEnd_chars (s : string) (c : ascii) :
  In c (chars (trimEnd s)) -> In c (chars s).
Proof.
  induction s as [| d r IH]; simpl; auto.
  destruct (trimEnd r) as [| e t].
  - destruct (is_space d); simpl; [intros [] | intros [H | []]; auto].
  - simpl. intros [H | H]; auto.
Qed.

Lemma trim_chars (s : string) (c : ascii) :
  In c (chars (trim s)) -> In c (chars s).
Proof. intros H. apply trimStart_chars, trimEnd_chars, H. Qed.

Lemma split_from_pieces (skipping : bool) (s : string) :
  split_from skipping s <> []
  /\ Forall (fun piece => forall c, In c (chars piece) -> is_separator c = false)
            (split_from skipping s).
Proof.
  revert skipping. induction s as [| c r IH]; intros skipping; simpl.
  - split; [discriminate |]. constructor; [| constructor]. intros c [].
  - destruct (is_separator c) eqn:E.
    + destruct skipping.
      * apply IH.
      * split; [discriminate |]. constructor; [intros d [] | apply IH].
    + destruct (IH false) as [Hne Hall].
      destruct (split_from false r) as [| piece pieces]; [congruence |].
      split; [discriminate |].
      inversion Hall as [| ? ? Hp Hps]; subst.
      constructor; [| exact Hps].
      intros d [<- | Hd]; [exact E | apply Hp, Hd].
Qed.

Lemma length_pos_nonempty (s : string) :
  (0 <? String.length s)%nat = true <-> s <> EmptyString.
Proof.
  destruct s; simpl; split; intros H; try discriminate; try congruence; auto.
Qed.

(** X10: what [parseInput] returns: every entry is non-empty, holds no
    comma and no line feed, and has no white space left at either end
    (trimming it again changes nothing). *)
Theorem parseInput_entries (raw entry : string) :
  In entry (parseInput raw) ->
  entry <> EmptyString
  /\ trim entry = entry
  /\ (forall c, In c (chars entry) -> is_separator c = false).
Proof.
  unfold parseInput. intros H. apply filter_In in H as [Hin Hlen].
  apply in_map_iff in Hin as (piece & <- & Hp).
  split; [apply length_pos_nonempty, Hlen |].
  split; [apply trim_idempotent |].
  intros c Hc. apply trim_chars in Hc.
  destruct (split_from_pieces false raw) as [_ Hall].
  rewrite Forall_forall in Hall. exact (Hall piece Hp c Hc).
Qed.

Lemma parseInput_trimmed (raw entry : string) :
  In entry (parseInput raw) -> entry <> EmptyString /\ trim entry = entry.
Proof.
  unfold parseInput. intros H. apply filter_In in H as [Hin Hlen].
  apply in_map_iff in Hin as (piece & <- & Hp).
  split; [apply length_pos_nonempty, Hlen | apply trim_idempotent].
Qed.

Lemma parseInput_entries_witness :
  "Bob"%string <> EmptyString
  /\ trim "Bob" = "Bob"%string
  /\ (forall c, In c (chars "Bob") -> is_separator c = false).
Proof.
  apply (parseInput_entries " Ann,, Bob ,"%string "Bob"%string).
  vm_compute. right. left. reflexivity.
Defined.

(** ** The tags *)

Lemma existsb_eqb_In (t : string) (l : list string) :
  existsb (String.eqb t) l = true <-> In t l.
Proof.
  rewrite existsb_exists. split.
  - intros (x & Hx & E). apply String.eqb_eq in E. subst. exact Hx.
  - intros H. exists t. split; [exact H | apply String.eqb_refl].
Qed.

Lemma addTag_cases (tagText : string) (namesTags : list string) :
  (addTag tagText namesTags = namesTags
   /\ (trim tagText = EmptyString \/ In (trim tagText) namesTags))
  \/ (addTag tagText namesTags = (namesTags ++ [trim tagText])%list
      /\ trim tagText <> EmptyString /\ ~ In (trim tagText) namesTags).
Proof.
  unfold addTag. destruct (String.eqb_spec (trim tagText) "") as [E | E].
  - left. simpl. auto.
  - destruct (existsb (String.eqb (trim tagText)) namesTags) eqn:F; simpl.
    + left. split; auto. right. apply existsb_eqb_In, F.
    + right. repeat split; auto. intros H. apply existsb_eqb_In in H. congruence.
Qed.

Lemma subseq_In {A : Type} (l m : list A) (x : A) :
  subseq l m -> In x l -> In x m.
Proof.
  induction 1 as [| y l m H IH | y l m H IH]; simpl; auto.
  intros [E | Hin]; auto.
Qed.

Lemma subseq_NoDup {A : Type} (l m : list A) :
  subseq l m -> NoDup m -> NoDup l.
Proof.
  induction 1 as [| y l m H IH | y l m H IH]; intros Hm; auto.
  - inversion Hm; subst. constructor; auto.
    intros Hin. apply (subseq_In _ _ _ H) in Hin. contradiction.
  - inversion Hm; subst. auto.
Qed.

Lemma subseq_Forall {A : Type} (P : A -> Prop) (l m : list A) :
  subseq l m -> Forall P m -> Forall P l.
Proof.
  induction 1 as [| y l m H IH | y l m H IH]; intros Hm; auto;
    inversion Hm; subst; auto.
Qed.

Lemma removeTag_subseq (index : Z) (namesTags : list string) :
  subseq (removeTag index namesTags) namesTags.
Proof.
  unfold removeTag. destruct (_ && _).
  - unfold splice1. apply subseq_remove.
  - apply subseq_refl.
Qed.

Lemma addTag_tidy (tagText : string) (namesTags : list string) :
  NoDup namesTags /\ Forall clean namesTags ->
  NoDup (addTag tagText namesTags) /\ Forall clean (addTag tagText namesTags).
Proof.
  intros [Hn Hc].
  destruct (addTag_cases tagText namesTags) as [[-> _] | (-> & Hne & Hnin)]; auto.
  split.
  - apply NoDup_app; [exact Hn | repeat constructor; intros [] | ].
    intros x Hx [<- | []]. contradiction.
  - apply Forall_app. split; [exact Hc |].
    constructor; [| constructor]. split; [exact Hne | apply trim_idempotent].
Qed.

Lemma parseAndAddTags_tidy (text : string) (namesTags : list string) :
  NoDup namesTags /\ Forall clean namesTags ->
  NoDup (parseAndAddTags text namesTags)
  /\ Forall clean (parseAndAddTags text namesTags).
Proof.
  unfold parseAndAddTags. revert namesTags.
  induction (parseInput text) as [| item items IH]; intros namesTags H; simpl; auto.
  apply IH, addTag_tidy, H.
Qed.

(** X11: the tags stay tidy: whatever the user types, pastes, removes or
    clears, starting from a list with this property (the empty list of a
    fresh page has it), the tags are pairwise different, none is empty and
    none has white space at either end. *)
Theorem tags_stay_tidy (acts : list tag_action) (namesTags : list string) :
  NoDup namesTags /\ Forall clean namesTags ->
  NoDup (tag_run acts namesTags) /\ Forall clean (tag_run acts namesTags).
Proof.
  revert namesTags. induction acts as [| act acts IH]; intros namesTags H; [exact H |].
  change (tag_run (act :: acts) namesTags) with (tag_run acts (tag_step namesTags act)).
  apply IH. destruct act as [value | index | text |]; simpl.
  - destruct (_ <? _)%nat; [apply addTag_tidy, H | exact H].
  - destruct H as [Hn Hc]. split.
    + apply (subseq_NoDup _ _ (removeTag_subseq index namesTags) Hn).
    + apply (subseq_Forall _ _ _ (removeTag_subseq index namesTags) Hc).
  - apply parseAndAddTags_tidy, H.
  - split; constructor.
Qed.

Lemma tags_stay_tidy_witness :
  let acts := [EnterKey " Ann "; Paste "Bob,Ann , Cy"; RemoveTagAt 0;
               EnterKey "Bob"; EnterKey "  "]%string in
  NoDup (tag_run acts []) /\ Forall clean (tag_run acts []).
Proof.
  apply (tags_stay_tidy
           [EnterKey " Ann "; Paste "Bob,Ann , Cy"; RemoveTagAt 0;
            EnterKey "Bob"; EnterKey "  "]%string []).
  split; constructor.
Defined.

(** X12: a name is added once: adding a tag, then a text that trims to
    the same name, leaves the list as the first addition made it. *)
Theorem addTag_once (a b : string) (namesTags : list string) :
  trim a = trim b ->
  addTag a (addTag b namesTags) = addTag b namesTags.
Proof.
  intros E.
  destruct (addTag_cases b namesTags) as [[Hb Hw] | (Hb & Hne & Hnin)]; rewrite Hb.
  - unfold addTag in *. rewrite E. exact Hb.
  - destruct (addTag_cases a (namesTags ++ [trim b])) as [[Ha _] | (_ & _ & Hn)].
    + exact Ha.
    + exfalso. apply Hn. rewrite E. apply in_or_app. right. left. reflexivity.
Qed.

Lemma addTag_once_witness :
  addTag "  Ann" (addTag "Ann " ["Bob"]%string) = addTag "Ann " ["Bob"]%string.
Proof.
  apply (addTag_once "  Ann" "Ann " ["Bob"]%string).
  reflexivity.
Defined.

Lemma fold_addTag (items namesTags : list string) :
  exists added : list string,
    fold_left (fun tags item => addTag item tags) items namesTags
    = (namesTags ++ added)%list
    /\ (forall x, In x added -> exists item, In item items /\ x = trim item)
    /\ (forall item, In item items -> trim item <> EmptyString ->
                     In (trim item) (namesTags ++ added)).
Proof.
  revert namesTags. induction items as [| item items IH]; intros namesTags; simpl.
  - exists []. rewrite app_nil_r. repeat split; intros; contradiction.
  - destruct (IH (addTag item namesTags)) as (added & Heq & Hfrom & Hall).
    destruct (addTag_cases item namesTags) as [[Ha Hw] | (Ha & Hne & Hnin)];
      rewrite Ha in *.
    + exists added. split; [exact Heq |]. split.
      * intros x Hx. destruct (Hfrom x Hx) as (it & Hit & ->). eauto.
      * intros it [<- | Hit] Hn; [| apply Hall; assumption].
        destruct Hw as [Hw | Hw]; [contradiction |].
        apply in_or_app. left. exact Hw.
    + exists (trim item :: added). rewrite <- app_assoc in Heq. split; [exact Heq |].
      split.
      * intros x [<- | Hx]; [eauto |].
        destruct (Hfrom x Hx) as (it & Hit & ->). eauto.
      * intros it [<- | Hit] Hn.
        -- apply in_or_app. right. left. reflexivity.
        -- specialize (Hall it Hit Hn). rewrite <- app_assoc in Hall. exact Hall.
Qed.

(** X13: pasting only appends: the tags present before a paste stay where
    they are, in their order, every tag added is an entry of the parsed
    text, and every entry of the parsed text is among the tags afterwards
    (added, or present already). *)
Theorem paste_appends (text : string) (namesTags : list string) :
  exists added : list string,
    parseAndAddTags text namesTags = (namesTags ++ added)%list
    /\ (forall x, In x added -> In x (parseInput text))
    /\ (forall x, In x (parseInput text) -> In x (parseAndAddTags text namesTags)).
Proof.
  unfold parseAndAddTags.
  destruct (fold_addTag (parseInput text) namesTags) as (added & Heq & Hfrom & Hall).
  exists added. split; [exact Heq |]. split.
  - intros x Hx. destruct (Hfrom x Hx) as (item & Hit & ->).
    destruct (parseInput_trimmed text item Hit) as [_ ->]. exact Hit.
  - intros x Hx. rewrite Heq.
    destruct (parseInput_trimmed text x Hx) as [Hne Ht].
    rewrite <- Ht. apply Hall; [exact Hx | rewrite Ht; exact Hne].
Qed.

(** X14: removing a tag removes that tag and nothing else: with pairwise
    different tags and an index inside the list, the tag at the index is
    gone, every other tag is still there and the list is one shorter; an
    index outside the list changes nothing. *)
Theorem removeTag_effect (index : Z) (tag : string) (namesTags : list string) (outside : Z) :
  NoDup namesTags ->
  (0 <= index)%Z -> nth_error namesTags (Z.to_nat index) = Some tag ->
  (outside < 0 \/ Z.of_nat (List.length namesTags) <= outside)%Z ->
  let rest := removeTag index namesTags in
  ~ In tag rest
  /\ (forall x, In x namesTags -> x <> tag -> In x rest)
  /\ S (List.length rest) = List.length namesTags
  /\ removeTag outside namesTags = namesTags.
Proof.
  intros Hn H0 Hnth Hout. cbn zeta.
  assert (Hno : removeTag outside namesTags = namesTags).
  { unfold removeTag.
    destruct (Z.leb_spec 0 outside);
      destruct (Z.ltb_spec outside (Z.of_nat (List.length namesTags)));
      cbn [andb]; try reflexivity. lia. }
  assert (Hlt : (Z.to_nat index < List.length namesTags)%nat).
  { apply nth_error_Some. congruence. }
  assert (Hr : removeTag index namesTags
               = (firstn (Z.to_nat index) namesTags
                  ++ skipn (S (Z.to_nat index)) namesTags)%list).
  { unfold removeTag.
    destruct (Z.leb_spec 0 index); [| lia].
    destruct (Z.ltb_spec index (Z.of_nat (List.length namesTags))); [| lia].
    cbn [andb]. apply splice1_Num. lia. }
  rewrite Hr.
  pose proof (nth_error_split namesTags (Z.to_nat index) Hnth) as (l1 & l2 & Hs & Hl).
  assert (Hf : firstn (Z.to_nat index) namesTags = l1).
  { rewrite Hs, <- Hl. rewrite firstn_app, Nat.sub_diag, firstn_all. simpl.
    apply app_nil_r. }
  assert (Hk : skipn (S (Z.to_nat index)) namesTags = l2).
  { rewrite Hs, <- Hl.
    change (l1 ++ tag :: l2)%list with (l1 ++ [tag] ++ l2)%list.
    rewrite app_assoc.
    replace (S (List.length l1)) with (List.length (l1 ++ [tag])%list)
      by (rewrite length_app; simpl; lia).
    rewrite skipn_app, Nat.sub_diag, skipn_all. reflexivity. }
  rewrite Hf, Hk. rewrite Hs in Hn.
  apply NoDup_remove in Hn as [_ Hnin].
  split; [exact Hnin |]. split; [| split].
  - intros x Hx Hne. rewrite Hs in Hx.
    apply in_app_or in Hx as [Hx | [Hx | Hx]].
    + apply in_or_app. left. exact Hx.
    + congruence.
    + apply in_or_app. right. exact Hx.
  - rewrite Hs, !length_app. simpl. lia.
  - exact Hno.
Qed.

Lemma removeTag_effect_witness :
  let rest := removeTag 1 ["Ann"; "Bob"; "Cy"]%string in
  ~ In "Bob"%string rest
  /\ (forall x, In x ["Ann"; "Bob"; "Cy"]%string -> x <> "Bob"%string -> In x rest)
  /\ S (List.length rest) = List.length ["Ann"; "Bob"; "Cy"]%string
  /\ removeTag 3 ["Ann"; "Bob"; "Cy"]%string = ["Ann"; "Bob"; "Cy"]%string.
Proof.
  apply (removeTag_effect 1 "Bob" ["Ann"; "Bob"; "Cy"]%string 3).
  - repeat constructor; simpl; intuition discriminate.
  - lia.
  - reflexivity.
  - right. simpl. lia.
Defined.

(** ** The wheel survives a reload *)

Lemma animate_stored_fst (ch : Q) (rev : variant) (a : anim) (now : Q)
      (p : state * localStorage) :
  fst (animate_stored ch rev a now p) = animate ch rev a now (fst p).
Proof. unfold animate_stored. destruct (unfinished _ _); reflexivity. Qed.

Lemma frame_stored_fst (ch : Q) (rev : variant) (now : Q) (p : state * localStorage) :
  fst (frame_stored ch rev now p) = frame ch rev now (fst p).
Proof.
  unfold frame_stored, frame.
  generalize (snd p) as ls. generalize (take_callbacks (fst p)) as st.
  induction (frameCallbacks (fst p)) as [| a l IH]; intros st ls; simpl; auto.
  destruct (animate_stored ch rev a now (st, ls)) as [st' ls'] eqn:E.
  rewrite IH. f_equal.
  change st' with (fst (st', ls')). rewrite <- E. apply animate_stored_fst.
Qed.

Lemma step_stored_fst (ch : Q) (rev : variant) (p : state * localStorage) (act : action) :
  fst (step_stored ch rev p act) = step ch rev (fst p) act.
Proof.
  destruct act as [input random | r now | | now]; simpl.
  - unfold generate_stored, generate. destruct (_ =? _)%nat; reflexivity.
  - reflexivity.
  - unfold reset_stored, reset. destruct (_ =? _)%nat; reflexivity.
  - apply frame_stored_fst.
Qed.

(** The handlers with the storage change the variables as the handlers
    without it do. *)
Lemma run_stored_fst (ch : Q) (rev : variant) (acts : list action)
      (p : state * localStorage) :
  fst (run_stored ch rev acts p) = run ch rev acts (fst p).
Proof.
  revert p. induction acts as [| act acts IH]; intros p; [reflexivity |].
  change (run_stored ch rev (act :: acts) p)
    with (run_stored ch rev acts (step_stored ch rev p act)).
  rewrite IH, step_stored_fst. reflexivity.
Qed.


Lemma saveWheelState_mirrored (s : state) (ls : localStorage) :
  (currentItems s = [] -> parsed_or (ls_currentItems ls) [] = [])
  -> (originalItems s = [] -> parsed_or (ls_originalItems ls) [] = [])
  -> mirrored (s, saveWheelState s ls).
Proof.
  intros Hc Ho. unfold mirrored, saveWheelState. cbn [fst snd].
  destruct (currentItems s) as [| c cs] eqn:Ec;
    destruct (originalItems s) as [| o os] eqn:Eo; simpl; auto.
Qed.

Lemma animate_stored_mirrored (ch : Q) (rev : variant) (a : anim) (now : Q)
      (p : state * localStorage) :
  mirrored p -> mirrored (animate_stored ch rev a now p).
Proof.
  intros [Hc Ho]. unfold animate_stored.
  destruct (unfinished (an_startTime a) now) eqn:Hu.
  - unfold mirrored. cbn [fst snd]. unfold animate. rewrite Hu.
    cbn [currentItems originalItems]. split; assumption.
  - assert (Hor : originalItems (animate ch rev a now (fst p)) = originalItems (fst p))
      by apply animate_originalItems.
    apply saveWheelState_mirrored.
    + intros E. rewrite E. reflexivity.
    + intros E. rewrite Hor in E.
      destruct (0 <? _)%nat; cbn [clearWheelState ls_originalItems]; [| reflexivity].
      rewrite Ho. exact E.
Qed.

Lemma frame_stored_mirrored (ch : Q) (rev : variant) (now : Q)
      (p : state * localStorage) :
  mirrored p -> mirrored (frame_stored ch rev now p).
Proof.
  intros H. unfold frame_stored.
  assert (H' : mirrored (take_callbacks (fst p), snd p)) by exact H.
  revert H'. generalize (take_callbacks (fst p), snd p) as q.
  induction (frameCallbacks (fst p)) as [| a l IH]; intros q Hq; simpl; auto.
  apply IH, animate_stored_mirrored, Hq.
Qed.

Lemma step_stored_mirrored (ch : Q) (rev : variant) (p : state * localStorage)
      (act : action) :
  mirrored p -> mirrored (step_stored ch rev p act).
Proof.
  intros H. destruct act as [input random | r now | | now]; simpl.
  - unfold generate_stored. destruct (Nat.eqb_spec (List.length input) 0) as [E | E]; auto.
    apply saveWheelState_mirrored; unfold generate;
      (destruct (Nat.eqb_spec (List.length input) 0); [lia |]);
      cbn [currentItems originalItems]; intros Hs;
      apply (f_equal (@List.length string)) in Hs;
      rewrite shuffleArray_length in Hs; simpl in Hs; lia.
  - destruct H as [Hc Ho]. unfold mirrored, spinWheel. cbn [fst snd].
    destruct (_ || _); cbn [currentItems originalItems]; split; assumption.
  - unfold reset_stored.
    destruct (Nat.eqb_spec (List.length (originalItems (fst p))) 0) as [E | E]; auto.
    apply saveWheelState_mirrored; unfold reset;
      (destruct (Nat.eqb_spec (List.length (originalItems (fst p))) 0); [lia |]);
      cbn [currentItems originalItems]; intros Hs; rewrite Hs in E; simpl in E; lia.
  - apply frame_stored_mirrored, H.
Qed.

Lemma page_load_mirrored (ls : localStorage) : mirrored (page_load ls).
Proof.
  unfold mirrored, page_load, loadWheelState. cbn [fst snd currentItems originalItems initial].
  split; reflexivity.
Qed.

(** X15: the wheel survives a reload: whatever clicks and frames the page
    has seen since it was loaded, in any order, the lists kept in
    [localStorage] are at every moment the lists of the page, so that a
    script started on that storage finds [currentItems] and
    [originalItems] as they were; also after the last name has gone. *)
Theorem wheel_survives_reload (ch : Q) (rev : variant) (ls : localStorage)
        (acts : list action) :
  let p := run_stored ch rev acts (page_load ls) in
  fst p = run ch rev acts (loadWheelState ls initial)
  /\ currentItems (fst (page_load (snd p))) = currentItems (fst p)
  /\ originalItems (fst (page_load (snd p))) = originalItems (fst p).
Proof.
  cbn zeta. split; [apply run_stored_fst |].
  assert (H : mirrored (run_stored ch rev acts (page_load ls))).
  { generalize (page_load_mirrored ls). generalize (page_load ls) as p.
    induction acts as [| act acts IH]; intros p Hp; [exact Hp |].
    change (run_stored ch rev (act :: acts) p)
      with (run_stored ch rev acts (step_stored ch rev p act)).
    apply IH, step_stored_mirrored, Hp. }
  exact H.
Qed.

(** ** The tags survive a reload *)

Lemma addTag_stored_fst (tagText : string) (p : list string * localStorage) :
  fst (addTag_stored tagText p) = addTag tagText (fst p).
Proof.
  unfold addTag_stored, addTag. destruct (_ || _); reflexivity.
Qed.

Lemma addTag_stored_mirrored (tagText : string) (p : list string * localStorage) :
  tags_mirrored p -> tags_mirrored (addTag_stored tagText p).
Proof.
  intros H. unfold addTag_stored.
  destruct (_ || _) eqn:E; [exact H |].
  unfold tags_mirrored, addTag. rewrite E. cbn [fst snd saveTagsToStorage ls_tagsList].
  rewrite length_app. simpl.
  replace (0 <? List.length (fst p) + 1)%nat with true; [reflexivity |].
  symmetry. apply Nat.ltb_lt. lia.
Qed.

Lemma saveTagsToStorage_mirrored (tags : list string) (ls : localStorage) :
  tags_mirrored (tags, saveTagsToStorage tags ls).
Proof.
  unfold tags_mirrored. cbn [fst snd saveTagsToStorage ls_tagsList].
  destruct tags; reflexivity.
Qed.

Lemma tag_step_stored_spec (p : list string * localStorage) (act : tag_action) :
  fst (tag_step_stored p act) = tag_step (fst p) act
  /\ (tags_mirrored p -> tags_mirrored (tag_step_stored p act)).
Proof.
  destruct act as [value | index | text |]; simpl.
  - destruct (_ <? _)%nat; [| auto].
    split; [apply addTag_stored_fst | apply addTag_stored_mirrored].
  - unfold removeTag_stored, removeTag. destruct (_ && _); [| auto].
    split; [reflexivity | intros _; apply saveTagsToStorage_mirrored].
  - unfold parseAndAddTags. revert p.
    induction (parseInput text) as [| item items IH]; intros p; simpl; [auto |].
    destruct (IH (addTag_stored item p)) as [Hf Hm].
    rewrite addTag_stored_fst in Hf. split; [exact Hf |].
    intros H. apply Hm, addTag_stored_mirrored, H.
  - split; [reflexivity | intros _; apply saveTagsToStorage_mirrored].
Qed.

Lemma tag_run_stored_spec (acts : list tag_action) (p : list string * localStorage) :
  tags_mirrored p ->
  fst (tag_run_stored acts p) = tag_run acts (fst p)
  /\ tags_mirrored (tag_run_stored acts p).
Proof.
  revert p. induction acts as [| act acts IH]; intros p Hp.
  - split; [reflexivity | exact Hp].
  - change (tag_run_stored (act :: acts) p)
      with (tag_run_stored acts (tag_step_stored p act)).
    change (tag_run (act :: acts) (fst p))
      with (tag_run acts (tag_step (fst p) act)).
    destruct (tag_step_stored_spec p act) as [Hf Hm].
    rewrite <- Hf. apply IH, Hm, Hp.
Qed.

(** X16: the tags survive a reload: after any sequence of typing,
    pasting, removing and clearing on a page loaded from the storage, the
    tag list kept in [localStorage] is the tag list of the page (the key is
    removed when the list is empty), so that [loadTagsFromStorage] on a
    fresh page gives the same tags back. *)
Theorem tags_survive_reload (ls : localStorage) (acts : list tag_action) :
  let p := tag_run_stored acts (loadTagsFromStorage ls [], ls) in
  fst p = tag_run acts (loadTagsFromStorage ls [])
  /\ loadTagsFromStorage (snd p) [] = fst p.
Proof.
  cbn zeta.
  apply (tag_run_stored_spec acts (loadTagsFromStorage ls [], ls)).
  reflexivity.
Qed.

(** ** Preferences *)

(** X17: the theme button walks through dark, light and auto: from one of
    the three themes a click gives another of the three and three clicks
    give the theme back; from any other value of [currentTheme] a click
    gives dark. *)
Theorem toggleTheme_cycle (q other : prefs * localStorage) :
  In (currentTheme (fst q)) themes ->
  ~ In (currentTheme (fst other)) themes ->
  In (currentTheme (fst (toggleTheme q))) themes
  /\ currentTheme (fst (toggleTheme q)) <> currentTheme (fst q)
  /\ currentTheme (fst (toggleTheme (toggleTheme (toggleTheme q))))
     = currentTheme (fst q)
  /\ currentTheme (fst (toggleTheme other)) = "dark"%string.
Proof.
  intros Hin Hout.
  assert (Ho : indexOf_from 0 (currentTheme (fst other)) themes = (-1)%Z).
  { unfold themes in *. simpl in *.
    repeat match goal with
           | |- context [String.eqb ?a ?b] =>
               destruct (String.eqb_spec a b); [exfalso; apply Hout; auto 6 |]
           end.
    reflexivity. }
  split; [| split; [| split]].
  - unfold toggleTheme.
    destruct Hin as [E | [E | [E | []]]]; rewrite <- E; vm_compute; auto.
  - unfold toggleTheme.
    destruct Hin as [E | [E | [E | []]]]; rewrite <- E; vm_compute; discriminate.
  - destruct q as [p ls]. cbn [fst] in *.
    destruct Hin as [E | [E | [E | []]]]; unfold toggleTheme; cbn [fst snd];
      rewrite <- E; reflexivity.
  - unfold toggleTheme. rewrite Ho. reflexivity.
Qed.

Lemma toggleTheme_cycle_witness :
  let q := (initial_prefs, empty_storage) in
  let other := setTheme "sepia" (initial_prefs, empty_storage) in
  In (currentTheme (fst (toggleTheme q))) themes
  /\ currentTheme (fst (toggleTheme q)) <> currentTheme (fst q)
  /\ currentTheme (fst (toggleTheme (toggleTheme (toggleTheme q))))
     = currentTheme (fst q)
  /\ currentTheme (fst (toggleTheme other)) = "dark"%string.
Proof.
  apply (toggleTheme_cycle (initial_prefs, empty_storage)
           (setTheme "sepia" (initial_prefs, empty_storage))).
  - left. reflexivity.
  - simpl. intuition discriminate.
Defined.

Lemma setSpinSoundType_keeps (rev : variant) (random : Q) (p : prefs) :
  isMuted (setSpinSoundType rev random p) = isMuted p
  /\ currentSoundType (setSpinSoundType rev random p) = currentSoundType p
  /\ currentTheme (setSpinSoundType rev random p) = currentTheme p.
Proof.
  unfold setSpinSoundType.
  destruct (_ =? "random")%string; [auto |].
  destruct rev; [auto |].
  destruct (_ =? "cycle")%string; auto.
Qed.

Lemma loadThemePreference_spec (q : prefs * localStorage) :
  let q' := loadThemePreference q in
  In (currentTheme (fst q')) themes
  /\ ls_theme (snd q') = Some (currentTheme (fst q'))
  /\ isMuted (fst q') = isMuted (fst q)
  /\ currentSoundType (fst q') = currentSoundType (fst q)
  /\ ls_muted (snd q') = ls_muted (snd q)
  /\ ls_soundType (snd q') = ls_soundType (snd q)
  /\ (forall t, ls_theme (snd q) = Some t -> In t themes ->
                currentTheme (fst q') = t).
Proof.
  cbn zeta. unfold loadThemePreference.
  destruct (ls_theme (snd q)) as [saved |] eqn:E.
  - destruct ((0 <? String.length saved)%nat && existsb (String.eqb saved) themes) eqn:F.
    + apply andb_true_iff in F as [_ F]. apply existsb_eqb_In in F.
      cbn [setTheme fst snd currentTheme ls_theme isMuted currentSoundType
           ls_muted ls_soundType].
      repeat split; auto. intros t Ht _. congruence.
    + cbn [setTheme fst snd currentTheme ls_theme isMuted currentSoundType
           ls_muted ls_soundType].
      repeat split; auto; [left; reflexivity |].
      intros t Ht Hin. injection Ht as <-.
      apply existsb_eqb_In in Hin as Hex. rewrite Hex, andb_true_r in F.
      destruct Hin as [<- | [<- | [<- | []]]]; discriminate.
  - cbn [setTheme fst snd currentTheme ls_theme isMuted currentSoundType
         ls_muted ls_soundType].
    repeat split; auto; [left; reflexivity |]. discriminate.
Qed.

Lemma prefs_load_spec (rev : variant) (random : Q) (ls : localStorage) :
  let q := prefs_load rev random ls in
  prefs_mirrored q
  /\ ls_muted (snd q) = ls_muted ls
  /\ ls_soundType (snd q) = ls_soundType ls
  /\ (forall t, ls_theme ls = Some t -> In t themes -> currentTheme (fst q) = t).
Proof.
  cbn zeta. unfold prefs_load.
  set (q1 := loadMutePreference (initial_prefs, ls)).
  set (q2 := loadSoundPreference rev random q1).
  assert (H1 : snd q1 = ls
               /\ isMuted (fst q1)
                  = match ls_muted ls with
                    | Some saved => (saved =? "true")%string
                    | None => false
                    end
               /\ currentSoundType (fst q1) = "classic"%string).
  { unfold q1, loadMutePreference. cbn [fst snd].
    destruct (ls_muted ls) as [saved |]; [| auto].
    destruct (saved =? "true")%string; auto. }
  destruct H1 as (Hs1 & Hm1 & Hc1).
  assert (H2 : snd q2 = ls
               /\ isMuted (fst q2) = isMuted (fst q1)
               /\ currentSoundType (fst q2)
                  = match ls_soundType ls with
                    | Some saved =>
                        if (0 <? String.length saved)%nat then saved
                        else "classic"%string
                    | None => "classic"%string
                    end).
  { unfold q2, loadSoundPreference. cbn [fst snd]. rewrite Hs1.
    split; [reflexivity |].
    match goal with
    | |- context [setSpinSoundType rev random ?p] =>
        destruct (setSpinSoundType_keeps rev random p) as (Ha & Hb & _);
        rewrite Ha, Hb
    end.
    destruct (ls_soundType ls) as [saved |]; [| auto].
    destruct (0 <? String.length saved)%nat; auto. }
  destruct H2 as (Hs2 & Hm2 & Hc2).
  destruct (loadThemePreference_spec q2) as (Hin & Hth & Hm & Hc & Hlm & Hls & Hval).
  unfold prefs_mirrored.
  rewrite Hlm, Hls, Hs2, Hm, Hc, Hm2, Hm1, Hc2.
  repeat split; auto.
  intros t Ht Hint. apply Hval; [rewrite Hs2; exact Ht | exact Hint].
Qed.

Lemma pref_step_mirrored (rev : variant) (q : prefs * localStorage) (act : pref_action) :
  match act with SoundChange value _ => value <> EmptyString | _ => True end ->
  prefs_mirrored q -> prefs_mirrored (pref_step rev q act).
Proof.
  intros Hv (Hm & Hc & Ht & Hin). destruct act as [| | value random | random]; simpl.
  - unfold prefs_mirrored, toggleMute.
    cbn [fst snd isMuted currentSoundType currentTheme ls_muted ls_soundType ls_theme].
    repeat split; auto. destruct (isMuted (fst q)); reflexivity.
  - unfold toggleTheme.
    destruct (array_get themes _) as [theme |] eqn:E; [| repeat split; auto].
    unfold prefs_mirrored, setTheme.
    cbn [fst snd isMuted currentSoundType currentTheme ls_muted ls_soundType ls_theme].
    repeat split; auto.
    unfold array_get in E. destruct (_ <? 0)%Z; [discriminate |].
    apply nth_error_In in E. exact E.
  - unfold prefs_mirrored, onSoundChange.
    cbn [fst snd isMuted currentSoundType currentTheme ls_muted ls_soundType ls_theme].
    repeat split; auto.
    destruct value; [congruence | reflexivity].
  - unfold prefs_mirrored. cbn [fst snd].
    destruct (setSpinSoundType_keeps rev random (fst q)) as (Ha & Hb & Hd).
    rewrite Ha, Hb, Hd. repeat split; auto.
Qed.

(** X18: the preferences survive a reload: after any sequence of clicks on
    the mute and theme buttons, changes of the sound select (to values
    that are not empty) and spins, a script started on the storage the
    page has written finds the same mute state, the same sound type and
    the same theme. *)
Theorem prefs_survive_reload (rev : variant) (ls : localStorage)
        (acts : list pref_action) (r0 r1 : Q) :
  sound_values_ok acts ->
  let q := pref_run rev acts (prefs_load rev r0 ls) in
  let q' := prefs_load rev r1 (snd q) in
  isMuted (fst q') = isMuted (fst q)
  /\ currentSoundType (fst q') = currentSoundType (fst q)
  /\ currentTheme (fst q') = currentTheme (fst q).
Proof.
  intros Hok. cbn zeta.
  assert (H : prefs_mirrored (pref_run rev acts (prefs_load rev r0 ls))).
  { destruct (prefs_load_spec rev r0 ls) as (H0 & _).
    revert H0. generalize (prefs_load rev r0 ls) as q.
    induction Hok as [| act acts Hact Hok IH]; intros q Hq; [exact Hq |].
    change (pref_run rev (act :: acts) q)
      with (pref_run rev acts (pref_step rev q act)).
    apply IH, pref_step_mirrored; assumption. }
  set (q := pref_run rev acts (prefs_load rev r0 ls)) in *.
  destruct H as (Hm & Hc & Ht & Hin).
  destruct (prefs_load_spec rev r1 (snd q)) as ((Hm' & Hc' & _) & Hlm & Hls & Hval).
  rewrite Hm', Hc', Hlm, Hls, <- Hm, <- Hc.
  repeat split; auto.
Qed.

Lemma prefs_survive_reload_witness :
  let acts := [ToggleMute; ToggleTheme; SoundChange "random" (1 # 3);
               SpinSound (5 # 6); ToggleTheme; ToggleMute; ToggleMute]%string in
  let q := pref_run OffsetSubtracted acts (prefs_load OffsetSubtracted 0 empty_storage) in
  let q' := prefs_load OffsetSubtracted (1 # 2) (snd q) in
  isMuted (fst q') = isMuted (fst q)
  /\ currentSoundType (fst q') = currentSoundType (fst q)
  /\ currentTheme (fst q') = currentTheme (fst q).
Proof.
  apply (prefs_survive_reload OffsetSubtracted empty_storage
           [ToggleMute; ToggleTheme; SoundChange "random" (1 # 3);
            SpinSound (5 # 6); ToggleTheme; ToggleMute; ToggleMute]%string
           0 (1 # 2)).
  repeat constructor; discriminate.
Defined.

Lemma rotation_Permutation {A : Type} (k : nat) (l : list A) :
  Permutation (skipn k l ++ firstn k l) l.
Proof.
  rewrite Permutation_app_comm, firstn_skipn. reflexivity.
Qed.

Lemma rem_shift (c j : Z) :
  (0 <= c)%Z -> (0 <= j)%Z -> Z.rem (c + j) 8 = ((c mod 8 + j) mod 8)%Z.
Proof.
  intros Hc Hj. rewrite Z.rem_mod_nonneg by lia.
  rewrite Zplus_mod_idemp_l. reflexivity.
Qed.

Lemma spin_sounds_cycle (randoms : list Q) (p : prefs) :
  currentSoundType p = "cycle"%string ->
  spin_sounds OffsetSubtracted randoms p
  = map (fun j => array_get (sounds OffsetSubtracted)
                            (Num (Z.rem (cycleIndex p + Z.of_nat j) 8)))
        (seq 0 (List.length randoms)).
Proof.
  revert p. induction randoms as [| r rest IH]; intros p Hc; [reflexivity |].
  cbn [spin_sounds List.length seq map].
  assert (E : setSpinSoundType OffsetSubtracted r p
              = {| isMuted := isMuted p; currentSoundType := currentSoundType p;
                   currentSpinSoundType :=
                     array_get (sounds OffsetSubtracted) (Num (Z.rem (cycleIndex p) 8));
                   cycleIndex := cycleIndex p + 1; currentTheme := currentTheme p |}).
  { unfold setSpinSoundType. rewrite Hc. reflexivity. }
  rewrite E. cbn [currentSpinSoundType]. rewrite Z.add_0_r. f_equal.
  rewrite IH by exact Hc. cbn [cycleIndex].
  rewrite <- seq_shift, map_map. apply map_ext. intros j.
  do 3 f_equal. lia.
Qed.

(** X19: the sound of a spin: in the random mode the sound picked is one
    of the array [sounds], for every draw of [Math.random()]; in the cycle
    mode of the second revision eight spins in a row play the eight sounds
    of the array, each once, wherever the cycle stands. *)
Theorem sound_of_spin (rev : variant) (random : Q) (p c : prefs) (randoms : list Q) :
  0 <= random -> random < 1 ->
  currentSoundType p = "random"%string ->
  currentSoundType c = "cycle"%string -> (0 <= cycleIndex c)%Z ->
  List.length randoms = 8%nat ->
  (exists sound : string,
      currentSpinSoundType (setSpinSoundType rev random p) = Some sound
      /\ In sound (sounds rev))
  /\ Permutation (spin_sounds OffsetSubtracted randoms c)
                 (map Some (sounds OffsetSubtracted)).
Proof.
  intros H0 H1 Hp Hc Hi Hn. split.
  - unfold setSpinSoundType. rewrite Hp. cbn [String.eqb currentSpinSoundType].
    assert (Hl : (0 < Z.of_nat (List.length (sounds rev)))%Z) by (destruct rev; simpl; lia).
    pose proof (random_index_range random _ H0 H1 Hl) as Hw.
    rewrite array_get_Num by lia.
    destruct (nth_error (sounds rev) (Z.to_nat (Js.Math_floor
               (random * inject_Z (Z.of_nat (List.length (sounds rev))))))) eqn:E.
    + exists s. split; [reflexivity | apply nth_error_In in E; exact E].
    + apply nth_error_None in E. lia.
  - rewrite (spin_sounds_cycle randoms c Hc), Hn.
    cbn [seq map Z.of_nat Pos.of_succ_nat Pos.succ].
    rewrite !rem_shift by lia.
    pose proof (Z.mod_pos_bound (cycleIndex c) 8 ltac:(lia)) as Hm.
    set (m := (cycleIndex c mod 8)%Z) in *.
    assert (Hcase : (m = 0 \/ m = 1 \/ m = 2 \/ m = 3
                     \/ m = 4 \/ m = 5 \/ m = 6 \/ m = 7)%Z) by lia.
    destruct Hcase as [E | [E | [E | [E | [E | [E | [E | E]]]]]]]; rewrite E.
    + exact (rotation_Permutation 0 (map Some (sounds OffsetSubtracted))).
    + exact (rotation_Permutation 1 (map Some (sounds OffsetSubtracted))).
    + exact (rotation_Permutation 2 (map Some (sounds OffsetSubtracted))).
    + exact (rotation_Permutation 3 (map Some (sounds OffsetSubtracted))).
    + exact (rotation_Permutation 4 (map Some (sounds OffsetSubtracted))).
    + exact (rotation_Permutation 5 (map Some (sounds OffsetSubtracted))).
    + exact (rotation_Permutation 6 (map Some (sounds OffsetSubtracted))).
    + exact (rotation_Permutation 7 (map Some (sounds OffsetSubtracted))).
Qed.

Lemma sound_of_spin_witness :
  let p := fst (onSoundChange OffsetAdded "random" 0 (initial_prefs, empty_storage)) in
  let c := fst (onSoundChange OffsetSubtracted "cycle" 0 (initial_prefs, empty_storage)) in
  (exists sound : string,
      currentSpinSoundType (setSpinSoundType OffsetAdded (5 # 6) p) = Some sound
      /\ In sound (sounds OffsetAdded))
  /\ Permutation (spin_sounds OffsetSubtracted [0; 0; 0; 0; 0; 0; 0; 0] c)
                 (map Some (sounds OffsetSubtracted)).
Proof.
  apply (sound_of_spin OffsetAdded (5 # 6)
           (fst (onSoundChange OffsetAdded "random" 0 (initial_prefs, empty_storage)))
           (fst (onSoundChange OffsetSubtracted "cycle" 0 (initial_prefs, empty_storage)))
           [0; 0; 0; 0; 0; 0; 0; 0]).
  - unfold Qle; simpl; lia.
  - reflexivity.
  - reflexivity.
  - reflexivity.
  - simpl. lia.
  - reflexivity.
Defined.

(** ** A wheel made of tags *)

Lemma NoDup_map_Some {A : Type} (l : list A) : NoDup l -> NoDup (map Some l).
Proof.
  induction 1 as [| x l Hx Hl IH]; simpl; constructor; auto.
  intros Hin. apply in_map_iff in Hin as (y & E & Hy). congruence.
Qed.

(** X20: a wheel generated from the tags names every tag once: the tags
    being pairwise different, the wheel holds no name twice, and as many
    spins as there are tags, each carried to its end, show every tag as a
    result and none twice. *)
Theorem tagged_wheel_winners (ch : Q) (rev : variant) (namesTags : list string)
        (random : nat -> Q) (s : state) (spins : list spin) :
  0 < ch -> idle s -> NoDup namesTags -> namesTags <> [] ->
  forallb complete_spin spins = true ->
  List.length spins = List.length namesTags ->
  let g := generate namesTags random s in
  let sN := run ch rev (List.concat (map spin_actions spins)) g in
  NoDup (currentItems g)
  /\ exists winners : list (option string),
       results (trace sN) = (winners ++ results (trace s))%list
       /\ NoDup winners
       /\ (forall tag, In tag namesTags <-> In (Some tag) winners).
Proof.
  intros Hch Hidle Hn Hne Hall Hlen. cbn zeta.
  destruct namesTags as [| t0 tags]; [congruence |].
  set (input := t0 :: tags) in *.
  assert (Hg : generate input random s
               = {| currentItems := shuffleArray random input;
                    currentOffset := 0;
                    isSpinning := false;
                    selectedIndex := Null;
                    originalItems := shuffleArray random input;
                    lastTickIndex := Num (-1);
                    frameCallbacks := frameCallbacks s;
                    trace := trace s |}) by reflexivity.
  pose proof (shuffleArray_Permutation random input) as Hperm.
  assert (Hnd : NoDup (shuffleArray random input)).
  { apply (Permutation_NoDup (Permutation_sym Hperm) Hn). }
  rewrite Hg. cbn [currentItems]. split; [exact Hnd |].
  match goal with
  | |- context [run ch rev _ ?g0] => set (g := g0)
  end.
  assert (Hig : idle g) by (split; [reflexivity | apply Hidle]).
  assert (Hle : (List.length spins <= List.length (currentItems g))%nat).
  { cbn [g currentItems]. rewrite shuffleArray_length. lia. }
  destruct (spins_outcome ch rev spins Hch Hall g Hig Hle)
    as (_ & Hl & _ & _ & ws & Hws & Hwl & Hwp).
  assert (He : currentItems (run ch rev (List.concat (map spin_actions spins)) g) = []).
  { apply length_zero_iff_nil. cbn [g currentItems] in Hl.
    rewrite shuffleArray_length in Hl. lia. }
  rewrite He in Hwp. simpl in Hwp. rewrite app_nil_r in Hwp.
  cbn [g currentItems] in Hwp.
  exists ws. split; [exact Hws |]. split.
  + apply (Permutation_NoDup (Permutation_sym Hwp)), NoDup_map_Some, Hnd.
  + intros tag. split; intros H.
    * apply (Permutation_in _ (Permutation_sym Hwp)), in_map,
        (Permutation_in _ (Permutation_sym Hperm)), H.
    * apply (Permutation_in _ Hwp) in H.
      apply in_map_iff in H as (x & E & Hx). injection E as ->.
      apply (Permutation_in _ Hperm), Hx.
Qed.

Lemma tagged_wheel_winners_witness :
  let g := generate ["B"; "C"; "A"]%string (fun _ => 1 # 2) initial in
  let sN := run 500 OffsetAdded (List.concat (map spin_actions demo_spins)) g in
  NoDup (currentItems g)
  /\ exists winners : list (option string),
       results (trace sN) = (winners ++ results (trace initial))%list
       /\ NoDup winners
       /\ (forall tag, In tag ["B"; "C"; "A"]%string <-> In (Some tag) winners).
Proof.
  apply (tagged_wheel_winners 500 OffsetAdded ["B"; "C"; "A"]%string
           (fun _ => 1 # 2) initial demo_spins).
  - reflexivity.
  - split; reflexivity.
  - repeat constructor; simpl; intuition discriminate.
  - discriminate.
  - reflexivity.
  - reflexivity.
Defined.

(** ** The runner game *)

Lemma ltb_lt (a b : Q) : Js.ltb a b = true <-> a < b.
Proof.
  unfold Js.ltb. rewrite negb_true_iff. split.
  - intros H. apply Qnot_le_lt. intros Hle.
    apply Qle_bool_iff in Hle. congruence.
  - intros H. destruct (Qle_bool b a) eqn:E; [| reflexivity].
    apply Qle_bool_iff in E. lra.
Qed.

Lemma ltb_ge (a b : Q) : Js.ltb a b = false <-> b <= a.
Proof.
  unfold Js.ltb. rewrite negb_false_iff. apply Qle_bool_iff.
Qed.

Lemma update_pl (draws : Q * Q * Q) (g : Runner.game) :
  Runner.gameOver g = false ->
  Runner.pl (Runner.update true draws g) =
  let p := Runner.pl g in
  let vy1 := Runner.vy p + Runner.gravity in
  let y1 := Runner.y p + vy1 in
  if Js.ltb (Runner.ground - Runner.h p) y1 then
    {| Runner.x := Runner.x p; Runner.y := Runner.ground - Runner.h p;
       Runner.vy := 0; Runner.w := Runner.w p; Runner.h := Runner.h p;
       Runner.jumping := false |}
  else
    {| Runner.x := Runner.x p; Runner.y := y1; Runner.vy := vy1;
       Runner.w := Runner.w p; Runner.h := Runner.h p;
       Runner.jumping := Runner.jumping p |}.
Proof.
  intros Hg. unfold Runner.update. rewrite Hg. cbn [negb].
  destruct draws as [[r1 r2] r3].
  destruct (_ =? _)%Z; reflexivity.
Qed.

Lemma update_player_ok (draws : Q * Q * Q) (g : Runner.game) :
  Runner.player_ok (Runner.pl g) ->
  Runner.player_ok (Runner.pl (Runner.update true draws g)).
Proof.
  intros [Hh Hp].
  destruct (Runner.gameOver g) eqn:Hg.
  { unfold Runner.update. rewrite Hg. cbn. split; assumption. }
  rewrite (update_pl draws g Hg). cbn zeta.
  destruct (Js.ltb _ _) eqn:Hl.
  - split; [exact Hh |]. left. unfold Runner.standing. cbn.
    rewrite Hh. unfold Runner.ground. repeat split; reflexivity.
  - apply ltb_ge in Hl. rewrite Hh in Hl.
    unfold Runner.ground, Runner.gravity in Hl.
    split; [exact Hh |].
    destruct Hp as [[Hj [Hy Hv]] | [k [Hj [Hk [Hv Hy]]]]].
    + exfalso. rewrite Hy, Hv in Hl. lra.
    + right. exists (k + 1)%Z. unfold Runner.airborne. cbn.
      unfold Runner.gravity.
      rewrite inject_Z_plus. change (inject_Z 1) with 1.
      assert (Hk29 : k <> 29%Z).
      { intros ->. rewrite Hy, Hv in Hl. change (inject_Z 29) with 29 in Hl. lra. }
      split; [exact Hj |]. split; [lia |].
      split; [rewrite Hv; ring | rewrite Hy, Hv; ring].
Qed.

Lemma keydown_player_ok (code : Runner.key) (g : Runner.game) :
  Runner.player_ok (Runner.pl g) ->
  Runner.player_ok (Runner.pl (Runner.runnerKeyHandler true code g)).
Proof.
  intros [Hh Hp]. unfold Runner.runnerKeyHandler. cbn [negb].
  assert (Hreset : Runner.player_ok (Runner.pl (Runner.resetGame g))).
  { split; [exact Hh |]. left. unfold Runner.standing. cbn.
    rewrite Hh. unfold Runner.ground. repeat split; reflexivity. }
  assert (Hjump : Runner.player_ok (Runner.pl
            (if negb (Runner.jumping (Runner.pl g)) then
               {| Runner.pl :=
                    {| Runner.x := Runner.x (Runner.pl g);
                       Runner.y := Runner.y (Runner.pl g);
                       Runner.vy := - (18);
                       Runner.w := Runner.w (Runner.pl g);
                       Runner.h := Runner.h (Runner.pl g);
                       Runner.jumping := true |};
                  Runner.obstacles := Runner.obstacles g;
                  Runner.frame := Runner.frame g;
                  Runner.score := Runner.score g;
                  Runner.gameOver := Runner.gameOver g;
                  Runner.nextObstacleFrame := Runner.nextObstacleFrame g |}
             else g))).
  { destruct (Runner.jumping (Runner.pl g)) eqn:Hj; cbn [negb].
    - split; assumption.
    - split; [exact Hh |]. right. exists 0%Z.
      destruct Hp as [[_ [Hy Hv]] | [k [Hj' _]]]; [| congruence].
      unfold Runner.airborne. cbn. change (inject_Z 0) with 0.
      split; [reflexivity |]. split; [lia |].
      split; [ring | rewrite Hy; ring]. }
  destruct (Runner.gameOver g), code; try assumption; split; assumption.
Qed.

Lemma play_player_ok (inputs : list Runner.input) (g : Runner.game) :
  Runner.player_ok (Runner.pl g) ->
  Runner.player_ok (Runner.pl (Runner.play inputs g)).
Proof.
  revert g. induction inputs as [| i inputs IH]; intros g Hg; [exact Hg |].
  cbn. apply IH. destruct i as [draws | code]; cbn.
  - apply update_player_ok, Hg.
  - apply keydown_player_ok, Hg.
Qed.

(** X21: whatever keys are pressed and whenever, and whatever obstacles
    are spawned, the player of the runner game is never below the ground
    line ([y <= ground - h = 220]) and never higher than 126 pixels above
    it ([94 <= y]); whenever the [jumping] flag is down the player stands
    on the ground at rest. *)
Theorem runner_player_bounds (inputs : list Runner.input) :
  let p := Runner.pl (Runner.play inputs Runner.start) in
  94 <= Runner.y p /\ Runner.y p <= Runner.ground - Runner.h p
  /\ (Runner.jumping p = false ->
      Runner.y p == Runner.ground - Runner.h p /\ Runner.vy p == 0).
Proof.
  cbn zeta.
  assert (H0 : Runner.player_ok (Runner.pl Runner.start)).
  { split; [reflexivity |]. left. unfold Runner.standing. cbn.
    repeat split; reflexivity. }
  destruct (play_player_ok inputs _ H0) as [Hh Hp].
  rewrite Hh. unfold Runner.ground.
  destruct Hp as [[Hj [Hy Hv]] | [k [Hj [Hk [Hv Hy]]]]].
  - rewrite Hy, Hv. split; [lra |]. split; [lra |].
    intros _. split; [lra | reflexivity].
  - assert (HZ : (0 <= (k - 14) * (k - 15))%Z)
      by (destruct (Z_le_gt_dec k 14); nia).
    assert (HZ2 : (0 <= k * (29 - k))%Z) by nia.
    rewrite Zle_Qle in HZ, HZ2.
    rewrite inject_Z_mult in HZ, HZ2.
    unfold Z.sub in HZ, HZ2.
    rewrite !inject_Z_plus, !inject_Z_opp in HZ.
    rewrite !inject_Z_plus, !inject_Z_opp in HZ2.
    change (inject_Z 0) with 0 in *. change (inject_Z 14) with 14 in *.
    change (inject_Z 15) with 15 in *. change (inject_Z 29) with 29 in *.
    remember (inject_Z k) as K eqn:EK. clear EK.
    split; [rewrite Hy; lra |]. split; [rewrite Hy; lra |].
    intros Hf. congruence.
Qed.

Lemma floor_draw (r : Q) : 0 <= r -> (0 <= Js.Math_floor (r * 60))%Z.
Proof.
  intros Hr. unfold Js.Math_floor.
  change 0%Z with (Qfloor 0). apply Qfloor_resp_le. lra.
Qed.

Lemma moved_ok (N : Z) (l : list Runner.obstacle) :
  Forall (Runner.obstacle_ok N) l ->
  Forall (Runner.obstacle_ok (N + 1))
    (filter (fun obs => Js.ltb 0 (Runner.ox obs + Runner.ow obs))
       (map (fun obs => {| Runner.ox := Runner.ox obs - 6;
                           Runner.oy := Runner.oy obs;
                           Runner.ow := Runner.ow obs;
                           Runner.oh := Runner.oh obs |}) l)).
Proof.
  induction 1 as [| obs l (Hx & Hw & Hh & Hy) _ IH]; cbn; [constructor |].
  destruct (Js.ltb _ _); [| exact IH].
  constructor; [| exact IH].
  unfold Runner.obstacle_ok. cbn.
  rewrite inject_Z_plus. change (inject_Z 1) with 1.
  repeat split; try assumption. lra.
Qed.

Lemma moved_first (N : Z) (l : list Runner.obstacle) (obs : Runner.obstacle) :
  (N <= 178)%Z ->
  In obs l -> Runner.obstacle_ok N obs ->
  In {| Runner.ox := Runner.ox obs - 6; Runner.oy := Runner.oy obs;
        Runner.ow := Runner.ow obs; Runner.oh := Runner.oh obs |}
    (filter (fun obs => Js.ltb 0 (Runner.ox obs + Runner.ow obs))
       (map (fun obs => {| Runner.ox := Runner.ox obs - 6;
                           Runner.oy := Runner.oy obs;
                           Runner.ow := Runner.ow obs;
                           Runner.oh := Runner.oh obs |}) l)).
Proof.
  intros HN Hin (Hx & Hw & _). apply filter_In. split.
  - apply (in_map (fun obs => {| Runner.ox := Runner.ox obs - 6;
                                 Runner.oy := Runner.oy obs;
                                 Runner.ow := Runner.ow obs;
                                 Runner.oh := Runner.oh obs |})), Hin.
  - cbn. apply ltb_lt. rewrite Zle_Qle in HN.
    change (inject_Z 178) with 178 in HN. lra.
Qed.

Lemma idle_update (n : nat) (draws : Q * Q * Q) (g : Runner.game) :
  (n <= 178)%nat ->
  Runner.idle_inv n g -> Runner.gameOver g = false -> Runner.draws_ok draws ->
  Runner.idle_inv (S n) (Runner.update true draws g).
Proof.
  intros Hle (Hf & Hx & Hw & Hh & Hy & Hv & Hn & Hearly & Hfirst & Hall) Hg Hd.
  unfold Runner.update. rewrite Hg. cbn [negb].
  destruct draws as [[r1 r2] r3]. destruct Hd as (Hr1 & Hr2 & Hr3).
  assert (Hl : Js.ltb (Runner.ground - Runner.h (Runner.pl g))
                 (Runner.y (Runner.pl g)
                  + (Runner.vy (Runner.pl g) + Runner.gravity)) = true).
  { apply ltb_lt. rewrite Hh, Hy, Hv. unfold Runner.ground, Runner.gravity. lra. }
  rewrite Hl. clear Hl.
  pose proof (moved_ok _ _ Hall) as Hkept.
  assert (Hmoved : (60 <= Z.of_nat n)%Z ->
            exists obs,
              In obs
                (filter (fun obs => Js.ltb 0 (Runner.ox obs + Runner.ow obs))
                   (map (fun obs => {| Runner.ox := Runner.ox obs - 6;
                                       Runner.oy := Runner.oy obs;
                                       Runner.ow := Runner.ow obs;
                                       Runner.oh := Runner.oh obs |})
                      (Runner.obstacles g)))
              /\ Runner.ox obs == 800 - 6 * (inject_Z (Z.of_nat n + 1) - 60)).
  { intros H60. destruct (Hfirst H60) as (obs & Hin & Hox).
    eexists. split.
    - apply (moved_first (Z.of_nat n)); [lia | exact Hin |].
      rewrite Forall_forall in Hall. apply Hall, Hin.
    - cbn. rewrite Hox, inject_Z_plus. change (inject_Z 1) with 1. ring. }
  set (kept := filter _ _) in *.
  unfold Runner.idle_inv.
  replace (Z.of_nat (S n)) with (Z.of_nat n + 1)%Z by lia.
  destruct (Runner.frame g + 1 =? Runner.nextObstacleFrame g)%Z eqn:E; cbn.
  - apply Z.eqb_eq in E.
    assert (H60 : (60 <= Z.of_nat n + 1)%Z).
    { destruct (Z_lt_ge_dec (Z.of_nat n) 60) as [Hlt | Hge]; [| lia].
      destruct (Hearly Hlt) as [Hnext _]. lia. }
    pose proof (floor_draw r3 (proj1 Hr3)) as Hfl. cbn in Hfl.
    assert (Hnew : Runner.obstacle_ok (Z.of_nat n + 1)
              {| Runner.ox := 800;
                 Runner.oy := Runner.ground - (32 + r1 * 24);
                 Runner.ow := 24 + r2 * 24;
                 Runner.oh := 32 + r1 * 24 |}).
    { unfold Runner.obstacle_ok. cbn. rewrite Zle_Qle in H60.
      change (inject_Z 60) with 60 in H60.
      split; [lra |]. split; [lra |]. split; [lra | ring]. }
    split; [lia |]. split; [exact Hx |]. split; [exact Hw |].
    split; [exact Hh |].
    split; [rewrite Hh; reflexivity |]. split; [reflexivity |].
    split; [lia |]. split; [intros Hlt; lia |]. split.
    + intros _. destruct (Z_lt_ge_dec (Z.of_nat n) 60) as [Hlt | Hge].
      * eexists. split; [apply in_or_app; right; left; reflexivity |].
        cbn. assert (En : (Z.of_nat n + 1 = 60)%Z) by lia.
        rewrite En. reflexivity.
      * destruct (Hmoved ltac:(lia)) as (obs & Hin & Hox).
        exists obs. split; [apply in_or_app; left; exact Hin | exact Hox].
    + apply Forall_app. split; [exact Hkept |].
      constructor; [exact Hnew | constructor].
  - apply Z.eqb_neq in E.
    split; [lia |]. split; [exact Hx |]. split; [exact Hw |].
    split; [exact Hh |].
    split; [rewrite Hh; reflexivity |]. split; [reflexivity |].
    split; [lia |]. split; [| split].
    + intros Hlt. destruct (Hearly ltac:(lia)) as [Hnext Hnil].
      split; [exact Hnext |]. subst kept. rewrite Hnil. reflexivity.
    + intros H60. apply Hmoved.
      destruct (Z_lt_ge_dec (Z.of_nat n) 60) as [Hlt | Hge]; [| lia].
      destruct (Hearly Hlt) as [Hnext _]. lia.
    + exact Hkept.
Qed.

Lemma update_gameOver (draws : Q * Q * Q) (g : Runner.game) :
  Runner.gameOver g = false ->
  Runner.gameOver (Runner.update true draws g) =
  existsb (Runner.collides (Runner.pl (Runner.update true draws g)))
    (Runner.obstacles (Runner.update true draws g)).
Proof.
  intros Hg. unfold Runner.update. rewrite Hg. reflexivity.
Qed.

Lemma idle_safe (n : nat) (g : Runner.game) :
  (n <= 178)%nat -> Runner.idle_inv n g ->
  existsb (Runner.collides (Runner.pl g)) (Runner.obstacles g) = false.
Proof.
  intros Hle (_ & Hx & Hw & _ & _ & _ & _ & _ & _ & Hall).
  destruct (existsb _ _) eqn:E; [| reflexivity].
  apply existsb_exists in E. destruct E as (obs & Hin & Hc).
  rewrite Forall_forall in Hall. destruct (Hall obs Hin) as (Hox & _).
  unfold Runner.collides in Hc.
  apply andb_true_iff in Hc. destruct Hc as [Hc _].
  apply andb_true_iff in Hc. destruct Hc as [Hc _].
  apply andb_true_iff in Hc. destruct Hc as [_ Hc].
  apply ltb_lt in Hc. rewrite Hx, Hw in Hc.
  assert (HN : (Z.of_nat n <= 178)%Z) by lia.
  rewrite Zle_Qle in HN. change (inject_Z 178) with 178 in HN. lra.
Qed.

Lemma idle_hit (n : nat) (g : Runner.game) :
  n = 179%nat -> Runner.idle_inv n g ->
  existsb (Runner.collides (Runner.pl g)) (Runner.obstacles g) = true.
Proof.
  intros Hn (_ & Hx & Hw & Hh & Hy & _ & _ & _ & Hfirst & Hall).
  assert (HN : Z.of_nat n = 179%Z) by lia.
  rewrite HN in Hfirst, Hall. clear Hn HN.
  destruct (Hfirst ltac:(lia)) as (obs & Hin & Hox).
  rewrite Forall_forall in Hall.
  destruct (Hall obs Hin) as (_ & How & Hoh & Hoy).
  apply existsb_exists. exists obs. split; [exact Hin |].
  change (inject_Z 179) with 179 in Hox.
  unfold Runner.ground in Hoy.
  unfold Runner.collides. rewrite Hx, Hw, Hh.
  repeat (apply andb_true_iff; split); apply ltb_lt; lra.
Qed.

Lemma idle_turns_spec (draws : nat -> Q * Q * Q) (n : nat) :
  (forall k, Runner.draws_ok (draws k)) ->
  (n <= 178)%nat ->
  Runner.idle_inv n (Runner.idle_turns n draws Runner.start)
  /\ Runner.gameOver (Runner.idle_turns n draws Runner.start) = false.
Proof.
  intros Hd. induction n as [| n IH]; intros Hle.
  - split; [| reflexivity]. unfold Runner.idle_inv. cbn.
    repeat split; try reflexivity; try lia. constructor.
  - destruct (IH ltac:(lia)) as [Hinv Hg]. cbn [Runner.idle_turns].
    pose proof (idle_update n (draws n) _ ltac:(lia) Hinv Hg (Hd n)) as Hnext.
    split; [exact Hnext |].
    rewrite (update_gameOver _ _ Hg). apply (idle_safe (S n)); assumption.
Qed.

Lemma idle_turns_over (draws : nat -> Q * Q * Q) (n m : nat) :
  Runner.gameOver (Runner.idle_turns n draws Runner.start) = true ->
  Runner.idle_turns (m + n) draws Runner.start
  = Runner.idle_turns n draws Runner.start.
Proof.
  intros Hg. induction m as [| m IH]; [reflexivity |].
  cbn [Nat.add Runner.idle_turns]. rewrite IH.
  unfold Runner.update. rewrite Hg. reflexivity.
Qed.

Lemma idle_turns_hit (draws : nat -> Q * Q * Q) (m : nat) :
  (forall k, Runner.draws_ok (draws k)) ->
  m = 178%nat ->
  Runner.gameOver (Runner.idle_turns (S m) draws Runner.start) = true
  /\ Runner.frame (Runner.idle_turns (S m) draws Runner.start) = Z.of_nat (S m).
Proof.
  intros Hd Hm.
  destruct (idle_turns_spec draws m Hd ltac:(lia)) as [Hi Hg].
  pose proof (idle_update m (draws m) _ ltac:(lia) Hi Hg (Hd m)) as Hnext.
  cbn [Runner.idle_turns]. split.
  - rewrite (update_gameOver _ _ Hg). apply (idle_hit (S m)); [lia | exact Hnext].
  - destruct Hnext as (Hf & _). exact Hf.
Qed.

(** X22: a player of the runner game who never jumps survives exactly 178
    turns of the loop: whatever sizes and spacings are drawn for the
    obstacles, the game is not over after [n <= 178] turns and is over
    after every [n >= 179], stopped at frame 179, when the first obstacle,
    spawned at frame 60, reaches the player. *)
Theorem runner_idle_loses (draws : nat -> Q * Q * Q) (n : nat) :
  (forall k, Runner.draws_ok (draws k)) ->
  let g := Runner.idle_turns n draws Runner.start in
  Runner.gameOver g = (179 <=? n)%nat
  /\ Runner.frame g = Z.of_nat (Nat.min n 179).
Proof.
  intros Hd. cbn zeta. destruct (Nat.leb_spec 179 n) as [Hge | Hlt].
  - destruct (idle_turns_hit draws 178 Hd eq_refl) as [Hover Hf].
    rewrite Nat.min_r by exact Hge.
    assert (En : n = ((n - 179) + 179)%nat)
      by (symmetry; apply Nat.sub_add; exact Hge).
    rewrite En at 1 2.
    rewrite (idle_turns_over draws 179 (n - 179) Hover).
    split; [exact Hover | exact Hf].
  - assert (Hle : (n <= 178)%nat) by (apply Nat.lt_succ_r; exact Hlt).
    destruct (idle_turns_spec draws n Hd Hle) as [(Hf & _) Hg].
    rewrite Nat.min_l by (apply Nat.lt_le_incl; exact Hlt).
    split; assumption.
Qed.

Lemma runner_idle_loses_witness :
  (forall k : nat, Runner.draws_ok ((fun _ => (1 # 2, 1 # 2, 1 # 2)) k))
  /\ Runner.gameOver
       (Runner.idle_turns 200 (fun _ => (1 # 2, 1 # 2, 1 # 2)) Runner.start)
     = true.
Proof.
  assert (H : forall k : nat,
             Runner.draws_ok ((fun _ => (1 # 2, 1 # 2, 1 # 2)) k)).
  { intros k. cbn. repeat split; lra. }
  split; [exact H |].
  exact (proj1 (runner_idle_loses (fun _ => (1 # 2, 1 # 2, 1 # 2)) 200 H)).
Defined.

Lemma floor_fifth (a : Z) : Js.Math_floor (inject_Z a / 5) = (a / 5)%Z.
Proof.
  unfold Js.Math_floor, Qfloor, Qdiv, Qmult, Qinv, inject_Z. cbn.
  rewrite Z.mul_1_r. reflexivity.
Qed.

Lemma update_on_screen (draws : Q * Q * Q) (g : Runner.game) :
  Runner.draws_ok draws ->
  (0 <= Runner.frame g < Runner.nextObstacleFrame g)%Z
  /\ Runner.score g = (Runner.frame g / 5)%Z
  /\ Forall Runner.on_screen (Runner.obstacles g) ->
  let g' := Runner.update true draws g in
  (0 <= Runner.frame g' < Runner.nextObstacleFrame g')%Z
  /\ Runner.score g' = (Runner.frame g' / 5)%Z
  /\ Forall Runner.on_screen (Runner.obstacles g').
Proof.
  intros Hd (Hf & Hs & Hall). cbn zeta. unfold Runner.update. cbn [negb].
  destruct (Runner.gameOver g); [repeat split; try assumption; lia |].
  destruct draws as [[r1 r2] r3]. destruct Hd as (Hr1 & Hr2 & Hr3).
  assert (Hkept : Forall Runner.on_screen
            (filter (fun obs => Js.ltb 0 (Runner.ox obs + Runner.ow obs))
               (map (fun obs => {| Runner.ox := Runner.ox obs - 6;
                                   Runner.oy := Runner.oy obs;
                                   Runner.ow := Runner.ow obs;
                                   Runner.oh := Runner.oh obs |})
                  (Runner.obstacles g)))).
  { apply Forall_forall. intros obs Hin.
    apply filter_In in Hin. destruct Hin as [Hin Hpass].
    apply in_map_iff in Hin. destruct Hin as (old & <- & Hin).
    rewrite Forall_forall in Hall.
    destruct (Hall old Hin) as (_ & Hx & Hw & Hh & Hy).
    apply ltb_lt in Hpass. cbn in Hpass.
    unfold Runner.on_screen. cbn.
    split; [exact Hpass |]. split; [lra |]. repeat split; tauto. }
  set (kept := filter _ _) in *.
  pose proof (floor_draw r3 (proj1 Hr3)) as Hfl.
  pose proof (floor_fifth (Runner.frame g + 1)) as Hscore.
  destruct (Runner.frame g + 1 =? Runner.nextObstacleFrame g)%Z eqn:E;
    cbn [Runner.spawnObstacle Runner.pl Runner.obstacles Runner.frame
         Runner.score Runner.gameOver Runner.nextObstacleFrame].
  - split; [lia |]. split; [exact Hscore |].
    apply Forall_app. split; [exact Hkept |].
    constructor; [| constructor].
    unfold Runner.on_screen, Runner.ground. cbn.
    split; [lra |]. split; [lra |]. split; [lra |]. split; [lra | ring].
  - apply Z.eqb_neq in E. split; [lia |]. split; [exact Hscore | exact Hkept].
Qed.

Lemma keydown_on_screen (code : Runner.key) (g : Runner.game) :
  (0 <= Runner.frame g < Runner.nextObstacleFrame g)%Z
  /\ Runner.score g = (Runner.frame g / 5)%Z
  /\ Forall Runner.on_screen (Runner.obstacles g) ->
  let g' := Runner.runnerKeyHandler true code g in
  (0 <= Runner.frame g' < Runner.nextObstacleFrame g')%Z
  /\ Runner.score g' = (Runner.frame g' / 5)%Z
  /\ Forall Runner.on_screen (Runner.obstacles g').
Proof.
  intros H. cbn zeta. unfold Runner.runnerKeyHandler. cbn [negb].
  assert (Hreset :
            (0 <= Runner.frame (Runner.resetGame g)
             < Runner.nextObstacleFrame (Runner.resetGame g))%Z
            /\ Runner.score (Runner.resetGame g)
               = (Runner.frame (Runner.resetGame g) / 5)%Z
            /\ Forall Runner.on_screen (Runner.obstacles (Runner.resetGame g))).
  { cbn. split; [lia |]. split; [reflexivity | constructor]. }
  destruct (Runner.gameOver g), code; try assumption;
    destruct (Runner.jumping (Runner.pl g)); assumption.
Qed.

(** X23: in every state the runner game reaches, by turns of the loop and
    keys in any order, the frame counter is below the frame planned for
    the next obstacle, so the test [frame === nextObstacleFrame] is never
    overshot and obstacles keep coming; the score is the integer part of
    a fifth of the frame counter; and every obstacle on the list stands on
    the ground, is 24 to 48 wide and 32 to 56 high, and is at least partly
    on the canvas of width 800 or about to enter it. *)
Theorem runner_obstacles (inputs : list Runner.input) :
  Runner.inputs_ok inputs ->
  let g := Runner.play inputs Runner.start in
  (0 <= Runner.frame g < Runner.nextObstacleFrame g)%Z
  /\ Runner.score g = (Runner.frame g / 5)%Z
  /\ Forall Runner.on_screen (Runner.obstacles g).
Proof.
  intros Hin. cbn zeta.
  assert (H0 : (0 <= Runner.frame Runner.start
                < Runner.nextObstacleFrame Runner.start)%Z
               /\ Runner.score Runner.start = (Runner.frame Runner.start / 5)%Z
               /\ Forall Runner.on_screen (Runner.obstacles Runner.start)).
  { cbn. split; [lia |]. split; [reflexivity | constructor]. }
  revert H0. generalize Runner.start.
  induction Hin as [| i inputs Hi _ IH]; intros g Hg; [exact Hg |].
  cbn. apply IH. destruct i as [draws | code]; cbn.
  - apply update_on_screen; assumption.
  - apply keydown_on_screen; assumption.
Qed.

Lemma runner_obstacles_witness :
  let inputs :=
    (Runner.Key Runner.Space
     :: repeat (Runner.Update (1 # 2, 1 # 4, 3 # 4)) 150)%list in
  let g := Runner.play inputs Runner.start in
  Runner.inputs_ok inputs
  /\ List.length (Runner.obstacles g) = 2%nat
  /\ Runner.frame g = 150%Z
  /\ Runner.nextObstacleFrame g = 230%Z
  /\ (0 <= Runner.frame g < Runner.nextObstacleFrame g)%Z
  /\ Runner.score g = (Runner.frame g / 5)%Z
  /\ Forall Runner.on_screen (Runner.obstacles g).
Proof.
  cbn zeta.
  assert (H : Runner.inputs_ok
                (Runner.Key Runner.Space
                 :: repeat (Runner.Update (1 # 2, 1 # 4, 3 # 4)) 150)).
  { constructor; [exact I |]. apply Forall_forall. intros i Hi.
    apply repeat_spec in Hi. subst i. cbn. repeat split; lra. }
  split; [exact H |].
  split; [vm_compute; reflexivity |].
  split; [vm_compute; reflexivity |].
  split; [vm_compute; reflexivity |].
  exact (runner_obstacles _ H).
Defined.
